(** * A hierarchical modeller: scene graph, meshes and the [.mod] file format

    Shallow embedding of [shape.cpp], [model.cpp] and the key handler of
    [main.cpp], followed by the properties of the scene graph, of the
    meshes, of saving and loading, and of the keys of the editor.

    Conventions of the embedding.
    - [float] values are idealised as real numbers ([R]); [sin], [cos] and
      [M_PI] are the real functions and constant.  The GLM functions are
      written out as the library defines them.
    - Objects allocated with [new] live in a store indexed by locations;
      a pointer is an [option loc], [None] being [nullptr].  [new] returns
      the next unused location, [delete] removes the object from the store.
    - A function that dereferences a dangling pointer, or whose recursion
      budget is exhausted, yields [None]; the theorems show that this does
      not happen on the states the program builds.
    - A text file is the list of its lines.  Stream extraction reads the
      decimal forms of [int] and [float] and fails on a value that is out
      of the range of the type; how a [float] is written is a parameter
      ([fmt]) of the functions that save.
    - The OpenGL objects, the window and the camera are left out.  Of
      [draw_scene] the embedding keeps the draw calls it issues, of
      [debug_print] the lines it prints; the other text printed on the
      terminal is left out. *)

From Stdlib Require Import Reals Lra Lia ZArith List String Ascii DecimalString DecimalPos.
From stdpp Require Import gmap strings list sorting.

Local Open Scope R_scope.

(** ** GLM vectors and matrices

    [glm::mat4] is column major: [m[i]] is the i-th column, a [glm::vec4]. *)

Module glm.

Record vec3 := mk_vec3 { x3 : R; y3 : R; z3 : R }.
Record vec4 := mk_vec4 { vx : R; vy : R; vz : R; vw : R }.
Record mat4 := mk_mat4 { col0 : vec4; col1 : vec4; col2 : vec4; col3 : vec4 }.

Definition vec3_add (a b : vec3) : vec3 :=
  mk_vec3 (x3 a + x3 b) (y3 a + y3 b) (z3 a + z3 b).
Definition vec3_neg (a : vec3) : vec3 := mk_vec3 (- x3 a) (- y3 a) (- z3 a).
Definition vec3_div (a : vec3) (k : R) : vec3 :=
  mk_vec3 (x3 a / k) (y3 a / k) (z3 a / k).
Definition vec3_scale (a : vec3) (k : R) : vec3 :=
  mk_vec3 (x3 a * k) (y3 a * k) (z3 a * k).
Definition vec3_zero : vec3 := mk_vec3 0 0 0.

(** [glm::vec3(v)] of a [vec4]: the first three components. *)
Definition vec3_of_vec4 (v : vec4) : vec3 := mk_vec3 (vx v) (vy v) (vz v).
(** [glm::vec4(v, w)]. *)
Definition vec4_of_vec3 (v : vec3) (w : R) : vec4 := mk_vec4 (x3 v) (y3 v) (z3 v) w.

Definition vec4_add (a b : vec4) : vec4 :=
  mk_vec4 (vx a + vx b) (vy a + vy b) (vz a + vz b) (vw a + vw b).
Definition vec4_scale (a : vec4) (k : R) : vec4 :=
  mk_vec4 (vx a * k) (vy a * k) (vz a * k) (vw a * k).

(** [glm::mat4(1.0f)]. *)
Definition mat4_identity : mat4 :=
  mk_mat4 (mk_vec4 1 0 0 0) (mk_vec4 0 1 0 0) (mk_vec4 0 0 1 0) (mk_vec4 0 0 0 1).

(** [m * v]: the linear combination of the columns of [m]. *)
Definition mat4_mul_vec4 (m : mat4) (v : vec4) : vec4 :=
  vec4_add (vec4_add (vec4_add (vec4_scale (col0 m) (vx v)) (vec4_scale (col1 m) (vy v)))
                     (vec4_scale (col2 m) (vz v)))
           (vec4_scale (col3 m) (vw v)).

(** [m1 * m2]: column [j] of the result is [m1 * m2[j]]. *)
Definition mat4_mul (m1 m2 : mat4) : mat4 :=
  mk_mat4 (mat4_mul_vec4 m1 (col0 m2)) (mat4_mul_vec4 m1 (col1 m2))
          (mat4_mul_vec4 m1 (col2 m2)) (mat4_mul_vec4 m1 (col3 m2)).

(** [glm::translate(m, v)]. *)
Definition translate (m : mat4) (v : vec3) : mat4 :=
  mk_mat4 (col0 m) (col1 m) (col2 m)
    (vec4_add (vec4_add (vec4_add (vec4_scale (col0 m) (x3 v)) (vec4_scale (col1 m) (y3 v)))
                        (vec4_scale (col2 m) (z3 v)))
              (col3 m)).

(** [glm::scale(m, v)]. *)
Definition scale (m : mat4) (v : vec3) : mat4 :=
  mk_mat4 (vec4_scale (col0 m) (x3 v)) (vec4_scale (col1 m) (y3 v))
          (vec4_scale (col2 m) (z3 v)) (col3 m).

Definition dot3 (a b : vec3) : R := x3 a * x3 b + y3 a * y3 b + z3 a * z3 b.

(** [glm::normalize(v) = v * inversesqrt(dot(v, v))]. *)
Definition normalize (v : vec3) : vec3 := vec3_scale v (/ sqrt (dot3 v v)).

(** [glm::rotate(m, angle, v)]. *)
Definition rotate (m : mat4) (angle : R) (v : vec3) : mat4 :=
  let c := cos angle in
  let s := sin angle in
  let axis := normalize v in
  let temp := vec3_scale axis (1 - c) in
  let r00 := c + x3 temp * x3 axis in
  let r01 := x3 temp * y3 axis + s * z3 axis in
  let r02 := x3 temp * z3 axis - s * y3 axis in
  let r10 := y3 temp * x3 axis - s * z3 axis in
  let r11 := c + y3 temp * y3 axis in
  let r12 := y3 temp * z3 axis + s * x3 axis in
  let r20 := z3 temp * x3 axis + s * y3 axis in
  let r21 := z3 temp * y3 axis - s * x3 axis in
  let r22 := c + z3 temp * z3 axis in
  mk_mat4
    (vec4_add (vec4_add (vec4_scale (col0 m) r00) (vec4_scale (col1 m) r01)) (vec4_scale (col2 m) r02))
    (vec4_add (vec4_add (vec4_scale (col0 m) r10) (vec4_scale (col1 m) r11)) (vec4_scale (col2 m) r12))
    (vec4_add (vec4_add (vec4_scale (col0 m) r20) (vec4_scale (col1 m) r21)) (vec4_scale (col2 m) r22))
    (col3 m).

(** [glm::radians(degrees)]. *)
Definition radians (degrees : R) : R := degrees * (PI / 180).

End glm.

Import glm.

(** ** Shapes ([shape.hpp], [shape.cpp])

    The OpenGL buffer objects of a shape belong to the renderer and are
    left out; a shape is its two vertex streams, its tag and its level. *)

Inductive ShapeType := SPHERE_SHAPE | CYLINDER_SHAPE | BOX_SHAPE | CONE_SHAPE.

(** The integer value of an enumerator. *)
Definition ShapeType_value (t : ShapeType) : Z :=
  match t with
  | SPHERE_SHAPE => 0
  | CYLINDER_SHAPE => 1
  | BOX_SHAPE => 2
  | CONE_SHAPE => 3
  end%Z.

Record shape_t := mk_shape {
  vertices : list vec4;
  colors : list vec4;
  shapetype : ShapeType;
  level : Z
}.

(** [unsigned int] arithmetic wraps around at [2^32]. *)
Definition u32 (z : Z) : Z := (z mod 2 ^ 32)%Z.

(** [shape_t::shape_t]: the level is clamped to 4. *)
Definition shape_level (tessLevel : Z) : Z :=
  if (4 <? u32 tessLevel)%Z then 4%Z else u32 tessLevel.

(** The divisions of a mesh: [base * (1u << level)], at least [base]. *)
Definition divisions (base lvl : Z) : Z :=
  let d := u32 (base * u32 (Z.shiftl 1 lvl)) in
  if (d <? base)%Z then base else d.

(** Each [push_back] pair of a loop body is one (vertex, colour) entry. *)
Definition sphere_quad (stacks slices : Z) (i j : nat) : list (vec4 * vec4) :=
  let phi1 := PI * INR i / IZR stacks in
  let phi2 := PI * INR (i + 1) / IZR stacks in
  let theta1 := 2 * PI * INR j / IZR slices in
  let theta2 := 2 * PI * INR (j + 1) / IZR slices in
  let p1 := mk_vec4 (sin phi1 * cos theta1) (cos phi1) (sin phi1 * sin theta1) 1 in
  let p2 := mk_vec4 (sin phi2 * cos theta1) (cos phi2) (sin phi2 * sin theta1) 1 in
  let p3 := mk_vec4 (sin phi2 * cos theta2) (cos phi2) (sin phi2 * sin theta2) 1 in
  let p4 := mk_vec4 (sin phi1 * cos theta2) (cos phi1) (sin phi1 * sin theta2) 1 in
  [ (p1, mk_vec4 1 0 0 1); (p2, mk_vec4 0 1 0 1); (p3, mk_vec4 0 0 1 1);
    (p1, mk_vec4 1 0 0 1); (p3, mk_vec4 0 0 1 1); (p4, mk_vec4 1 1 0 1) ].

Definition makeSphere (lvl : Z) : list (vec4 * vec4) :=
  let stacks := divisions 6 lvl in
  let slices := divisions 6 lvl in
  flat_map (fun i => flat_map (fun j => sphere_quad stacks slices i j)
                              (seq 0 (Z.to_nat slices)))
           (seq 0 (Z.to_nat stacks)).

Definition cylinder_side (slices : Z) (height radius : R) (i : nat) : list (vec4 * vec4) :=
  let theta1 := 2 * PI * INR i / IZR slices in
  let theta2 := 2 * PI * INR (i + 1) / IZR slices in
  let p1 := mk_vec4 (radius * cos theta1) (- height / 2) (radius * sin theta1) 1 in
  let p2 := mk_vec4 (radius * cos theta2) (- height / 2) (radius * sin theta2) 1 in
  let p3 := mk_vec4 (radius * cos theta2) (height / 2) (radius * sin theta2) 1 in
  let p4 := mk_vec4 (radius * cos theta1) (height / 2) (radius * sin theta1) 1 in
  [ (p1, mk_vec4 1 0 0 1); (p2, mk_vec4 0 1 0 1); (p3, mk_vec4 0 0 1 1);
    (p1, mk_vec4 1 0 0 1); (p3, mk_vec4 0 0 1 1); (p4, mk_vec4 1 1 0 1) ].

Definition cylinder_caps (slices : Z) (height radius : R) (i : nat) : list (vec4 * vec4) :=
  let centerBottom := mk_vec4 0 (- height / 2) 0 1 in
  let centerTop := mk_vec4 0 (height / 2) 0 1 in
  let t1 := 2 * PI * INR i / IZR slices in
  let t2 := 2 * PI * INR (i + 1) / IZR slices in
  let b1 := mk_vec4 (radius * cos t1) (- height / 2) (radius * sin t1) 1 in
  let b2 := mk_vec4 (radius * cos t2) (- height / 2) (radius * sin t2) 1 in
  let t1v := mk_vec4 (radius * cos t1) (height / 2) (radius * sin t1) 1 in
  let t2v := mk_vec4 (radius * cos t2) (height / 2) (radius * sin t2) 1 in
  [ (centerBottom, mk_vec4 1 0 1 1); (b1, mk_vec4 0 1 1 1); (b2, mk_vec4 1 1 1 1);
    (centerTop, mk_vec4 1 0 1 1); (t2v, mk_vec4 0 1 1 1); (t1v, mk_vec4 1 1 1 1) ].

Definition makeCylinder (lvl : Z) : list (vec4 * vec4) :=
  let slices := divisions 8 lvl in
  let height := 1 in
  let radius := 0.5 in
  flat_map (cylinder_side slices height radius) (seq 0 (Z.to_nat slices))
  ++ flat_map (cylinder_caps slices height radius) (seq 0 (Z.to_nat slices)).

Definition box_pts : list vec4 :=
  let h := 0.5 in
  [ mk_vec4 (- h) (- h) (- h) 1; mk_vec4 h (- h) (- h) 1; mk_vec4 h h (- h) 1; mk_vec4 (- h) h (- h) 1;
    mk_vec4 (- h) (- h) h 1; mk_vec4 h (- h) h 1; mk_vec4 h h h 1; mk_vec4 (- h) h h 1 ].

Definition box_faces : list (nat * nat * nat * nat) :=
  [ (0, 1, 2, 3); (4, 7, 6, 5); (0, 4, 5, 1);
    (2, 6, 7, 3); (0, 3, 7, 4); (1, 5, 6, 2) ]%nat.

Definition box_cols : list vec4 :=
  [ mk_vec4 1 0 0 1; mk_vec4 0 1 0 1; mk_vec4 0 0 1 1;
    mk_vec4 1 1 0 1; mk_vec4 0 1 1 1; mk_vec4 1 0 1 1 ].

Definition box_face (f : nat) : list (vec4 * vec4) :=
  let '(q0, q1, q2, q3) := nth f box_faces (0, 0, 0, 0)%nat in
  let pt k := nth k box_pts (mk_vec4 0 0 0 0) in
  let c := nth f box_cols (mk_vec4 0 0 0 0) in
  [ (pt q0, c); (pt q1, c); (pt q2, c);
    (pt q0, c); (pt q2, c); (pt q3, c) ].

Definition makeBox : list (vec4 * vec4) := flat_map box_face (seq 0 6).

Definition cone_slice (slices : Z) (height radius : R) (i : nat) : list (vec4 * vec4) :=
  let apex := mk_vec4 0 (height / 2) 0 1 in
  let center := mk_vec4 0 (- height / 2) 0 1 in
  let t1 := 2 * PI * INR i / IZR slices in
  let t2 := 2 * PI * INR (i + 1) / IZR slices in
  let b1 := mk_vec4 (radius * cos t1) (- height / 2) (radius * sin t1) 1 in
  let b2 := mk_vec4 (radius * cos t2) (- height / 2) (radius * sin t2) 1 in
  [ (apex, mk_vec4 1 0 0 1); (b1, mk_vec4 0 1 0 1); (b2, mk_vec4 0 0 1 1);
    (center, mk_vec4 1 1 0 1); (b2, mk_vec4 0 1 1 1); (b1, mk_vec4 1 0 1 1) ].

Definition makeCone (lvl : Z) : list (vec4 * vec4) :=
  let slices := divisions 8 lvl in
  let radius := 0.5 in
  let height := 1 in
  flat_map (cone_slice slices height radius) (seq 0 (Z.to_nat slices)).

(** The constructors: clamp the level, tag the shape, build the mesh. *)
Definition build_shape (t : ShapeType) (lvl : Z) (mesh : list (vec4 * vec4)) : shape_t :=
  mk_shape (map fst mesh) (map snd mesh) t lvl.

Definition sphere_t (tessLevel : Z) : shape_t :=
  let lvl := shape_level tessLevel in build_shape SPHERE_SHAPE lvl (makeSphere lvl).
Definition cylinder_t (tessLevel : Z) : shape_t :=
  let lvl := shape_level tessLevel in build_shape CYLINDER_SHAPE lvl (makeCylinder lvl).
Definition box_t (tessLevel : Z) : shape_t :=
  let lvl := shape_level tessLevel in build_shape BOX_SHAPE lvl makeBox.
Definition cone_t (tessLevel : Z) : shape_t :=
  let lvl := shape_level tessLevel in build_shape CONE_SHAPE lvl (makeCone lvl).

(** ** The object store *)

Local Close Scope R_scope.

Abbreviation loc := nat.

(** [struct model_node] ([model.hpp]). *)
Record model_node := mk_node {
  shape : option loc;
  translation : mat4;
  rotation : mat4;
  scale : mat4;
  color : vec4;
  parent : option loc;
  children : list loc
}.

Definition set_translation (m : mat4) (nd : model_node) : model_node :=
  mk_node (shape nd) m (rotation nd) (scale nd) (color nd) (parent nd) (children nd).
Definition set_rotation (m : mat4) (nd : model_node) : model_node :=
  mk_node (shape nd) (translation nd) m (scale nd) (color nd) (parent nd) (children nd).
Definition set_scale (m : mat4) (nd : model_node) : model_node :=
  mk_node (shape nd) (translation nd) (rotation nd) m (color nd) (parent nd) (children nd).
Definition set_color (c : vec4) (nd : model_node) : model_node :=
  mk_node (shape nd) (translation nd) (rotation nd) (scale nd) c (parent nd) (children nd).
Definition set_parent (p : option loc) (nd : model_node) : model_node :=
  mk_node (shape nd) (translation nd) (rotation nd) (scale nd) (color nd) p (children nd).
Definition set_children (cs : list loc) (nd : model_node) : model_node :=
  mk_node (shape nd) (translation nd) (rotation nd) (scale nd) (color nd) (parent nd) cs.

(** The store: the live nodes, the live shapes and the allocation counter. *)
Record store := mk_store {
  nodes : gmap loc model_node;
  shapes : gmap loc shape_t;
  next_loc : loc
}.

Definition set_nodes (h : gmap loc model_node) (σ : store) : store :=
  mk_store h (shapes σ) (next_loc σ).

Definition empty_store : store := mk_store ∅ ∅ 0.

(** [new T(...)] for a shape. *)
Definition new_shape (s : shape_t) (σ : store) : loc * store :=
  (next_loc σ, mk_store (nodes σ) (<[next_loc σ := s]> (shapes σ)) (S (next_loc σ))).

(** [delete s] for a shape; deleting a dead shape is undefined. *)
Definition delete_shape (s : loc) (σ : store) : option store :=
  _ ← shapes σ !! s;
  Some (mk_store (nodes σ) (delete s (shapes σ)) (next_loc σ)).

(** ** Scene nodes ([model.cpp]) *)

(** [std::remove] followed by [erase]: every occurrence of [c] goes. *)
Definition erase_all (c : loc) (l : list loc) : list loc :=
  List.filter (fun x => negb (Nat.eqb x c)) l.

(** [model_node::add_child]. *)
Definition add_child (this c : loc) (σ : store) : option store :=
  td ← nodes σ !! this;
  let h1 := <[this := set_children (children td ++ [c]) td]> (nodes σ) in
  cd ← h1 !! c;
  Some (set_nodes (<[c := set_parent (Some this) cd]> h1) σ).

(** [model_node::remove_child]. *)
Definition remove_child (this c : loc) (σ : store) : option store :=
  td ← nodes σ !! this;
  Some (set_nodes (<[this := set_children (erase_all c (children td)) td]> (nodes σ)) σ).

(** [new model_node(s, p)]: the constructor links the node under [p]. *)
Definition new_model_node (s p : option loc) (σ : store) : option (loc * store) :=
  let this := next_loc σ in
  let nd := mk_node s mat4_identity mat4_identity mat4_identity (mk_vec4 1 1 1 1)%R p [] in
  let σ1 := mk_store (<[this := nd]> (nodes σ)) (shapes σ) (S this) in
  match p with
  | Some q => σ2 ← add_child q this σ1; Some (this, σ2)
  | None => Some (this, σ1)
  end.

(** [model_node::local_matrix]. *)
Definition local_matrix (nd : model_node) : mat4 :=
  mat4_mul (mat4_mul (translation nd) (rotation nd)) (scale nd).

(** [model_node::get_world_matrix]; [fuel] bounds the depth of the
    recursion along the parent links. *)
Fixpoint get_world_matrix_rec (fuel : nat) (h : gmap loc model_node) (this : loc)
  : option mat4 :=
  match fuel with
  | O => None
  | S fuel' =>
      nd ← h !! this;
      match parent nd with
      | Some p =>
          w ← get_world_matrix_rec fuel' h p;
          Some (mat4_mul w (local_matrix nd))
      | None => Some (local_matrix nd)
      end
  end.

Definition get_world_matrix (σ : store) (this : loc) : option mat4 :=
  get_world_matrix_rec (next_loc σ) (nodes σ) this.

(** [model_node::collect]: pushes [this], then the children's subtrees. *)
Fixpoint collect_rec (fuel : nat) (h : gmap loc model_node) (this : loc)
    (out : list loc) : option (list loc) :=
  match fuel with
  | O => None
  | S fuel' =>
      nd ← h !! this;
      foldl (fun acc c => out' ← acc; collect_rec fuel' h c out')
            (Some (out ++ [this])) (children nd)
  end.

Definition collect (σ : store) (this : loc) (out : list loc) : option (list loc) :=
  collect_rec (next_loc σ) (nodes σ) this out.

(** [delete node]: the destructor deletes the children, then the node's
    storage is released. *)
Fixpoint delete_node_rec (fuel : nat) (h : gmap loc model_node) (this : loc)
  : option (gmap loc model_node) :=
  match fuel with
  | O => None
  | S fuel' =>
      nd ← h !! this;
      h' ← foldl (fun acc c => h0 ← acc; delete_node_rec fuel' h0 c)
                 (Some h) (children nd);
      Some (delete this h')
  end.

Definition delete_node (this : loc) (σ : store) : option store :=
  h ← delete_node_rec (next_loc σ) (nodes σ) this;
  Some (set_nodes h σ).

(** ** The model ([class model_t]) *)

Record model_t := mk_model {
  root : loc;
  all_nodes : list loc;
  owned_shapes : list loc
}.

(** [model_t::model_t]. *)
Definition new_model (σ : store) : option (model_t * store) :=
  '(r, σ1) ← new_model_node None None σ;
  Some (mk_model r [r] [], σ1).

(** [for (auto s : owned_shapes) delete s]. *)
Definition delete_shapes (l : list loc) (σ : store) : option store :=
  foldl (fun acc s => σ0 ← acc; delete_shape s σ0) (Some σ) l.

(** [model_t::~model_t]. *)
Definition delete_model (m : model_t) (σ : store) : option store :=
  σ1 ← delete_node (root m) σ;
  delete_shapes (owned_shapes m) σ1.

(** The common body of the four [create_*] members: [s] is the shape the
    member constructs. *)
Definition create_shape (s : shape_t) (parent : option loc) (m : model_t) (σ : store)
  : option (loc * model_t * store) :=
  let parent := match parent with Some p => p | None => root m end in
  let '(sl, σ1) := new_shape s σ in
  let m1 := mk_model (root m) (all_nodes m) (owned_shapes m ++ [sl]) in
  '(node, σ2) ← new_model_node (Some sl) (Some parent) σ1;
  Some (node, mk_model (root m1) (all_nodes m1 ++ [node]) (owned_shapes m1), σ2).

Definition create_sphere (level : Z) (parent : option loc) :=
  create_shape (sphere_t level) parent.
Definition create_cylinder (level : Z) (parent : option loc) :=
  create_shape (cylinder_t level) parent.
Definition create_box (parent : option loc) :=
  create_shape (box_t 0%Z) parent.
Definition create_cone (level : Z) (parent : option loc) :=
  create_shape (cone_t level) parent.

(** [model_t::remove_node]. *)
Definition remove_node (node : option loc) (m : model_t) (σ : store)
  : option (model_t * store) :=
  match node with
  | None => Some (m, σ)
  | Some n =>
      if Nat.eqb n (root m) then Some (m, σ) else
      nd ← nodes σ !! n;
      σ1 ← match parent nd with
           | Some p => remove_child p n σ
           | None => Some σ
           end;
      let all1 := erase_all n (all_nodes m) in
      to_remove ← collect σ1 n [];
      let all2 := foldl (fun acc x => if Nat.eqb x n then acc else erase_all x acc)
                        all1 to_remove in
      σ2 ← delete_node n σ1;
      Some (mk_model (root m) all2 (owned_shapes m), σ2)
  end.

(** ** Formatted stream input and output

    [operator>>] and [operator<<] of the standard streams, for the decimal
    forms of [int] and [float].  The characters of a stream are a
    [list ascii]. *)

Module stream.

(** [std::isspace] in the C locale. *)
Definition is_space (c : ascii) : bool :=
  let n := nat_of_ascii c in
  (n =? 32) || ((9 <=? n) && (n <=? 13)).

Definition is_digit (c : ascii) : bool :=
  let n := nat_of_ascii c in (48 <=? n) && (n <=? 57).

Definition digit_value (c : ascii) : Z := Z.of_nat (nat_of_ascii c - 48).

Fixpoint skip_ws (s : list ascii) : list ascii :=
  match s with
  | c :: s' => if is_space c then skip_ws s' else s
  | [] => []
  end.

(** The longest prefix of digits, and what follows it. *)
Fixpoint span_digits (s : list ascii) : list ascii * list ascii :=
  match s with
  | c :: s' =>
      if is_digit c then let '(ds, rest) := span_digits s' in (c :: ds, rest)
      else ([], s)
  | [] => ([], [])
  end.

Definition digits_value (ds : list ascii) : Z :=
  foldl (fun acc c => (10 * acc + digit_value c)%Z) 0%Z ds.

(** An optional sign: [true] for a minus. *)
Definition read_sign (s : list ascii) : bool * list ascii :=
  match s with
  | "-"%char :: s' => (true, s')
  | "+"%char :: s' => (false, s')
  | _ => (false, s)
  end.

Definition apply_sign (neg : bool) (z : Z) : Z := if neg then (- z)%Z else z.

(** [is >> i] for an [int]: leading white space, an optional sign, at
    least one digit; a value that does not fit an [int] sets the fail bit. *)
Definition read_int (s : list ascii) : option (Z * list ascii) :=
  let '(neg, s1) := read_sign (skip_ws s) in
  let '(ds, s2) := span_digits s1 in
  match ds with
  | [] => None
  | _ =>
      let v := apply_sign neg (digits_value ds) in
      if ((- 2 ^ 31 <=? v) && (v <? 2 ^ 31))%Z then Some (v, s2) else None
  end.

(** The decimal reading of a [float]: leading white space, an optional
    sign, digits with at most one point among them (at least one digit),
    and an optional exponent, which needs a digit of its own.  The result
    is the mantissa and the power of ten. *)
Definition lex_float (s : list ascii) : option (Z * Z * list ascii) :=
  let '(neg, s1) := read_sign (skip_ws s) in
  let '(ip, s2) := span_digits s1 in
  let '(fp, s3) := match s2 with
                   | "."%char :: s2' => span_digits s2'
                   | _ => ([], s2)
                   end in
  match ip ++ fp with
  | [] => None
  | _ =>
      let mant := apply_sign neg (digits_value (ip ++ fp)) in
      let frac := Z.of_nat (length fp) in
      match s3 with
      | c :: s3' =>
          if (Ascii.eqb c "e" || Ascii.eqb c "E")%bool then
            let '(eneg, s4) := read_sign s3' in
            let '(es, s5) := span_digits s4 in
            match es with
            | [] => None
            | _ => Some (mant, (apply_sign eneg (digits_value es) - frac)%Z, s5)
            end
          else Some (mant, (- frac)%Z, s3)
      | [] => Some (mant, (- frac)%Z, s3)
      end
  end.

(** [mant * 10 ^ e] as a real number. *)
Definition decimal_value (mant e : Z) : R :=
  if (0 <=? e)%Z then (IZR mant * IZR (10 ^ e))%R
  else (IZR mant / IZR (10 ^ (- e)))%R.

(** The least magnitude that is too large for a [float]: half a unit in
    the last place above [FLT_MAX = 2^128 - 2^104], from where on the
    nearest [float] is infinite. *)
Definition float_limit : Z := (2 ^ 128 - 2 ^ 103)%Z.

(** Whether [mant * 10 ^ e] is out of the range of a [float]; the test is
    made on integers. *)
Definition float_overflow (mant e : Z) : bool :=
  if (0 <=? e)%Z then (float_limit <=? Z.abs mant * 10 ^ e)%Z
  else (float_limit * 10 ^ (- e) <=? Z.abs mant)%Z.

(** [is >> f] for a [float]: a value that is out of the range of a
    [float] sets the fail bit, as for an [int]; a value too small for a
    [float] does not, it reads as a number next to zero. *)
Definition read_float (s : list ascii) : option (R * list ascii) :=
  '(mant, e, rest) ← lex_float s;
  if float_overflow mant e then None else Some (decimal_value mant e, rest).

(** [os << i] for an [int]. *)
Definition show_int (z : Z) : string :=
  DecimalString.NilZero.string_of_int (Z.to_int z).

End stream.

(** ** Files

    A file system maps the names of the files that can be opened for
    reading to their lines; [writable] tells which names can be opened for
    writing. *)

Record filesystem := mk_fs {
  files : gmap string (list string);
  writable : string -> bool
}.

(** The first index of [p] in [l], as the search loop of [save_to_file]
    finds it; [-1] when there is none. *)
Fixpoint index_of (p : loc) (l : list loc) (j : Z) : Z :=
  match l with
  | [] => (-1)%Z
  | x :: l' => if Nat.eqb x p then j else index_of p l' (j + 1)%Z
  end.

(** One iteration of the output loop of [save_to_file]; [fmt] is the
    stream's formatting of a [float]. *)
Definition save_line (fmt : R -> string) (σ : store) (nodes_ : list loc) (n : loc)
  : option string :=
  nd ← nodes σ !! n;
  let parentIdx := match parent nd with
                   | Some p => index_of p nodes_ 0%Z
                   | None => (-1)%Z
                   end in
  type ← match shape nd with
         | Some sl => sh ← shapes σ !! sl; Some (ShapeType_value (shapetype sh))
         | None => Some (-1)%Z
         end;
  let t := vec3_of_vec4 (col3 (translation nd)) in
  let s := mk_vec3 (vx (col0 (scale nd))) (vy (col1 (scale nd))) (vz (col2 (scale nd))) in
  Some (stream.show_int type ++ " " ++ stream.show_int parentIdx ++ " "
        ++ fmt (x3 t) ++ " " ++ fmt (y3 t) ++ " " ++ fmt (z3 t) ++ " "
        ++ "0 0 0 1 "
        ++ fmt (x3 s) ++ " " ++ fmt (y3 s) ++ " " ++ fmt (z3 s) ++ " "
        ++ fmt (vx (color nd)) ++ " " ++ fmt (vy (color nd)) ++ " " ++ fmt (vz (color nd)))%string.

(** [model_t::save_to_file]. *)
Definition save_to_file (fmt : R -> string) (filename : string) (m : model_t)
    (σ : store) (fs : filesystem) : option (bool * filesystem) :=
  if negb (writable fs filename) then Some (false, fs) else
  nodes_ ← collect σ (root m) [];
  lines ← mapM (save_line fmt σ nodes_) nodes_;
  Some (true, mk_fs (<[filename := lines]> (files fs)) (writable fs)).

(** The extraction [iss >> type >> parentIdx >> tx >> ... >> cb]. *)
Record record_t := mk_record {
  r_type : Z; r_parentIdx : Z;
  r_tx : R; r_ty : R; r_tz : R;
  r_rx : R; r_ry : R; r_rz : R; r_rw : R;
  r_sx : R; r_sy : R; r_sz : R;
  r_cr : R; r_cg : R; r_cb : R
}.

Definition extract_line (line : string) : option record_t :=
  let iss := list_ascii_of_string line in
  '(type, iss) ← stream.read_int iss;
  '(parentIdx, iss) ← stream.read_int iss;
  '(tx, iss) ← stream.read_float iss;
  '(ty, iss) ← stream.read_float iss;
  '(tz, iss) ← stream.read_float iss;
  '(rx, iss) ← stream.read_float iss;
  '(ry, iss) ← stream.read_float iss;
  '(rz, iss) ← stream.read_float iss;
  '(rw, iss) ← stream.read_float iss;
  '(sx, iss) ← stream.read_float iss;
  '(sy, iss) ← stream.read_float iss;
  '(sz, iss) ← stream.read_float iss;
  '(cr, iss) ← stream.read_float iss;
  '(cg, iss) ← stream.read_float iss;
  '(cb, iss) ← stream.read_float iss;
  Some (mk_record type parentIdx tx ty tz rx ry rz rw sx sy sz cr cg cb).

(** The [switch (type)] of [load_from_file]: the shape to construct. *)
Definition shape_of_type (type : Z) : option shape_t :=
  if (type =? ShapeType_value SPHERE_SHAPE)%Z then Some (sphere_t 1)
  else if (type =? ShapeType_value CYLINDER_SHAPE)%Z then Some (cylinder_t 1)
  else if (type =? ShapeType_value BOX_SHAPE)%Z then Some (box_t 0)
  else if (type =? ShapeType_value CONE_SHAPE)%Z then Some (cone_t 1)
  else None.

(** The parent a line names:
    [(parentIdx >= 0 && parentIdx < (int)nodes.size()) ? nodes[parentIdx] : root]. *)
Definition resolve_parent (parentIdx : Z) (nodes_ : list loc) (root_ : loc) : loc :=
  if ((0 <=? parentIdx) && (parentIdx <? Z.of_nat (length nodes_)))%Z
  then nth (Z.to_nat parentIdx) nodes_ root_
  else root_.

(** The state of the input loop of [load_from_file]: the model, the store
    and the local vector [nodes]. *)
Definition load_state : Type := model_t * store * list loc.

(** The body of the loop, after a successful extraction. *)
Definition load_record (r : record_t) (st : load_state) : option load_state :=
  let '(m, σ, nodes_) := st in
  let '(s, m1, σ1) :=
    match shape_of_type (r_type r) with
    | Some sh =>
        let '(sl, σ') := new_shape sh σ in
        (Some sl, mk_model (root m) (all_nodes m) (owned_shapes m ++ [sl]), σ')
    | None => (None, m, σ)
    end in
  let parent := resolve_parent (r_parentIdx r) nodes_ (root m) in
  '(node, σ2) ← new_model_node s (Some parent) σ1;
  nd ← nodes σ2 !! node;
  let nd1 := set_translation (glm.translate mat4_identity (mk_vec3 (r_tx r) (r_ty r) (r_tz r))) nd in
  let nd2 := set_scale (glm.scale mat4_identity (mk_vec3 (r_sx r) (r_sy r) (r_sz r))) nd1 in
  let nd3 := set_color (mk_vec4 (r_cr r) (r_cg r) (r_cb r) 1%R) nd2 in
  let σ3 := set_nodes (<[node := nd3]> (nodes σ2)) σ2 in
  Some (mk_model (root m1) (all_nodes m1 ++ [node]) (owned_shapes m1), σ3, nodes_ ++ [node]).

(** One iteration: a line whose extraction fails is passed over. *)
Definition load_line (line : string) (st : load_state) : option load_state :=
  match extract_line line with
  | None => Some st
  | Some r => load_record r st
  end.

Definition load_lines (lines : list string) (st : load_state) : option load_state :=
  foldl (fun acc line => st' ← acc; load_line line st') (Some st) lines.

(** [model_t::load_from_file]. *)
Definition load_from_file (filename : string) (m : model_t) (σ : store)
    (fs : filesystem) : option (bool * model_t * store) :=
  match files fs !! filename with
  | None => Some (false, m, σ)
  | Some lines =>
      σ1 ← delete_node (root m) σ;
      σ2 ← delete_shapes (owned_shapes m) σ1;
      '(r, σ3) ← new_model_node None None σ2;
      let m1 := mk_model r [r] [] in
      '(m2, σ4, _) ← load_lines lines (m1, σ3, [r]);
      Some (true, m2, σ4)
  end.

(** ** The editor ([main.cpp])

    The global variables of the editor, with the store and the file system
    they live in.  The window, the camera, the shader program and the text
    written to the terminal belong to the rendering and console layer and
    are left out. *)

Inductive AppMode := MODE_NONE | MODE_MODELLING | MODE_INSPECTION.
Inductive TransformMode := TM_NONE | TM_ROT | TM_TRANS | TM_SCALE.

Record app := mk_app {
  app_mode : AppMode;
  trans_mode : TransformMode;
  axis_mode : Z;
  current_model : option model_t;
  current_node : option loc;
  heap : store;
  disk : filesystem
}.

(** The keys the handler looks at.  A key whose branch prompts on the
    terminal carries what the extraction from [cin] yields: the three
    colour channels ([None] when the extraction fails), or a file name. *)
Inductive key :=
  | KEY_ESCAPE | KEY_M | KEY_I
  | KEY_1 | KEY_2 | KEY_3 | KEY_4 | KEY_5
  | KEY_R | KEY_T | KEY_G
  | KEY_X | KEY_Y | KEY_Z
  | KEY_EQUAL | KEY_KP_ADD | KEY_MINUS | KEY_KP_SUBTRACT
  | KEY_C (rgb : option (R * R * R))
  | KEY_S (fname : string)
  | KEY_L (fname : string)
  | KEY_OTHER.

Inductive key_action := PRESS | REPEAT | RELEASE.

(** [centroid += v] over the vertices. *)
Definition sum_vertices (verts : list vec4) : vec3 :=
  foldl (fun centroid v => vec3_add centroid (mk_vec3 (vx v) (vy v) (vz v)))
        vec3_zero verts.

(** [compute_shape_centroid]. *)
Definition compute_shape_centroid (σ : store) (node : option loc) : option vec3 :=
  match node with
  | None => Some vec3_zero
  | Some n =>
      nd ← nodes σ !! n;
      match shape nd with
      | None => Some vec3_zero
      | Some sl =>
          sh ← shapes σ !! sl;
          match vertices sh with
          | [] => Some vec3_zero
          | verts => Some (vec3_div (sum_vertices verts) (INR (length verts)))
          end
      end
  end.

(** One iteration of the loop of [compute_model_centroid]. *)
Definition model_centroid_step (σ : store) (acc : option (vec3 * nat)) (n : loc)
  : option (vec3 * nat) :=
  '(centroid, count) ← acc;
  nd ← nodes σ !! n;
  match shape nd with
  | None => Some (centroid, count)
  | Some sl =>
      sh ← shapes σ !! sl;
      match vertices sh with
      | [] => Some (centroid, count)
      | _ =>
          c ← compute_shape_centroid σ (Some n);
          w ← get_world_matrix σ n;
          let tc := mat4_mul_vec4 w (vec4_of_vec3 c 1%R) in
          Some (vec3_add centroid (vec3_of_vec4 tc), S count)
      end
  end.

(** [compute_model_centroid]. *)
Definition compute_model_centroid (σ : store) (model : option model_t) : option vec3 :=
  match model with
  | None => Some vec3_zero
  | Some m =>
      nodes_ ← collect σ (root m) [];
      '(centroid, count) ← foldl (model_centroid_step σ) (Some (vec3_zero, 0)) nodes_;
      Some (if 0 <? count then vec3_div centroid (INR count) else centroid)
  end.

(** [ensure_model]. *)
Definition ensure_model (a : app) : option app :=
  match current_model a with
  | Some _ => Some a
  | None =>
      '(m, σ) ← new_model (heap a);
      Some (mk_app (app_mode a) (trans_mode a) (axis_mode a) (Some m) None σ (disk a))
  end.

Definition set_current (m : model_t) (node : option loc) (σ : store) (a : app) : app :=
  mk_app (app_mode a) (trans_mode a) (axis_mode a) (Some m) node σ (disk a).

Definition set_heap (σ : store) (a : app) : app :=
  mk_app (app_mode a) (trans_mode a) (axis_mode a) (current_model a) (current_node a) σ (disk a).

(** Keys 1 to 4: [ensure_model] and a [create_*] under the root. *)
Definition add_shape (create : option loc -> model_t -> store -> option (loc * model_t * store))
    (a : app) : option app :=
  a1 ← ensure_model a;
  m ← current_model a1;
  '(node, m', σ) ← create (Some (root m)) m (heap a1);
  Some (set_current m' (Some node) σ a1).

(** The last index of [n] in [alist], [-1] when there is none. *)
Definition last_index_of (n : loc) (alist : list loc) : Z :=
  foldl (fun idx '(i, x) => if Nat.eqb x n then Z.of_nat i else idx)
        (-1)%Z (imap (fun i x => (i, x)) alist).

(** Key 5. *)
Definition remove_current (a : app) : option app :=
  match current_node a, current_model a with
  | Some cur, Some m =>
      if Nat.eqb cur (root m) then Some a else
      let idx := last_index_of cur (all_nodes m) in
      let newcur := if (1 <? idx)%Z then all_nodes m !! Z.to_nat (idx - 1) else None in
      '(m', σ) ← remove_node (Some cur) m (heap a);
      Some (set_current m' newcur σ a)
  | _, _ => Some a
  end.

(** The axis vector of the rotation branches. *)
Definition axis_vector (axis : Z) : option vec3 :=
  if (axis =? 1)%Z then Some (mk_vec3 1 0 0)%R
  else if (axis =? 2)%Z then Some (mk_vec3 0 1 0)%R
  else if (axis =? 3)%Z then Some (mk_vec3 0 0 1)%R
  else None.

(** The rotation branch of the [+] and [-] keys, [degrees] being [10] or
    [-10]. *)
Definition rotate_node (degrees : R) (axis : Z) (n : loc) (σ : store) : option store :=
  let ang := radians degrees in
  cen ← compute_shape_centroid σ (Some n);
  let T1 := glm.translate mat4_identity (vec3_neg cen) in
  let T2 := glm.translate mat4_identity cen in
  nd ← nodes σ !! n;
  match axis_vector axis with
  | Some v =>
      let r := mat4_mul (mat4_mul (mat4_mul T2 (glm.rotate mat4_identity ang v)) T1)
                        (rotation nd) in
      Some (set_nodes (<[n := set_rotation r nd]> (nodes σ)) σ)
  | None => Some σ
  end.

(** The translation branch, [d] being [0.1] or [-0.1]. *)
Definition translate_node (d : R) (axis : Z) (n : loc) (σ : store) : option store :=
  nd ← nodes σ !! n;
  let v := if (axis =? 1)%Z then Some (mk_vec3 d 0 0)%R
           else if (axis =? 2)%Z then Some (mk_vec3 0 d 0)%R
           else if (axis =? 3)%Z then Some (mk_vec3 0 0 d)%R
           else None in
  match v with
  | Some v =>
      Some (set_nodes (<[n := set_translation (glm.translate (translation nd) v) nd]> (nodes σ)) σ)
  | None => Some σ
  end.

(** The scaling branch, [s] being [1.1] or [0.9]. *)
Definition scale_node (s : R) (axis : Z) (n : loc) (σ : store) : option store :=
  let sv := if (axis =? 1)%Z then mk_vec3 s 1 1
            else if (axis =? 2)%Z then mk_vec3 1 s 1
            else if (axis =? 3)%Z then mk_vec3 1 1 s
            else mk_vec3 1 1 1 in
  cen ← compute_shape_centroid σ (Some n);
  let T1 := glm.translate mat4_identity (vec3_neg cen) in
  let T2 := glm.translate mat4_identity cen in
  nd ← nodes σ !! n;
  let m := mat4_mul (mat4_mul (mat4_mul T2 (glm.scale mat4_identity sv)) T1) (scale nd) in
  Some (set_nodes (<[n := set_scale m nd]> (nodes σ)) σ).

(** The [+] and [-] keys in modelling mode. *)
Definition apply_transform (degrees d s : R) (a : app) : option app :=
  match current_node a with
  | None => Some a
  | Some n =>
      match trans_mode a with
      | TM_ROT => σ ← rotate_node degrees (axis_mode a) n (heap a); Some (set_heap σ a)
      | TM_TRANS => σ ← translate_node d (axis_mode a) n (heap a); Some (set_heap σ a)
      | TM_SCALE => σ ← scale_node s (axis_mode a) n (heap a); Some (set_heap σ a)
      | TM_NONE => Some a
      end
  end.

(** The [+] and [-] keys in inspection mode: the root is rotated about
    the centroid of the model. *)
Definition rotate_model (degrees : R) (a : app) : option app :=
  match current_model a with
  | None => Some a
  | Some m =>
      let ang := radians degrees in
      mc ← compute_model_centroid (heap a) (Some m);
      let T1 := glm.translate mat4_identity (vec3_neg mc) in
      let T2 := glm.translate mat4_identity mc in
      nd ← nodes (heap a) !! root m;
      match axis_vector (axis_mode a) with
      | Some v =>
          let r := mat4_mul (mat4_mul (mat4_mul T2 (glm.rotate mat4_identity ang v)) T1)
                            (rotation nd) in
          Some (set_heap (set_nodes (<[root m := set_rotation r nd]> (nodes (heap a))) (heap a)) a)
      | None => Some a
      end
  end.

(** [if (fname.find(".mod") == npos) fname += ".mod"]. *)
Definition with_extension (fname : string) : string :=
  match String.index 0 ".mod" fname with
  | Some _ => fname
  | None => (fname ++ ".mod")%string
  end.

Definition set_app_mode (md : AppMode) (a : app) : app :=
  mk_app md (trans_mode a) (axis_mode a) (current_model a) (current_node a) (heap a) (disk a).
Definition set_trans_mode (tm : TransformMode) (a : app) : app :=
  mk_app (app_mode a) tm (axis_mode a) (current_model a) (current_node a) (heap a) (disk a).
Definition set_axis_mode (ax : Z) (a : app) : app :=
  mk_app (app_mode a) (trans_mode a) ax (current_model a) (current_node a) (heap a) (disk a).

(** Key C, after the prompt. *)
Definition change_color (rgb : option (R * R * R)) (a : app) : option app :=
  match current_node a with
  | None => Some a
  | Some n =>
      match rgb with
      | Some (r, g, b) =>
          nd ← nodes (heap a) !! n;
          Some (set_heap (set_nodes (<[n := set_color (mk_vec4 r g b 1%R) nd]> (nodes (heap a)))
                                    (heap a)) a)
      | None => Some a
      end
  end.

(** Key S, after the prompt. *)
Definition save_model (fmt : R -> string) (fname : string) (a : app) : option app :=
  match current_model a with
  | None => Some a
  | Some m =>
      '(_, fs) ← save_to_file fmt (with_extension fname) m (heap a) (disk a);
      Some (mk_app (app_mode a) (trans_mode a) (axis_mode a) (current_model a)
                   (current_node a) (heap a) fs)
  end.

(** Key L, after the prompt. *)
Definition load_model (fname : string) (a : app) : option app :=
  '(cur, σ0) ← match current_model a with
               | Some m => σ ← delete_model m (heap a); Some (None, σ)
               | None => Some (current_node a, heap a)
               end;
  '(m1, σ1) ← new_model σ0;
  '(ok, m2, σ2) ← load_from_file (with_extension fname) m1 σ1 (disk a);
  if ok : bool then
    let cur' := match last (all_nodes m2) with Some n => Some n | None => cur end in
    Some (mk_app (app_mode a) (trans_mode a) (axis_mode a) (Some m2) cur' σ2 (disk a))
  else
    σ3 ← delete_model m2 σ2;
    Some (mk_app (app_mode a) (trans_mode a) (axis_mode a) None cur σ3 (disk a)).

(** [handle_key]. *)
Definition handle_key (fmt : R -> string) (k : key) (act : key_action) (a : app)
  : option app :=
  match act with
  | RELEASE => Some a
  | _ =>
  match k with
  | KEY_ESCAPE => Some a
  | KEY_M => Some (set_app_mode MODE_MODELLING a)
  | KEY_I => Some (set_app_mode MODE_INSPECTION a)
  | _ =>
  match app_mode a with
  | MODE_MODELLING =>
      match k with
      | KEY_1 => add_shape (create_sphere 1) a
      | KEY_2 => add_shape (create_cylinder 1) a
      | KEY_3 => add_shape create_box a
      | KEY_4 => add_shape (create_cone 1) a
      | KEY_5 => remove_current a
      | KEY_R => Some (set_trans_mode TM_ROT a)
      | KEY_T => Some (set_trans_mode TM_TRANS a)
      | KEY_G => Some (set_trans_mode TM_SCALE a)
      | KEY_X => Some (set_axis_mode 1 a)
      | KEY_Y => Some (set_axis_mode 2 a)
      | KEY_Z => Some (set_axis_mode 3 a)
      | KEY_EQUAL | KEY_KP_ADD => apply_transform 10 0.1 1.1 a
      | KEY_MINUS | KEY_KP_SUBTRACT => apply_transform (-10) (-0.1) 0.9 a
      | KEY_C rgb => change_color rgb a
      | KEY_S fname => save_model fmt fname a
      | _ => Some a
      end
  | MODE_INSPECTION =>
      match k with
      | KEY_L fname => load_model fname a
      | KEY_R => Some (set_trans_mode TM_ROT a)
      | KEY_X => Some (set_axis_mode 1 a)
      | KEY_Y => Some (set_axis_mode 2 a)
      | KEY_Z => Some (set_axis_mode 3 a)
      | KEY_EQUAL | KEY_KP_ADD =>
          match trans_mode a with TM_ROT => rotate_model 10 a | _ => Some a end
      | KEY_MINUS | KEY_KP_SUBTRACT =>
          match trans_mode a with TM_ROT => rotate_model (-10) a | _ => Some a end
      | _ => Some a
      end
  | MODE_NONE => Some a
  end
  end
  end.

(** The state [main] starts the event loop in: [current_model = new model_t()]. *)
Definition initial_app (fs : filesystem) : option app :=
  '(m, σ) ← new_model empty_store;
  Some (mk_app MODE_NONE TM_NONE 0 (Some m) None σ fs).

(** * Specification vocabulary *)

(** ** Reachability along the child links *)

Inductive reach (h : gmap loc model_node) : loc -> loc -> Prop :=
  | reach_refl n : reach h n n
  | reach_step n nd c x :
      h !! n = Some nd -> c ∈ children nd -> reach h c x -> reach h n x.

(** [ds] lists, once each, the nodes below [n]. *)
Definition descendants (h : gmap loc model_node) (n : loc) (ds : list loc) : Prop :=
  NoDup ds /\ forall x, x ∈ ds <-> reach h n x /\ x <> n.

(** The links of a store form a forest below [bound]: a child is live,
    younger than its parent, points back to it, and is listed once. *)
Record tree_heap (h : gmap loc model_node) (bound : loc) : Prop := {
  th_child : forall p pd c, h !! p = Some pd -> c ∈ children pd ->
             p < c /\ c < bound /\ exists cd, h !! c = Some cd /\ parent cd = Some p;
  th_nodup : forall p pd, h !! p = Some pd -> NoDup (children pd)
}.

(** ** Well-formed models

    The registry lists the live nodes once each; the root has no parent and
    every other node hangs in the child list of its parent; the pool lists
    the live shapes once each, and a node's shape is live. *)

Record wf (m : model_t) (σ : store) : Prop := {
  wf_tree : tree_heap (nodes σ) (next_loc σ);
  wf_nodup : NoDup (all_nodes m);
  wf_live : forall n, n ∈ all_nodes m <-> is_Some (nodes σ !! n);
  wf_next : forall n, is_Some (nodes σ !! n) -> n < next_loc σ;
  wf_root : exists rd, nodes σ !! root m = Some rd /\ parent rd = None;
  wf_parent : forall n nd, nodes σ !! n = Some nd -> n <> root m ->
              exists p pd, parent nd = Some p /\ nodes σ !! p = Some pd /\ n ∈ children pd;
  wf_shapes_nodup : NoDup (owned_shapes m);
  wf_shapes_live : forall s, s ∈ owned_shapes m <-> is_Some (shapes σ !! s);
  wf_shapes_next : forall s, is_Some (shapes σ !! s) -> s < next_loc σ;
  wf_node_shape : forall n nd s, nodes σ !! n = Some nd -> shape nd = Some s ->
                  is_Some (shapes σ !! s)
}.

(** The links of a node: what the shape of the graph depends on. *)
Definition links (nd : model_node) : option loc * option loc * list loc :=
  (shape nd, parent nd, children nd).

(** ** The store after the elementary steps *)

(** The node a constructor call builds under [p]. *)
Definition fresh_node (s : option loc) (p : option loc) : model_node :=
  mk_node s mat4_identity mat4_identity mat4_identity (mk_vec4 1 1 1 1)%R p [].

(** The model and the store right after [model_t::model_t] in an empty
    store whose next location is [n]. *)
Definition root_model (n : loc) : model_t := mk_model n [n] [].
Definition root_store (n : loc) : store :=
  mk_store {[ n := fresh_node None None ]} ∅ (S n).

(** The store after [new model_node(s, p)]. *)
Definition attach (s : option loc) (p : loc) (pd : model_node) (σ : store) : store :=
  mk_store (<[next_loc σ := fresh_node s (Some p)]>
              (<[p := set_children (children pd ++ [next_loc σ]) pd]> (nodes σ)))
           (shapes σ) (S (next_loc σ)).

(** The nodes after [remove_child]. *)
Definition detach (p n : loc) (pd : model_node) (h : gmap loc model_node)
  : gmap loc model_node :=
  <[p := set_children (erase_all n (children pd)) pd]> h.

(** The parent a record is attached to. *)
Definition record_parent (r : record_t) (m : model_t) (nodes_ : list loc) : loc :=
  resolve_parent (r_parentIdx r) nodes_ (root m).

(** The node a record is loaded as. *)
Definition record_node (r : record_t) (s : option loc) (p : loc) : model_node :=
  mk_node s (glm.translate mat4_identity (mk_vec3 (r_tx r) (r_ty r) (r_tz r)))
          mat4_identity
          (glm.scale mat4_identity (mk_vec3 (r_sx r) (r_sy r) (r_sz r)))
          (mk_vec4 (r_cr r) (r_cg r) (r_cb r) 1%R) (Some p) [].

(** ** Sequences of operations on a model *)

(** A node pointer handed to the model is null or points to a live node of
    the model. *)
Definition valid_pointer (m : model_t) (p : option loc) : Prop :=
  match p with
  | None => True
  | Some n => n ∈ all_nodes m
  end.

Inductive operation :=
  | op_create_sphere (level : Z) (parent : option loc)
  | op_create_cylinder (level : Z) (parent : option loc)
  | op_create_box (parent : option loc)
  | op_create_cone (level : Z) (parent : option loc)
  | op_remove_node (node : option loc)
  | op_load_from_file (filename : string) (fs : filesystem).

Definition operation_valid (m : model_t) (o : operation) : Prop :=
  match o with
  | op_create_sphere _ p | op_create_cylinder _ p | op_create_box p | op_create_cone _ p =>
      valid_pointer m p
  | op_remove_node n => valid_pointer m n
  | op_load_from_file _ _ => True
  end.

Definition run_operation (o : operation) (m : model_t) (σ : store)
  : option (model_t * store) :=
  match o with
  | op_create_sphere lvl p => '(_, m', σ') ← create_sphere lvl p m σ; Some (m', σ')
  | op_create_cylinder lvl p => '(_, m', σ') ← create_cylinder lvl p m σ; Some (m', σ')
  | op_create_box p => '(_, m', σ') ← create_box p m σ; Some (m', σ')
  | op_create_cone lvl p => '(_, m', σ') ← create_cone lvl p m σ; Some (m', σ')
  | op_remove_node n => remove_node n m σ
  | op_load_from_file filename fs =>
      '(_, m', σ') ← load_from_file filename m σ fs; Some (m', σ')
  end.

(** The models a program builds: a fresh graph, then operations. *)
Inductive built : model_t -> store -> Prop :=
  | built_fresh m σ : new_model empty_store = Some (m, σ) -> built m σ
  | built_step m σ o m' σ' :
      built m σ -> operation_valid m o -> run_operation o m σ = Some (m', σ') ->
      built m' σ'.

(** ** Matrices, entry by entry *)

(** Component [i] of a vector and column [j] of a matrix; [0] outside the
    four-by-four range. *)
Definition vec4_nth (v : vec4) (i : nat) : R :=
  match i with
  | 0 => vx v | 1 => vy v | 2 => vz v | 3 => vw v
  | _ => 0%R
  end.

Definition mat4_col (m : mat4) (j : nat) : vec4 :=
  match j with
  | 0 => col0 m | 1 => col1 m | 2 => col2 m | 3 => col3 m
  | _ => mk_vec4 0 0 0 0
  end.

(** The entry in row [i] and column [j]. *)
Definition entry (m : mat4) (i j : nat) : R := vec4_nth (mat4_col m j) i.

Definition sum4 (f : nat -> R) : R := (f 0%nat + f 1%nat + f 2%nat + f 3%nat)%R.

(** ** Ancestor chains *)

(** [ancestor_chain h l n]: [l] lists the ancestors of [n] from the node
    without parent down to [n] itself. *)
Inductive ancestor_chain (h : gmap loc model_node) : list loc -> loc -> Prop :=
  | chain_top n nd :
      h !! n = Some nd -> parent nd = None -> ancestor_chain h [n] n
  | chain_down l p n nd :
      ancestor_chain h l p -> h !! n = Some nd -> parent nd = Some p ->
      ancestor_chain h (l ++ [n]) n.

(** The product of a sequence of matrices, taken from left to right. *)
Definition chain_product (ms : list mat4) : option mat4 :=
  match ms with
  | [] => None
  | m :: ms' => Some (foldl mat4_mul m ms')
  end.

(** The local matrices of the nodes of a chain. *)
Definition local_matrices (h : gmap loc model_node) (l : list loc) : list mat4 :=
  omap (fun n => local_matrix <$> h !! n) l.

(** ** Pivot rotations *)

(** The matrix a rotation key multiplies the rotation of a node with:
    [translate(pivot) * rotate(angle, axis) * translate(-pivot)]. *)
Definition pivot_rotation (pivot : vec3) (angle : R) (axis : vec3) : mat4 :=
  mat4_mul (mat4_mul (glm.translate mat4_identity pivot)
                     (glm.rotate mat4_identity angle axis))
           (glm.translate mat4_identity (vec3_neg pivot)).

(** The arithmetic mean of the positions of a shape's vertices. *)
Definition vertex_mean (sh : shape_t) : vec3 :=
  vec3_div (sum_vertices (vertices sh)) (INR (length (vertices sh))).

(** The editor in modelling mode, rotating about the Y axis, with a model
    and a selected node. *)
Definition rotating_about_y (m : model_t) (node : loc) (σ : store) (fs : filesystem) : app :=
  mk_app MODE_MODELLING TM_ROT 2 (Some m) (Some node) σ fs.

(** A sequence of key presses. *)
Definition press_keys (fmt : R -> string) (ks : list key) (a : app) : option app :=
  foldl (fun acc k => a' ← acc; handle_key fmt k PRESS a') (Some a) ks.

(** ** Lines of a save file *)

(** The white-space separated fields of a line. *)
Fixpoint split_fields (s : list ascii) (cur : list ascii) : list (list ascii) :=
  match s with
  | [] => match cur with [] => [] | _ => [rev cur] end
  | c :: s' =>
      if stream.is_space c
      then match cur with [] => split_fields s' [] | _ => rev cur :: split_fields s' [] end
      else split_fields s' (c :: cur)
  end.

Definition fields (line : string) : list (list ascii) :=
  split_fields (list_ascii_of_string line) [].

(** What may follow a field: nothing, or a white-space character. *)
Definition field_end (s : list ascii) : Prop :=
  match s with
  | [] => True
  | c :: _ => stream.is_space c = true
  end.

(** A field that reads, as a whole, as an [int] or as a [float]. *)
Definition int_field (f : list ascii) : bool :=
  match stream.read_int f with Some (_, []) => true | _ => false end.
Definition float_field (f : list ascii) : bool :=
  match stream.read_float f with Some (_, []) => true | _ => false end.

(** The format of a line: fifteen fields, two integers and thirteen
    numbers. *)
Definition well_formed_line (line : string) : bool :=
  match fields line with
  | type :: parentIdx :: rest =>
      (length rest =? 13) && int_field type && int_field parentIdx && forallb float_field rest
  | _ => false
  end.

(** A line from which the fifteen values can be extracted. *)
Definition extractable (line : string) : bool :=
  match extract_line line with Some _ => true | None => false end.

(** The file system in which [filename] holds [lines]. *)
Definition with_file (filename : string) (lines : list string) (fs : filesystem)
  : filesystem :=
  mk_fs (<[filename := lines]> (files fs)) (writable fs).

(** Saving a scene to [filename] and loading the file into a fresh graph. *)
Definition save_then_load (fmt : R -> string) (filename : string) (m : model_t)
    (σ : store) (fs : filesystem) : option (bool * model_t * store) :=
  '(_, fs') ← save_to_file fmt filename m σ fs;
  '(m0, σ0) ← new_model empty_store;
  load_from_file filename m0 σ0 fs'.

(** What a line keeps of a node's transform and colour. *)
Definition translation_offset (nd : model_node) : vec3 := vec3_of_vec4 (col3 (translation nd)).
Definition scale_diagonal (nd : model_node) : vec3 :=
  mk_vec3 (vx (col0 (scale nd))) (vy (col1 (scale nd))) (vz (col2 (scale nd))).
Definition color_rgb (nd : model_node) : vec3 := vec3_of_vec4 (color nd).

(** ** Example scenes and files *)

(** A fresh graph with one box under the root. *)
Definition box_scene : option (loc * model_t * store) :=
  '(m, σ) ← new_model empty_store; create_box None m σ.

(** A fresh graph with a box under the root and a second box under the
    first one. *)
Definition two_boxes : option (model_t * store) :=
  '(m, σ) ← new_model empty_store;
  '(b, m, σ) ← create_box None m σ;
  '(_, m, σ) ← create_box (Some b) m σ;
  Some (m, σ).

Definition two_boxes_model : model_t := mk_model 0 [0; 2; 4] [1; 3].
Definition two_boxes_store : store :=
  match two_boxes with Some (_, σ) => σ | None => empty_store end.

(** The lines [save_to_file] writes for the root, for a box under the root
    and for a box whose parent is the node of index 1 of the traversal. *)
Definition root_line : string := "-1 -1 0 0 0 0 0 0 1 1 1 1 1 1 1".
Definition box_line : string := "2 0 0 0 0 0 0 0 1 1 1 1 1 1 1".
Definition inner_box_line : string := "2 1 0 0 0 0 0 0 1 1 1 1 1 1 1".

(** A box line with a sixteenth field. *)
Definition long_line : string := "2 0 0 0 0 0 0 0 1 1 1 1 1 1 1 7".

(** A box line whose parent index names no node, and what the extraction
    reads from it. *)
Definition orphan_line : string := "2 7 0 0 0 0 0 0 1 1 1 1 1 1 1".
Definition orphan_record : record_t :=
  mk_record 2 7 0 0 0 0 0 0 1 1 1 1 1 1 1.

(** A box line whose first number is too large for a [float]. *)
Definition huge_line : string := "2 0 1e39 0 0 0 0 0 1 1 1 1 1 1 1".

(** A file with four lines that cannot be extracted around a box line. *)
Definition noisy_file : list string := ["# scene"; box_line; "2 0 0.5"; huge_line; ""].

(** A formatter that writes [0] and [1] the way the streams do. *)
Definition fmt_bit (x : R) : string := if Req_dec_T x 0 then "0" else "1".

(** A file system without files in which every name can be written, and
    one that holds [noisy_file] under the name [scene.mod]. *)
Definition open_disk : filesystem := mk_fs ∅ (fun _ => true).
Definition noisy_disk : filesystem := with_file "scene.mod" noisy_file open_disk.

(** * Vocabulary of the editor: traversal order, save lines, states, output *)

(** ** Orders of traversal *)

(** [parents_first h seen l]: every node of [l] has its parent in [seen] or
    earlier in [l]. *)
Inductive parents_first (h : gmap loc model_node) : list loc -> list loc -> Prop :=
  | pf_nil seen : parents_first h seen []
  | pf_cons seen x xd p l :
      h !! x = Some xd -> parent xd = Some p -> p ∈ seen ->
      parents_first h (x :: seen) l -> parents_first h seen (x :: l).

(** ** What a line of a save file says about a node *)

(** The type number [save_to_file] writes: [-1] for a node without shape. *)
Definition type_number (σ : store) (nd : model_node) : option Z :=
  match shape nd with
  | Some sl => sh ← shapes σ !! sl; Some (ShapeType_value (shapetype sh))
  | None => Some (-1)%Z
  end.

(** The parent index [save_to_file] writes for a node of the traversal
    [nodes_]. *)
Definition parent_index (nodes_ : list loc) (nd : model_node) : Z :=
  match parent nd with
  | Some p => index_of p nodes_ 0%Z
  | None => (-1)%Z
  end.

(** A formatter whose output [operator>>] reads back, as a whole, as one
    [float]: a number in decimal form within the range of the type. *)
Definition readable (fmt : R -> string) : Prop :=
  forall x, float_field (list_ascii_of_string (fmt x)) = true.

(** The nine numbers [save_to_file] formats for a node: the translation,
    the diagonal of the scale and the colour. *)
Definition saved_numbers (nd : model_node) : list R :=
  [ x3 (translation_offset nd); y3 (translation_offset nd); z3 (translation_offset nd);
    x3 (scale_diagonal nd); y3 (scale_diagonal nd); z3 (scale_diagonal nd);
    vx (color nd); vy (color nd); vz (color nd) ].

(** Every number [save_to_file] writes for the model reads back as one
    [float]. *)
Definition readable_model (fmt : R -> string) (m : model_t) (σ : store) : Prop :=
  forall n nd x, n ∈ all_nodes m -> nodes σ !! n = Some nd -> x ∈ saved_numbers nd ->
    float_field (list_ascii_of_string (fmt x)) = true.

(** ** Affine transforms *)

(** A matrix whose last row is [(0, 0, 0, 1)]: it maps points to points. *)
Definition affine (m : mat4) : Prop :=
  vw (col0 m) = 0%R /\ vw (col1 m) = 0%R /\ vw (col2 m) = 0%R /\ vw (col3 m) = 1%R.

(** Every node of the store has affine transforms. *)
Definition affine_nodes (σ : store) : Prop :=
  forall n nd, nodes σ !! n = Some nd ->
    affine (translation nd) /\ affine (rotation nd) /\ affine (scale nd).

(** The store after a rotation key of inspection mode: the rotation of the
    root [rd] is multiplied on the left by [P]. *)
Definition rotate_root (P : mat4) (m : model_t) (rd : model_node) (σ : store) : store :=
  set_nodes (<[root m := set_rotation (mat4_mul P (rotation rd)) rd]> (nodes σ)) σ.

(** The image under [P] of the sum [s] of [k] points, in homogeneous
    coordinates. *)
Definition apply_point (P : mat4) (s : vec3) (k : nat) : vec3 :=
  vec3_of_vec4 (mat4_mul_vec4 P (vec4_of_vec3 s (INR k))).

(** ** The states of the editor *)

(** A registry in the order of allocation. *)
Definition ascending (l : list loc) : Prop := StronglySorted lt l.

(** The states in which every pointer the editor holds is null or points
    to a live object: the model is well formed, its registry is in the
    order of allocation, the selected node is null or registered, and the
    transforms are affine; without a model nothing is selected and nothing
    is allocated. *)
Definition app_ok (a : app) : Prop :=
  match current_model a with
  | Some m =>
      wf m (heap a) /\ ascending (all_nodes m) /\ valid_pointer m (current_node a) /\
      affine_nodes (heap a)
  | None => current_node a = None /\ nodes (heap a) = ∅ /\ shapes (heap a) = ∅
  end.

(** A sequence of key events, each with its action. *)
Definition handle_events (fmt : R -> string) (evs : list (key * key_action)) (a : app)
  : option app :=
  foldl (fun acc '(k, act) => a' ← acc; handle_key fmt k act a') (Some a) evs.

(** ** What the editor shows ([main.cpp], [model.cpp])

    [draw_scene] and [model_t::debug_print] as the lists of what they
    issue: one draw call for every node that has a shape, one line of text
    for every node.  Every shape constructor sets up the buffers, so
    [shape_t::draw] always reaches [glDrawArrays]. *)

(** [glUniformMatrix4fv(uniform_mvp, ...)], [glUniform4fv(uniform_color, ...)]
    and [glDrawArrays(GL_TRIANGLES, 0, vertices.size())]. *)
Record draw_call := mk_draw {
  uMVP : mat4;
  uColor : vec4;
  draw_count : nat
}.

(** The body of the loop of [draw_scene]. *)
Definition draw_node (proj_matrix view_matrix : mat4) (σ : store) (n : loc)
  : option (list draw_call) :=
  nd ← nodes σ !! n;
  match shape nd with
  | Some sl =>
      model_matrix ← get_world_matrix σ n;
      let mvp := mat4_mul (mat4_mul proj_matrix view_matrix) model_matrix in
      sh ← shapes σ !! sl;
      Some [mk_draw mvp (color nd) (length (vertices sh))]
  | None => Some []
  end.

(** [draw_scene]. *)
Definition draw_scene (shader_program : Z) (proj_matrix view_matrix : mat4) (a : app)
  : option (list draw_call) :=
  match current_model a with
  | None => Some []
  | Some m =>
      if (shader_program =? 0)%Z then Some [] else
      nodes_ ← collect (heap a) (root m) [];
      calls ← mapM (draw_node proj_matrix view_matrix (heap a)) nodes_;
      Some (concat calls)
  end.

(** One line of [debug_print]: the type number and the number of children. *)
Definition debug_line (σ : store) (n : loc) : option (Z * nat) :=
  nd ← nodes σ !! n;
  type ← match shape nd with
         | Some sl => sh ← shapes σ !! sl; Some (ShapeType_value (shapetype sh))
         | None => Some (-1)%Z
         end;
  Some (type, length (children nd)).

(** [model_t::debug_print]. *)
Definition debug_print (m : model_t) (σ : store) : option (list (Z * nat)) :=
  nodes_ ← collect σ (root m) [];
  mapM (debug_line σ) nodes_.

(** ** Example states of the editor *)

(** The editor holding the scene [two_boxes], on a disk without files. *)
Definition two_boxes_app (md : AppMode) (tm : TransformMode) (axis : Z)
    (cur : option loc) : app :=
  mk_app md tm axis (Some two_boxes_model) cur two_boxes_store open_disk.

(** The state after one key press, with the formatter [fmt_bit]. *)
Definition after_key (k : key) (a : app) : app :=
  default a (handle_key fmt_bit k PRESS a).

(** ** Tactics *)

Ltac nsimpl := cbn [children parent shape set_children fresh_node].

(** Call-by-value unfolding of the matrix operations. *)
Ltac mat_norm :=
  cbv [mat4_mul mat4_mul_vec4 vec4_add vec4_scale vec3_scale vec3_neg glm.translate
       glm.rotate glm.scale mat4_identity col0 col1 col2 col3 vx vy vz vw x3 y3 z3].

(** The points of a list of triangles, one after the other. *)
Ltac mesh_points tac :=
  repeat (apply List.Forall_cons; [cbn [fst vx vy vz vw]; tac|]); apply List.Forall_nil.

(** The three conditions of a vertex of a cylinder or a cone. *)
Ltac on_solid circle :=
  split_and!;
  [ first [left; lra | right; lra]
  | first [left; circle | right; split; reflexivity]
  | reflexivity ].

(** * The shape of the graph *)

(** ** Paths in a forest *)

Section Reach.
Context (h : gmap loc model_node) (bound : loc) (Hth : tree_heap h bound).

Lemma reach_trans a b c : reach h a b -> reach h b c -> reach h a c.
  Proof. induction 1; eauto using reach. Qed.

Lemma reach_snoc a p pd c :
    reach h a p -> h !! p = Some pd -> c ∈ children pd -> reach h a c.
  Proof. intros Hr Hp Hc. eapply reach_trans; eauto using reach. Qed.

Lemma reach_le a x : reach h a x -> a <= x.
  Proof.
    induction 1 as [|n nd c x Hn Hc _ IH]; [lia|].
    destruct (th_child _ _ Hth _ _ _ Hn Hc) as (? & _). lia.
  Qed.

Lemma reach_live a x : is_Some (h !! a) -> reach h a x -> is_Some (h !! x).
  Proof.
    intros Ha Hr. induction Hr as [|n nd c x Hn Hc _ IH]; [done|].
    apply IH. destruct (th_child _ _ Hth _ _ _ Hn Hc) as (_ & _ & cd & Hcd & _). eauto.
  Qed.

Lemma reach_bound a x : a < bound -> reach h a x -> x < bound.
  Proof.
    intros Ha Hr. induction Hr as [|n nd c x Hn Hc _ IH]; [done|].
    apply IH. destruct (th_child _ _ Hth _ _ _ Hn Hc) as (_ & ? & _). done.
  Qed.

(** The last link of a path. *)
Lemma reach_last a x :
    reach h a x ->
    x = a \/ exists p xd, h !! x = Some xd /\ parent xd = Some p /\ reach h a p /\ p < x.
  Proof.
    induction 1 as [|n nd c x Hn Hc Hr IH]; [by left|]. right.
    destruct (th_child _ _ Hth _ _ _ Hn Hc) as (Hlt & _ & cd & Hcd & Hpar).
    destruct IH as [->|(p & xd & Hx & Hp & Hrp & Hlt')].
    - exists n, cd. eauto using reach.
    - exists p, xd. eauto using reach.
  Qed.

(** Two nodes above a common descendant lie on one path. *)
Lemma reach_chain x : forall a b, reach h a x -> reach h b x -> reach h a b \/ reach h b a.
  Proof.
    induction x as [x IH] using lt_wf_ind. intros a b Ha Hb.
    destruct (reach_last _ _ Ha) as [->|(p & xd & Hx & Hp & Hrp & Hlt)]; [by right|].
    destruct (reach_last _ _ Hb) as [->|(p' & xd' & Hx' & Hp' & Hrp' & _)]; [by left|].
    rewrite Hx in Hx'. injection Hx' as <-. rewrite Hp in Hp'. injection Hp' as <-.
    eauto.
  Qed.

(** The subtrees of two children of a node are disjoint. *)
Lemma reach_siblings n nd c1 c2 x :
    h !! n = Some nd -> c1 ∈ children nd -> c2 ∈ children nd -> c1 <> c2 ->
    reach h c1 x -> reach h c2 x -> False.
  Proof.
    intros Hn H1 H2 Hne Hr1 Hr2.
    destruct (th_child _ _ Hth _ _ _ Hn H1) as (Hlt1 & _ & cd1 & Hcd1 & Hp1).
    destruct (th_child _ _ Hth _ _ _ Hn H2) as (Hlt2 & _ & cd2 & Hcd2 & Hp2).
    assert (Hside : forall a b ad, a <> b -> n < a -> h !! b = Some ad -> parent ad = Some n ->
                                   reach h a b -> False).
    { intros a b ad Hab Hna Hb Hpb Hr.
      destruct (reach_last _ _ Hr) as [->|(p & xd & Hx & Hp & Hrp & _)]; [done|].
      rewrite Hb in Hx. injection Hx as <-. rewrite Hpb in Hp. injection Hp as <-.
      apply reach_le in Hrp. lia. }
    destruct (reach_chain _ _ _ Hr1 Hr2); eauto.
  Qed.

Lemma reach_children n nd x :
    h !! n = Some nd -> reach h n x <-> x = n \/ exists c, c ∈ children nd /\ reach h c x.
  Proof.
    intros Hn. split.
    - inversion 1 as [|? nd' c ? Hn' Hc Hr]; subst; [by left|]. right.
      rewrite Hn in Hn'. injection Hn' as <-. eauto.
    - intros [->|(c & Hc & Hr)]; eauto using reach.
  Qed.
End Reach.

(** ** Traversal and destruction of a subtree *)

Section Collect.
Context (h : gmap loc model_node) (bound : loc) (Hth : tree_heap h bound).

(** The traversal of the subtrees of a list of siblings. *)
Lemma collect_children fuel n nd :
    h !! n = Some nd ->
    (forall c out, c ∈ children nd ->
       exists l, collect_rec fuel h c out = Some (out ++ l) /\ NoDup l /\
                 forall x, x ∈ l <-> reach h c x) ->
    forall cs out, cs ⊆ children nd -> NoDup cs ->
      exists l, foldl (fun acc c => out' ← acc; collect_rec fuel h c out') (Some out) cs
                = Some (out ++ l) /\ NoDup l /\
                forall x, x ∈ l <-> exists c, c ∈ cs /\ reach h c x.
  Proof.
    intros Hn IH cs. induction cs as [|c cs IHcs]; intros out Hsub Hnd.
    - exists []. rewrite app_nil_r. split_and!; [done|constructor|].
      intros x. split; [by intros ?%elem_of_nil|]. intros (c & ?%elem_of_nil & _). done.
    - apply NoDup_cons in Hnd as [Hc Hnd].
      assert (Hcin : c ∈ children nd) by (apply Hsub; left).
      destruct (IH c out Hcin) as (l1 & E1 & N1 & M1).
      destruct (IHcs (out ++ l1)) as (l2 & E2 & N2 & M2); [by intros y Hy; apply Hsub; right|done|].
      exists (l1 ++ l2). simpl. rewrite E1. rewrite E2, <- app_assoc. split_and!; [done| |].
      + apply NoDup_app. split_and!; [done| |done].
        intros x H1 H2. apply M1 in H1. apply M2 in H2 as (c' & Hc' & H2).
        eapply (reach_siblings h bound Hth n nd c c' x); eauto.
        { apply Hsub. by right. } intros ->. done.
      + intros x. rewrite elem_of_app, M1, M2. split.
        * intros [?|(c' & ? & ?)]; [exists c; split; [left|done] | exists c'; split; [by right|done]].
        * intros (c' & [->|?]%elem_of_cons & ?); eauto.
  Qed.

(** [collect] visits the nodes reachable from its start, each once,
    the start first. *)
Lemma collect_rec_spec fuel : forall n out,
    is_Some (h !! n) -> n < bound -> bound - n <= fuel ->
    exists l, collect_rec fuel h n out = Some (out ++ n :: l) /\ NoDup (n :: l) /\
              forall x, x ∈ n :: l <-> reach h n x.
  Proof.
    induction fuel as [|fuel IH]; intros n out [nd Hn] Hlt Hfuel; [lia|].
    simpl. rewrite Hn. simpl.
    destruct (collect_children fuel n nd Hn) with (cs := children nd) (out := out ++ [n])
      as (l & E & N & M); [|done|by eapply th_nodup|].
    { intros c out' Hc. destruct (th_child _ _ Hth _ _ _ Hn Hc) as (? & ? & cd & ? & _).
      destruct (IH c out') as (l & ? & ? & ?); [eauto|lia|lia|]. eauto. }
    exists l. rewrite E, <- app_assoc. split_and!; [done| |].
    - apply NoDup_cons. split; [|done]. intros (c & Hc & Hr)%M.
      destruct (th_child _ _ Hth _ _ _ Hn Hc) as (? & _). apply (reach_le h bound Hth) in Hr. lia.
    - intros x. rewrite elem_of_cons, M, (reach_children h n nd x Hn). done.
  Qed.

(** The destruction of the subtrees of a list of siblings. *)
Lemma delete_children fuel n nd :
    h !! n = Some nd ->
    (forall c h0, c ∈ children nd -> (forall x, reach h c x -> h0 !! x = h !! x) ->
       exists h', delete_node_rec fuel h0 c = Some h' /\
                  (forall x, reach h c x -> h' !! x = None) /\
                  (forall x, ~ reach h c x -> h' !! x = h0 !! x)) ->
    forall cs h0, cs ⊆ children nd -> NoDup cs ->
      (forall c x, c ∈ cs -> reach h c x -> h0 !! x = h !! x) ->
      exists h', foldl (fun acc c => h1 ← acc; delete_node_rec fuel h1 c) (Some h0) cs = Some h' /\
                 (forall c x, c ∈ cs -> reach h c x -> h' !! x = None) /\
                 (forall x, (forall c, c ∈ cs -> ~ reach h c x) -> h' !! x = h0 !! x).
  Proof.
    intros Hn IH cs. induction cs as [|c cs IHcs]; intros h0 Hsub Hnd Hagree.
    - exists h0. split_and!; [done| |done]. intros c x ?%elem_of_nil. done.
    - apply NoDup_cons in Hnd as [Hc Hnd].
      assert (Hcin : c ∈ children nd) by (apply Hsub; left).
      assert (Hdisj : forall c' x, c' ∈ cs -> reach h c x -> reach h c' x -> False).
      { intros c' x Hc' H1 H2.
        eapply (reach_siblings h bound Hth n nd c c' x); eauto.
        - apply Hsub. by right.
        - intros ->. done. }
      destruct (IH c h0 Hcin) as (h1 & E1 & D1 & K1).
      { intros x Hr. apply (Hagree c); [left|done]. }
      destruct (IHcs h1) as (h2 & E2 & D2 & K2); [by intros y Hy; apply Hsub; right|done| |].
      { intros c' x Hc' Hr. rewrite K1; [|by eauto]. apply (Hagree c'); [by right|done]. }
      exists h2. simpl. rewrite E1. simpl. split_and!; [done| |].
      + intros c' x [->|Hc']%elem_of_cons Hr; [|by eauto].
        rewrite K2; [by auto|]. intros c'' Hc'' Hr'. eauto.
      + intros x Hx. rewrite K2, K1; [done| |].
        * apply Hx. left.
        * intros c' Hc'. apply Hx. by right.
  Qed.

(** [delete] releases exactly the nodes reachable from its argument. *)
Lemma delete_node_rec_spec fuel : forall n h0,
    is_Some (h !! n) -> n < bound -> bound - n <= fuel ->
    (forall x, reach h n x -> h0 !! x = h !! x) ->
    exists h', delete_node_rec fuel h0 n = Some h' /\
               (forall x, reach h n x -> h' !! x = None) /\
               (forall x, ~ reach h n x -> h' !! x = h0 !! x).
  Proof.
    induction fuel as [|fuel IH]; intros n h0 [nd Hn] Hlt Hfuel Hagree; [lia|].
    simpl. rewrite (Hagree n), Hn by constructor. simpl.
    destruct (delete_children fuel n nd Hn) with (cs := children nd) (h0 := h0)
      as (h' & E & D & K); [|done|by eapply th_nodup| |].
    { intros c h1 Hc Hag. destruct (th_child _ _ Hth _ _ _ Hn Hc) as (? & ? & cd & ? & _).
      apply IH; [eauto|lia|lia|done]. }
    { intros c x Hc Hr. apply Hagree. eauto using reach. }
    exists (delete n h'). rewrite E. simpl. split_and!; [done| |].
    - intros x [->|(c & Hc & Hr)]%(reach_children h n nd x Hn).
      + apply lookup_delete_eq.
      + rewrite lookup_delete. case_decide; [done|]. eauto.
    - intros x Hx. rewrite lookup_delete_ne.
      + apply K. intros c Hc Hr. apply Hx. eauto using reach.
      + intros ->. apply Hx. constructor.
  Qed.
End Collect.

(** ** Construction keeps a model well formed *)

Lemma new_model_eq n :
  new_model (mk_store ∅ ∅ n) = Some (root_model n, root_store n).
Proof. unfold new_model, new_model_node. simpl. by rewrite insert_empty. Qed.

Lemma root_wf n : wf (root_model n) (root_store n).
Proof.
  constructor; simpl.
  - constructor.
    + intros p pd c [<- <-]%lookup_singleton_Some. intros ?%elem_of_nil. done.
    + intros p pd [<- <-]%lookup_singleton_Some. constructor.
  - apply NoDup_singleton.
  - intros x. rewrite list_elem_of_singleton. split.
    + intros ->. rewrite lookup_singleton_eq. eauto.
    + intros [xd [? _]%lookup_singleton_Some]. done.
  - intros x [xd [<- _]%lookup_singleton_Some]. lia.
  - eexists. by rewrite lookup_singleton_eq.
  - intros x xd [<- _]%lookup_singleton_Some. done.
  - constructor.
  - intros s. rewrite lookup_empty. split; [by intros ?%elem_of_nil|by intros ?%is_Some_None].
  - intros s. rewrite lookup_empty. by intros ?%is_Some_None.
  - intros x xd s [<- <-]%lookup_singleton_Some. done.
Qed.

Lemma new_shape_wf m σ sh :
  wf m σ ->
  wf (mk_model (root m) (all_nodes m) (owned_shapes m ++ [next_loc σ])) (new_shape sh σ).2.
Proof.
  intros W. pose proof (wf_tree _ _ W) as T. constructor; simpl.
  - constructor.
    + intros p pd c Hp Hc. destruct (th_child _ _ T _ _ _ Hp Hc) as (? & ? & ?). eauto with lia.
    + apply T.
  - apply W.
  - apply W.
  - intros n Hn. apply (wf_next _ _ W) in Hn. lia.
  - apply W.
  - apply W.
  - apply NoDup_app. split_and!; [apply W| |apply NoDup_singleton].
    intros s Hs Heq%list_elem_of_singleton. subst s.
    apply (wf_shapes_live _ _ W), (wf_shapes_next _ _ W) in Hs. lia.
  - intros s. rewrite elem_of_app, list_elem_of_singleton, lookup_insert_is_Some, (wf_shapes_live _ _ W).
    split; [intros [?| ->]|intros [-> |[_ ?]]]; eauto.
    destruct (decide (next_loc σ = s)); eauto.
  - intros s [?|[_ Hs]]%lookup_insert_is_Some; [lia|]. apply (wf_shapes_next _ _ W) in Hs. lia.
  - intros n nd s Hn Hs. rewrite lookup_insert_is_Some.
    destruct (decide (next_loc σ = s)); [by left|].
    right. split; [done|]. eapply wf_node_shape; eauto.
Qed.

Lemma links_lookup (h h' : gmap loc model_node) x nd' :
  (forall y, links <$> h' !! y = links <$> h !! y) -> h' !! x = Some nd' ->
  exists nd, h !! x = Some nd /\ shape nd = shape nd' /\ parent nd = parent nd' /\
             children nd = children nd'.
Proof.
  intros Hl Hx. specialize (Hl x). rewrite Hx in Hl. simpl in Hl.
  destruct (h !! x) as [nd|]; [|done]. injection Hl as E1 E2 E3. eauto.
Qed.

Lemma links_is_Some (h h' : gmap loc model_node) x :
  (forall y, links <$> h' !! y = links <$> h !! y) -> is_Some (h' !! x) <-> is_Some (h !! x).
Proof.
  intros Hl. specialize (Hl x). rewrite <- !(fmap_is_Some links). by rewrite Hl.
Qed.

(** A change of the transform or colour of nodes keeps a model well formed. *)
Lemma wf_same_links m σ σ' :
  wf m σ -> next_loc σ' = next_loc σ -> shapes σ' = shapes σ ->
  (forall y, links <$> nodes σ' !! y = links <$> nodes σ !! y) ->
  wf m σ'.
Proof.
  intros W Hn Hs Hl. pose proof (wf_tree _ _ W) as T. constructor.
  - constructor.
    + intros p pd' c Hp Hc. destruct (links_lookup _ _ _ _ Hl Hp) as (pd & Hp0 & _ & _ & Hch).
      rewrite <- Hch in Hc. destruct (th_child _ _ T _ _ _ Hp0 Hc) as (? & ? & cd & Hcd & Hpar).
      rewrite Hn. split_and!; [done..|].
      pose proof (Hl c) as Hlc. rewrite Hcd in Hlc. simpl in Hlc.
      destruct (nodes σ' !! c) as [cd'|]; [|done]. injection Hlc as _ E _.
      exists cd'. split; [done|congruence].
    + intros p pd' Hp. destruct (links_lookup _ _ _ _ Hl Hp) as (pd & Hp0 & _ & _ & Hch).
      rewrite <- Hch. by eapply th_nodup.
  - apply W.
  - intros n. rewrite (links_is_Some _ _ _ Hl). apply W.
  - intros n. rewrite (links_is_Some _ _ _ Hl), Hn. apply W.
  - destruct (wf_root _ _ W) as (rd & Hr & Hpar).
    pose proof (Hl (root m)) as Hlr. rewrite Hr in Hlr. simpl in Hlr.
    destruct (nodes σ' !! root m) as [rd'|]; [|done]. injection Hlr as _ E _.
    exists rd'. split; [done|congruence].
  - intros n nd' Hnd Hne. destruct (links_lookup _ _ _ _ Hl Hnd) as (nd & Hnd0 & _ & Hpar & _).
    destruct (wf_parent _ _ W _ _ Hnd0 Hne) as (p & pd & Hp & Hpd & Hin).
    pose proof (Hl p) as Hlp. rewrite Hpd in Hlp. simpl in Hlp.
    destruct (nodes σ' !! p) as [pd'|] eqn:Hpd'; [|done]. injection Hlp as _ _ E.
    exists p, pd'. split_and!; [congruence|done|congruence].
  - apply W.
  - intros s. rewrite Hs. apply W.
  - intros s. rewrite Hs, Hn. apply W.
  - intros n nd' s Hnd Hsh. destruct (links_lookup _ _ _ _ Hl Hnd) as (nd & Hnd0 & Hshape & _).
    rewrite Hs. eapply wf_node_shape; eauto. congruence.
Qed.

(** Overwriting a live node with one that has the same links. *)
Lemma wf_update m σ n nd nd' :
  wf m σ -> nodes σ !! n = Some nd -> links nd' = links nd ->
  wf m (set_nodes (<[n := nd']> (nodes σ)) σ).
Proof.
  intros W Hn Hl. apply (wf_same_links m σ); [done..|]. simpl.
  intros y. destruct (decide (n = y)) as [<-|].
  - by rewrite lookup_insert_eq, Hn; simpl; rewrite Hl.
  - by rewrite lookup_insert_ne.
Qed.

Lemma new_model_node_attach s p pd σ :
  nodes σ !! p = Some pd -> p <> next_loc σ ->
  new_model_node s (Some p) σ = Some (next_loc σ, attach s p pd σ).
Proof.
  intros Hp Hne. unfold new_model_node, add_child, attach. simpl.
  rewrite lookup_insert_ne, Hp by done. simpl.
  rewrite lookup_insert_ne, lookup_insert_eq by done. simpl.
  do 3 f_equal. unfold set_nodes, set_parent, fresh_node. simpl. f_equal.
  rewrite (insert_insert_ne (nodes σ)) by done. by rewrite insert_insert_eq.
Qed.


Lemma attach_lookup s p pd σ x :
  nodes (attach s p pd σ) !! x =
    if decide (x = next_loc σ) then Some (fresh_node s (Some p))
    else if decide (x = p) then Some (set_children (children pd ++ [next_loc σ]) pd)
    else nodes σ !! x.
Proof.
  unfold attach. simpl. rewrite !lookup_insert. repeat case_decide; congruence.
Qed.

Lemma attach_wf m σ s p pd :
  wf m σ -> nodes σ !! p = Some pd ->
  (forall sl, s = Some sl -> is_Some (shapes σ !! sl)) ->
  wf (mk_model (root m) (all_nodes m ++ [next_loc σ]) (owned_shapes m)) (attach s p pd σ).
Proof.
  intros W Hp Hs. pose proof (wf_tree _ _ W) as T.
  assert (Hfresh : nodes σ !! next_loc σ = None).
  { destruct (nodes σ !! next_loc σ) eqn:E; [|done].
    assert (next_loc σ < next_loc σ) by (apply (wf_next _ _ W); eauto). lia. }
  assert (Hpn : p < next_loc σ) by (apply (wf_next _ _ W); eauto).
  assert (Hlive : forall x, is_Some (nodes (attach s p pd σ) !! x) <->
                            x = next_loc σ \/ is_Some (nodes σ !! x)).
  { intros x. rewrite attach_lookup.
    destruct (decide (x = next_loc σ)) as [->|]; [split; eauto|].
    destruct (decide (x = p)) as [->|].
    - split; [intros _; right; eauto|eauto].
    - split; [by right|by intros [?|?]]. }
  constructor; cbn [root all_nodes owned_shapes];
    change (next_loc (attach s p pd σ)) with (S (next_loc σ));
    change (shapes (attach s p pd σ)) with (shapes σ).
  - constructor.
    + intros q qd c. rewrite attach_lookup.
      destruct (decide (q = next_loc σ)) as [->|Hq].
      { intros [= <-]. nsimpl. by intros ?%elem_of_nil. }
      assert (Hc0 : forall qd0, nodes σ !! q = Some qd0 -> c ∈ children qd0 ->
                q < c /\ c < S (next_loc σ) /\
                exists cd, nodes (attach s p pd σ) !! c = Some cd /\ parent cd = Some q).
      { intros qd0 Hq0 Hc. destruct (th_child _ _ T _ _ _ Hq0 Hc) as (? & ? & cd & Hcd & Hpar).
        split_and!; [lia..|]. rewrite attach_lookup.
        destruct (decide (c = next_loc σ)); [lia|].
        destruct (decide (c = p)) as [->|]; [|by eauto].
        eexists. split; [done|]. nsimpl. congruence. }
      destruct (decide (q = p)) as [->|Hqp]; [|by eauto].
      intros [= <-]. nsimpl. intros [Hc|Hc%list_elem_of_singleton]%elem_of_app; [by eauto|].
      subst c. split_and!; [lia..|]. rewrite attach_lookup, decide_True by done. eauto.
    + intros q qd. rewrite attach_lookup. repeat case_decide.
      * intros [= <-]. constructor.
      * intros [= <-]. nsimpl. apply NoDup_app. split_and!; [by eapply th_nodup| |apply NoDup_singleton].
        intros c Hc Hc'%list_elem_of_singleton. subst c.
        destruct (th_child _ _ T _ _ _ Hp Hc) as (_ & _ & cd & Hcd & _). congruence.
      * by eapply th_nodup.
  - apply NoDup_app. split_and!; [apply W| |apply NoDup_singleton].
    intros x Hx Hx'%list_elem_of_singleton. subst x.
    apply (wf_live _ _ W) in Hx as [? ?]. congruence.
  - intros n. rewrite Hlive, elem_of_app, list_elem_of_singleton, (wf_live _ _ W). tauto.
  - intros n [->|Hn]%Hlive; [lia|]. apply (wf_next _ _ W) in Hn. lia.
  - destruct (wf_root _ _ W) as (rd & Hr & Hpar). rewrite attach_lookup.
    destruct (decide (root m = next_loc σ)); [congruence|].
    destruct (decide (root m = p)) as [<-|]; [|by eauto].
    eexists. split; [done|]. nsimpl. congruence.
  - intros n nd. rewrite attach_lookup.
    destruct (decide (n = next_loc σ)) as [->|Hn].
    { intros [= <-] _. exists p. eexists. split; [done|].
      rewrite attach_lookup, decide_False, decide_True by lia.
      split; [done|]. nsimpl. apply elem_of_app. right. by left. }
    assert (Hold : forall nd0, nodes σ !! n = Some nd0 -> n <> root m ->
              exists q qd, parent nd0 = Some q /\ nodes (attach s p pd σ) !! q = Some qd /\
                           n ∈ children qd).
    { intros nd0 Hn0 Hne. destruct (wf_parent _ _ W _ _ Hn0 Hne) as (q & qd & Hq & Hqd & Hin).
      exists q. rewrite attach_lookup.
      destruct (decide (q = next_loc σ)); [congruence|].
      destruct (decide (q = p)) as [->|]; [|by eauto].
      eexists. split_and!; [done..|]. nsimpl. apply elem_of_app. left. congruence. }
    destruct (decide (n = p)) as [->|]; [|by eauto].
    intros [= <-] Hne. nsimpl. by apply Hold.
  - apply W.
  - apply W.
  - intros sl Hsl. apply (wf_shapes_next _ _ W) in Hsl. lia.
  - intros n nd sl. rewrite attach_lookup. repeat case_decide.
    + intros [= <-]. nsimpl. auto.
    + intros [= <-]. nsimpl. by eapply wf_node_shape.
    + by eapply wf_node_shape.
Qed.

(** ** Erasing from vectors *)

Lemma erase_all_elem x c l : x ∈ erase_all c l <-> x ∈ l /\ x <> c.
Proof.
  unfold erase_all. rewrite !list_elem_of_In, List.filter_In, Bool.negb_true_iff, Nat.eqb_neq.
  done.
Qed.

Lemma erase_all_nodup c l : NoDup l -> NoDup (erase_all c l).
Proof. rewrite !NoDup_ListNoDup. apply List.NoDup_filter. Qed.

Lemma erase_all_notin c l : c ∉ l -> erase_all c l = l.
Proof.
  induction l as [|x l IH]; [done|]. intros [Hne Hc]%not_elem_of_cons. simpl.
  destruct (Nat.eqb_spec x c); [congruence|]. simpl. by rewrite IH.
Qed.

Lemma erase_all_length c l : NoDup l -> c ∈ l -> S (length (erase_all c l)) = length l.
Proof.
  induction l as [|x l IH]; [by intros _ ?%elem_of_nil|].
  intros [Hx Hnd]%NoDup_cons Hc. simpl. destruct (Nat.eqb_spec x c) as [->|Hne]; simpl.
  - by rewrite erase_all_notin.
  - apply elem_of_cons in Hc as [?|Hc]; [congruence|]. by rewrite IH.
Qed.

(** The loop of [remove_node] over the collected subtree. *)
Lemma erase_loop n : forall l acc,
  n ∉ l -> NoDup l -> NoDup acc -> l ⊆ acc ->
  let r := foldl (fun acc x => if Nat.eqb x n then acc else erase_all x acc) acc l in
  NoDup r /\ (forall x, x ∈ r <-> x ∈ acc /\ x ∉ l) /\ length r + length l = length acc.
Proof.
  induction l as [|c l IH]; intros acc Hn Hl Hacc Hsub; simpl.
  - split_and!; [done| |lia]. intros x. rewrite elem_of_nil. tauto.
  - apply not_elem_of_cons in Hn as [Hnc Hn]. apply NoDup_cons in Hl as [Hc Hl].
    destruct (Nat.eqb_spec c n) as [->|_]; [done|].
    destruct (IH (erase_all c acc)) as (N & M & L); [done|done|by apply erase_all_nodup| |].
    { intros x Hx. apply erase_all_elem. split; [apply Hsub; by right|]. intros ->. done. }
    split_and!; [done| |].
    + intros x. rewrite M, erase_all_elem, not_elem_of_cons. tauto.
    + rewrite <- (erase_all_length c acc); [lia|done|]. apply Hsub. by left.
Qed.

(** ** Removal *)

(** Stores that agree from [a] upwards have the same paths from [a]. *)
Lemma reach_agree (h h' : gmap loc model_node) bound a :
  tree_heap h bound -> (forall y, a <= y -> h' !! y = h !! y) ->
  forall a' x, reach h a' x -> a <= a' -> reach h' a' x.
Proof.
  intros T Hag a' x Hr. induction Hr as [|n nd c x Hn Hc _ IH]; intros Hle; [constructor|].
  destruct (th_child _ _ T _ _ _ Hn Hc) as (? & _).
  eapply reach_step; [by rewrite Hag|done|]. apply IH. lia.
Qed.

Lemma detach_tree h bound p pd n :
  tree_heap h bound -> h !! p = Some pd -> tree_heap (detach p n pd h) bound.
Proof.
  intros T Hp. unfold detach. constructor.
  - intros q qd c Hq Hc.
    assert (exists qd0, h !! q = Some qd0 /\ c ∈ children qd0) as (qd0 & Hq0 & Hc0).
    { apply lookup_insert_Some in Hq as [[<- <-]|[_ Hq]]; [|by eauto].
      apply erase_all_elem in Hc as [Hc _]. eauto. }
    destruct (th_child _ _ T _ _ _ Hq0 Hc0) as (? & ? & cd & Hcd & Hpar).
    split_and!; [done..|]. rewrite lookup_insert. case_decide as E; [|by eauto].
    subst c. eexists. split; [done|]. simpl. congruence.
  - intros q qd [[<- <-]|[_ Hq]]%lookup_insert_Some.
    + simpl. apply erase_all_nodup. by eapply th_nodup.
    + by eapply th_nodup.
Qed.

Lemma remove_node_spec m σ n :
  wf m σ -> n ∈ all_nodes m -> n <> root m ->
  exists nd p pd l m' σ',
    nodes σ !! n = Some nd /\ parent nd = Some p /\ nodes σ !! p = Some pd /\
    n ∈ children pd /\
    remove_node (Some n) m σ = Some (m', σ') /\
    wf m' σ' /\ root m' = root m /\ owned_shapes m' = owned_shapes m /\
    shapes σ' = shapes σ /\ next_loc σ' = next_loc σ /\
    NoDup (n :: l) /\ (forall x, x ∈ n :: l <-> reach (nodes σ) n x) /\
    (forall x, x ∈ all_nodes m' <-> x ∈ all_nodes m /\ ~ reach (nodes σ) n x) /\
    length (all_nodes m') + S (length l) = length (all_nodes m) /\
    nodes σ' !! p = Some (set_children (erase_all n (children pd)) pd) /\
    (forall x, x <> p -> ~ reach (nodes σ) n x -> nodes σ' !! x = nodes σ !! x) /\
    (forall x, reach (nodes σ) n x -> nodes σ' !! x = None).
Proof.
  intros W Hin Hroot. pose proof (wf_tree _ _ W) as T.
  destruct (proj1 (wf_live _ _ W n) Hin) as [nd Hn].
  destruct (wf_parent _ _ W _ _ Hn Hroot) as (p & pd & Hpar & Hp & Hc).
  destruct (th_child _ _ T _ _ _ Hp Hc) as (Hpn & Hnb & _).
  set (h1 := detach p n pd (nodes σ)).
  assert (T1 : tree_heap h1 (next_loc σ)) by by apply detach_tree.
  assert (Hh1 : forall y, y <> p -> h1 !! y = nodes σ !! y).
  { intros y Hy. unfold h1, detach. by rewrite lookup_insert_ne. }
  assert (Hh1p : h1 !! p = Some (set_children (erase_all n (children pd)) pd)).
  { unfold h1, detach. by rewrite lookup_insert_eq. }
  assert (Hreach : forall x, reach h1 n x <-> reach (nodes σ) n x).
  { intros x. split; intros Hr.
    - eapply (reach_agree h1 (nodes σ)); eauto. intros y Hy. symmetry. apply Hh1. lia.
    - eapply (reach_agree (nodes σ) h1); eauto. intros y Hy. apply Hh1. lia. }
  destruct (collect_rec_spec h1 (next_loc σ) T1 (next_loc σ) n [])
    as (l & Ecol & Nl & Ml); [by rewrite Hh1, Hn by lia|done|lia|].
  destruct (delete_node_rec_spec h1 (next_loc σ) T1 (next_loc σ) n h1)
    as (h2 & Edel & Dnone & Dsame); [by rewrite Hh1, Hn by lia|done|lia|done|].
  assert (Hdec : forall x, Decision (reach h1 n x)).
  { intros x. destruct (decide (x ∈ n :: l)) as [Hx|Hx]; [left|right]; by rewrite <- Ml. }
  assert (Hlsub : l ⊆ erase_all n (all_nodes m)).
  { intros x Hx. apply erase_all_elem. apply NoDup_cons in Nl as [Hnl _].
    split; [|intros ->; done]. apply (wf_live _ _ W).
    assert (Hr : reach (nodes σ) n x) by (apply Hreach, Ml; by right).
    apply (reach_live _ _ T n x); [eauto|done]. }
  pose proof Nl as Nl'. apply NoDup_cons in Nl' as [Hnl Nl'].
  destruct (erase_loop n l (erase_all n (all_nodes m)))
    as (Nall & Mall & Lall); [done|done|apply erase_all_nodup, W|done|].
  set (all2 := foldl (fun acc x => if Nat.eqb x n then acc else erase_all x acc)
                     (erase_all n (all_nodes m)) l) in *.
  assert (Hall2 : forall x, x ∈ all2 <-> x ∈ all_nodes m /\ ~ reach (nodes σ) n x).
  { intros x. rewrite Mall, erase_all_elem, <- Hreach, <- Ml, not_elem_of_cons. tauto. }
  assert (Hh2 : forall x, h2 !! x = if decide (reach h1 n x) then None else h1 !! x).
  { intros x. case_decide; [by apply Dnone|by apply Dsame]. }
  exists nd, p, pd, l, (mk_model (root m) all2 (owned_shapes m)), (set_nodes h2 σ).
  assert (Hpnr : ~ reach h1 n p).
  { intros Hr%(reach_le _ _ T1). lia. }
  split_and!; try done.
  - unfold remove_node. destruct (Nat.eqb_spec n (root m)); [done|].
    rewrite Hn. simpl. rewrite Hpar. unfold remove_child. rewrite Hp. simpl.
    unfold collect, delete_node. cbn [nodes next_loc set_nodes].
    change (<[p:=set_children (erase_all n (children pd)) pd]> (nodes σ)) with h1.
    rewrite Ecol. simpl. rewrite Edel, Nat.eqb_refl. reflexivity.
  - constructor; cbn [root all_nodes owned_shapes nodes shapes next_loc set_nodes].
    + constructor.
      * intros q qd c. rewrite Hh2. case_decide as Hq; [done|]. intros Hqd Hc'.
        destruct (th_child _ _ T1 _ _ _ Hqd Hc') as (? & ? & cd & Hcd & Hcp).
        split_and!; [done..|]. exists cd. split; [|done]. rewrite Hh2.
        case_decide as Hrc; [|done]. exfalso.
        destruct (reach_last _ _ T1 _ _ Hrc) as [->|(p' & cd' & Hcd' & Hp' & Hrp' & _)].
        -- rewrite Hh1, Hn in Hcd by lia. injection Hcd as <-.
           rewrite Hpar in Hcp. injection Hcp as <-.
           rewrite Hh1p in Hqd. injection Hqd as <-. simpl in Hc'.
           apply erase_all_elem in Hc'. tauto.
        -- rewrite Hcd in Hcd'. injection Hcd' as <-. congruence.
      * intros q qd. rewrite Hh2. case_decide; [done|]. by eapply th_nodup.
    + done.
    + intros x. rewrite Hall2, Hh2, <- Hreach, (wf_live _ _ W). case_decide as Hx.
      * split; [tauto|]. by intros ?%is_Some_None.
      * destruct (decide (x = p)) as [->|]; [|rewrite Hh1 by done; tauto].
        rewrite Hh1p, Hp. split; eauto.
    + intros x. rewrite Hh2. case_decide; [by intros ?%is_Some_None|].
      intros Hx. apply (wf_next _ _ W). destruct (decide (x = p)) as [->|]; [eauto|].
      by rewrite <- Hh1.
    + destruct (wf_root _ _ W) as (rd & Hr & Hrp). rewrite Hh2. case_decide as Hrr.
      * exfalso. destruct (reach_last _ _ T1 _ _ Hrr) as [?|(p' & rd' & Hrd' & Hp' & _)]; [done|].
        destruct (decide (root m = p)) as [E|E].
        -- rewrite E, Hh1p in Hrd'. injection Hrd' as <-. simpl in Hp'. rewrite E in Hr. congruence.
        -- rewrite Hh1 in Hrd' by done. congruence.
      * destruct (decide (root m = p)) as [E|E].
        -- rewrite E, Hh1p. eexists. split; [done|]. simpl. rewrite E in Hr. congruence.
        -- rewrite Hh1 by done. eauto.
    + intros x xd. rewrite Hh2. case_decide as Hx; [done|]. intros Hxd Hxr.
      assert (exists xd0, nodes σ !! x = Some xd0 /\ parent xd0 = parent xd) as (xd0 & Hxd0 & Hxp).
      { destruct (decide (x = p)) as [->|].
        - rewrite Hh1p in Hxd. injection Hxd as <-. eauto.
        - rewrite Hh1 in Hxd by done. eauto. }
      destruct (wf_parent _ _ W _ _ Hxd0 Hxr) as (q & qd & Hq & Hqd & Hxin).
      assert (Hxn : x <> n) by (intros ->; apply Hx; constructor).
      assert (exists qd1, h1 !! q = Some qd1 /\ x ∈ children qd1) as (qd1 & Hqd1 & Hxin1).
      { destruct (decide (q = p)) as [->|].
        - rewrite Hh1p. eexists. split; [done|]. simpl. apply erase_all_elem.
          rewrite Hp in Hqd. injection Hqd as <-. done.
        - rewrite Hh1 by done. eauto. }
      exists q, qd1. split_and!; [congruence| |done].
      rewrite Hh2. case_decide as Hrq; [|done]. exfalso. apply Hx.
      eapply reach_snoc; eauto.
    + apply W.
    + apply W.
    + apply W.
    + intros x xd s. rewrite Hh2. case_decide; [done|]. intros Hxd Hs.
      destruct (decide (x = p)) as [->|].
      * rewrite Hh1p in Hxd. injection Hxd as <-. simpl in Hs. by eapply wf_node_shape.
      * rewrite Hh1 in Hxd by done. by eapply wf_node_shape.
  - intros x. rewrite Ml. apply Hreach.
  - cbn [all_nodes]. rewrite <- (erase_all_length n (all_nodes m)); [lia|apply W|done].
  - cbn [nodes set_nodes]. rewrite Hh2, decide_False by done. done.
  - intros x Hxp Hx. cbn [nodes set_nodes]. rewrite Hh2, decide_False by by rewrite Hreach.
    by apply Hh1.
  - intros x Hx. cbn [nodes set_nodes]. apply Dnone. by apply Hreach.
Qed.

(** ** Destruction of a model *)

(** In a well-formed model the registry is the set of nodes reachable
    from the root. *)
Lemma wf_reach m σ x :
  wf m σ -> x ∈ all_nodes m <-> reach (nodes σ) (root m) x.
Proof.
  intros W. pose proof (wf_tree _ _ W) as T. rewrite (wf_live _ _ W). split.
  - induction x as [x IH] using lt_wf_ind. intros [xd Hx].
    destruct (decide (x = root m)) as [->|Hne]; [constructor|].
    destruct (wf_parent _ _ W _ _ Hx Hne) as (p & pd & _ & Hp & Hin).
    destruct (th_child _ _ T _ _ _ Hp Hin) as (? & _).
    eapply reach_snoc; [apply IH|..]; eauto.
  - apply (reach_live _ _ T). destruct (wf_root _ _ W) as (rd & -> & _). eauto.
Qed.

(** [delete root] releases every node of a well-formed model. *)
Lemma delete_root m σ :
  wf m σ -> delete_node (root m) σ = Some (set_nodes ∅ σ).
Proof.
  intros W. pose proof (wf_tree _ _ W) as T.
  destruct (wf_root _ _ W) as (rd & Hr & _).
  destruct (delete_node_rec_spec (nodes σ) (next_loc σ) T (next_loc σ) (root m) (nodes σ))
    as (h' & E & Dnone & Dsame); [eauto|apply (wf_next _ _ W); eauto|lia|done|].
  unfold delete_node. rewrite E. simpl. do 2 f_equal. apply map_eq. intros x.
  rewrite lookup_empty. destruct (nodes σ !! x) as [xd|] eqn:Hx.
  - apply Dnone, (wf_reach _ _ _ W), (wf_live _ _ W). eauto.
  - rewrite Dsame; [done|]. intros Hr'%(wf_reach _ _ _ W)%(wf_live _ _ W).
    rewrite Hx in Hr'. by apply is_Some_None in Hr'.
Qed.

Lemma delete_shapes_spec : forall l σ,
  NoDup l -> (forall s, s ∈ l -> is_Some (shapes σ !! s)) ->
  exists sh, delete_shapes l σ = Some (mk_store (nodes σ) sh (next_loc σ)) /\
             forall s, sh !! s = if decide (s ∈ l) then None else shapes σ !! s.
Proof.
  unfold delete_shapes.
  induction l as [|a l IH]; intros σ Hnd Hlive.
  - exists (shapes σ). destruct σ. split; [done|]. intros s. by rewrite decide_False by apply not_elem_of_nil.
  - apply NoDup_cons in Hnd as [Ha Hnd]. simpl. unfold delete_shape at 2.
    destruct (Hlive a) as [sa Hsa]; [by left|]. rewrite Hsa. simpl.
    destruct (IH (mk_store (nodes σ) (delete a (shapes σ)) (next_loc σ)) Hnd) as (sh & E & Hsh).
    { intros s Hs. simpl. rewrite lookup_delete_ne by (intros ->; done). apply Hlive. by right. }
    exists sh. split; [done|]. intros s. rewrite Hsh. simpl.
    destruct (decide (s = a)) as [->|Hne].
    + rewrite decide_False, decide_True by (done || by left). apply lookup_delete_eq.
    + rewrite lookup_delete_ne by done. destruct (decide (s ∈ l)) as [Hs|Hs].
      * rewrite decide_True by (by right). done.
      * rewrite decide_False; [done|]. intros [?|?]%elem_of_cons; done.
Qed.

(** [~model_t] on a well-formed model releases everything. *)
Lemma delete_model_wf m σ :
  wf m σ -> delete_model m σ = Some (mk_store ∅ ∅ (next_loc σ)).
Proof.
  intros W. unfold delete_model. rewrite (delete_root _ _ W). simpl.
  destruct (delete_shapes_spec (owned_shapes m) (set_nodes ∅ σ)) as (sh & E & Hsh).
  { apply W. } { intros s. simpl. apply (wf_shapes_live _ _ W). }
  rewrite E. simpl. do 2 f_equal. apply map_eq. intros s. rewrite Hsh, lookup_empty. simpl.
  case_decide as Hs; [done|]. rewrite (wf_shapes_live _ _ W) in Hs.
  destruct (shapes σ !! s); [|done]. exfalso. eauto.
Qed.

(** ** The input loop of [load_from_file] *)

Lemma record_parent_live r m σ :
  wf m σ -> is_Some (nodes σ !! record_parent r m (all_nodes m)).
Proof.
  intros W. unfold record_parent, resolve_parent.
  destruct (_ && _)%bool eqn:E.
  - apply andb_prop in E as [E1%Z.leb_le E2%Z.ltb_lt].
    apply (wf_live _ _ W), list_elem_of_In, nth_In. lia.
  - destruct (wf_root _ _ W) as (rd & -> & _). eauto.
Qed.

Lemma load_record_spec m σ r :
  wf m σ ->
  exists m' σ' node s pd,
    let p := record_parent r m (all_nodes m) in
    load_record r (m, σ, all_nodes m) = Some (m', σ', all_nodes m') /\
    wf m' σ' /\ root m' = root m /\ all_nodes m' = all_nodes m ++ [node] /\
    nodes σ !! node = None /\ nodes σ !! p = Some pd /\
    nodes σ' !! node = Some (record_node r s p) /\
    nodes σ' !! p = Some (set_children (children pd ++ [node]) pd) /\
    (forall x, x <> node -> x <> p -> nodes σ' !! x = nodes σ !! x) /\
    (s = None <-> shape_of_type (r_type r) = None) /\
    (forall sl, is_Some (shapes σ !! sl) -> shapes σ' !! sl = shapes σ !! sl) /\
    (forall sl, is_Some (shapes σ' !! sl) -> is_Some (shapes σ !! sl) \/ next_loc σ <= sl) /\
    next_loc σ <= node /\ node < next_loc σ'.
Proof.
  intros W.
  destruct (record_parent_live r m σ W) as [pd Hp].
  set (p := record_parent r m (all_nodes m)) in *.
  set (pre := match shape_of_type (r_type r) with
              | Some sh => let '(sl, σ') := new_shape sh σ in
                  (Some sl, mk_model (root m) (all_nodes m) (owned_shapes m ++ [sl]), σ')
              | None => (None, m, σ)
              end).
  assert (exists s m1 σ1, pre = (s, m1, σ1) /\ wf m1 σ1 /\ nodes σ1 = nodes σ /\
            root m1 = root m /\ all_nodes m1 = all_nodes m /\
            (forall sl, s = Some sl -> is_Some (shapes σ1 !! sl)) /\
            (s = None <-> shape_of_type (r_type r) = None) /\
            (forall sl, is_Some (shapes σ !! sl) -> shapes σ1 !! sl = shapes σ !! sl) /\
            (forall sl, is_Some (shapes σ1 !! sl) -> is_Some (shapes σ !! sl) \/ next_loc σ <= sl) /\
            next_loc σ <= next_loc σ1)
    as (s & m1 & σ1 & Epre & W1 & Hn1 & Hr1 & Ha1 & Hs1 & Hsn & Hold & Hnew & Hnext).
  { unfold pre. destruct (shape_of_type (r_type r)) as [sh|].
    - eexists _, _, _. split; [reflexivity|]. split_and!; try done.
      + by apply new_shape_wf.
      + intros sl [= <-]. simpl. rewrite lookup_insert_eq. eauto.
      + intros sl Hsl. simpl. rewrite lookup_insert_ne; [done|].
        apply (wf_shapes_next _ _ W) in Hsl. lia.
      + intros sl Hsl. simpl in Hsl.
        apply lookup_insert_is_Some in Hsl as [<-|[_ ?]]; [right; lia|by left].
      + simpl. lia.
    - eexists _, _, _. split; [reflexivity|]. split_and!; try done. by left. }
  assert (Hp1 : nodes σ1 !! p = Some pd) by by rewrite Hn1.
  assert (Hpn : p <> next_loc σ1).
  { assert (p < next_loc σ1) by (apply (wf_next _ _ W1); eauto). lia. }
  pose proof (attach_wf m1 σ1 s p pd W1 Hp1 Hs1) as W2.
  set (node := next_loc σ1) in *.
  set (σ2 := attach s p pd σ1) in *.
  assert (Hnode2 : nodes σ2 !! node = Some (fresh_node s (Some p))).
  { unfold σ2. by rewrite attach_lookup, decide_True. }
  set (σ3 := set_nodes (<[node := record_node r s p]> (nodes σ2)) σ2).
  assert (W3 : wf (mk_model (root m1) (all_nodes m1 ++ [node]) (owned_shapes m1)) σ3).
  { eapply wf_update; eauto. }
  assert (Hfresh : nodes σ !! node = None).
  { destruct (nodes σ !! node) eqn:E; [|done].
    assert (node < next_loc σ1) by (apply (wf_next _ _ W1); rewrite Hn1; eauto).
    unfold node in *. lia. }
  exists (mk_model (root m1) (all_nodes m1 ++ [node]) (owned_shapes m1)), σ3, node, s, pd.
  cbn zeta. split_and!.
  - unfold load_record. fold pre. rewrite Epre. fold (record_parent r m (all_nodes m)). fold p.
    rewrite (new_model_node_attach s p pd σ1 Hp1 Hpn). cbn [mbind option_bind].
    fold node σ2. rewrite Hnode2. cbn [mbind option_bind all_nodes]. rewrite Ha1. reflexivity.
  - done.
  - done.
  - cbn [all_nodes]. by rewrite Ha1.
  - done.
  - done.
  - unfold σ3. cbn [nodes set_nodes]. by rewrite lookup_insert_eq.
  - unfold σ3. cbn [nodes set_nodes]. rewrite lookup_insert_ne by done.
    unfold σ2. by rewrite attach_lookup, decide_False, decide_True.
  - intros x Hx1 Hx2. unfold σ3. cbn [nodes set_nodes]. rewrite lookup_insert_ne by done.
    unfold σ2. by rewrite attach_lookup, !decide_False, Hn1.
  - done.
  - done.
  - done.
  - done.
  - unfold σ3, σ2, node. simpl. lia.
Qed.

Lemma load_line_wf m σ line :
  wf m σ ->
  exists m' σ', load_line line (m, σ, all_nodes m) = Some (m', σ', all_nodes m') /\
    wf m' σ' /\ root m' = root m /\
    (forall sl, is_Some (shapes σ !! sl) -> shapes σ' !! sl = shapes σ !! sl) /\
    (forall sl, is_Some (shapes σ' !! sl) -> is_Some (shapes σ !! sl) \/ next_loc σ <= sl) /\
    next_loc σ <= next_loc σ'.
Proof.
  intros W. unfold load_line. destruct (extract_line line) as [r|].
  - destruct (load_record_spec m σ r W)
      as (m' & σ' & node & s & pd & E & W' & Hr & _ & _ & _ & _ & _ & _ & _ & Hs & Hnew & ? & ?).
    exists m', σ'. split_and!; [done..|lia].
  - exists m, σ. split_and!; try done. by left.
Qed.

Lemma load_lines_wf lines : forall m σ,
  wf m σ ->
  exists m' σ', load_lines lines (m, σ, all_nodes m) = Some (m', σ', all_nodes m') /\
    wf m' σ' /\ root m' = root m /\
    (forall sl, is_Some (shapes σ !! sl) -> shapes σ' !! sl = shapes σ !! sl) /\
    (forall sl, is_Some (shapes σ' !! sl) -> is_Some (shapes σ !! sl) \/ next_loc σ <= sl) /\
    next_loc σ <= next_loc σ'.
Proof.
  unfold load_lines. induction lines as [|line lines IH]; intros m σ W.
  - exists m, σ. split_and!; try done. by left.
  - destruct (load_line_wf m σ line W) as (m1 & σ1 & E1 & W1 & Hr1 & Hs1 & Hn1 & Hx1).
    destruct (IH m1 σ1 W1) as (m2 & σ2 & E2 & W2 & Hr2 & Hs2 & Hn2 & Hx2).
    exists m2, σ2. simpl. rewrite E1. split_and!; [done|done|congruence| | |lia].
    + intros sl Hsl. rewrite Hs2; [by apply Hs1|]. rewrite Hs1; done.
    + intros sl [Hsl|Hsl]%Hn2; [|right; lia]. by apply Hn1.
Qed.

(** [load_from_file] on a well-formed model: it returns, and the model it
    leaves is well formed. *)
Lemma load_from_file_wf filename m σ fs :
  wf m σ ->
  match files fs !! filename with
  | None => load_from_file filename m σ fs = Some (false, m, σ)
  | Some lines =>
      exists m' σ', load_from_file filename m σ fs = Some (true, m', σ') /\ wf m' σ' /\
        load_lines lines (root_model (next_loc σ), root_store (next_loc σ), [next_loc σ])
        = Some (m', σ', all_nodes m') /\
        (forall s, s ∈ owned_shapes m -> shapes σ' !! s = None)
  end.
Proof.
  intros W. unfold load_from_file. destruct (files fs !! filename) as [lines|]; [|done].
  rewrite (delete_root _ _ W). cbn [mbind option_bind].
  destruct (delete_shapes_spec (owned_shapes m) (set_nodes ∅ σ)) as (sh & E & Hsh).
  { apply W. } { intros s. simpl. apply (wf_shapes_live _ _ W). }
  assert (sh = ∅) as ->.
  { apply map_eq. intros s. rewrite Hsh, lookup_empty. simpl.
    case_decide as Hs; [done|].
    destruct (shapes σ !! s) eqn:Es; [|done]. exfalso.
    apply Hs, (wf_shapes_live _ _ W). eauto. }
  rewrite E. cbn [mbind option_bind nodes next_loc set_nodes].
  unfold new_model_node. cbn [mbind option_bind next_loc nodes shapes]. rewrite insert_empty.
  change (mk_store {[ next_loc σ := _ ]} ∅ (S (next_loc σ))) with (root_store (next_loc σ)).
  destruct (load_lines_wf lines _ _ (root_wf (next_loc σ)))
    as (m' & σ' & E' & W' & Hr' & Hs' & Hn' & Hx').
  cbn [all_nodes root_model] in E'.
  change (mk_model (next_loc σ) [next_loc σ] []) with (root_model (next_loc σ)).
  unfold root_model in *. rewrite E'.
  cbn [mbind option_bind].
  exists m', σ'. split_and!; [done..|].
  intros s Hs. apply (wf_shapes_live _ _ W), (wf_shapes_next _ _ W) in Hs.
  destruct (shapes σ' !! s) eqn:Es; [|done]. exfalso.
  destruct (Hn' s) as [Hc|Hc]; [eauto| |].
  - simpl in Hc. rewrite lookup_empty in Hc. by apply is_Some_None in Hc.
  - simpl in Hc. lia.
Qed.

(** * Transform composition *)

Lemma mat4_mul_entry (a b : mat4) (i j : nat) :
  entry (mat4_mul a b) i j = sum4 (fun k => (entry a i k * entry b k j)%R).
Proof.
  destruct a as [[] [] [] []], b as [[] [] [] []].
  do 4 (try destruct i as [|i]); do 4 (try destruct j as [|j]);
    unfold entry, sum4; simpl; ring.
Qed.

(** C3: the local matrix of a node is the product translation * rotation *
    scale, in this order; entry by entry it is the textbook triple product. *)
Theorem local_matrix_translation_rotation_scale (nd : model_node) :
  local_matrix nd = mat4_mul (mat4_mul (translation nd) (rotation nd)) (scale nd) /\
  forall i j, entry (local_matrix nd) i j =
    sum4 (fun k => sum4 (fun l =>
      (entry (translation nd) i k * entry (rotation nd) k l * entry (scale nd) l j)%R)).
Proof.
  split; [reflexivity|]. intros i j. unfold local_matrix.
  rewrite mat4_mul_entry. unfold sum4 at 1. rewrite !mat4_mul_entry. unfold sum4. ring.
Qed.

Lemma local_matrices_snoc h l n nd :
  h !! n = Some nd -> local_matrices h (l ++ [n]) = local_matrices h l ++ [local_matrix nd].
Proof. intros Hn. unfold local_matrices. rewrite omap_app. simpl. by rewrite Hn. Qed.

Lemma chain_product_snoc ms m w :
  chain_product ms = Some w -> chain_product (ms ++ [m]) = Some (mat4_mul w m).
Proof.
  destruct ms as [|m0 ms]; [done|]. simpl. intros [= <-]. by rewrite foldl_app.
Qed.

(** Along a chain, the recursion of [get_world_matrix] multiplies the
    local matrices from the top down. *)
Lemma world_matrix_chain h l n :
  ancestor_chain h l n ->
  exists w, chain_product (local_matrices h l) = Some w /\
            forall fuel, length l <= fuel -> get_world_matrix_rec fuel h n = Some w.
Proof.
  induction 1 as [n nd Hn Hp|l p n nd _ (w & Hw & IH) Hn Hp].
  - exists (local_matrix nd). unfold local_matrices. simpl. rewrite Hn. split; [done|].
    intros [|fuel] Hf; [simpl in Hf; lia|]. simpl. rewrite Hn. simpl. by rewrite Hp.
  - exists (mat4_mul w (local_matrix nd)). split.
    + rewrite (local_matrices_snoc _ _ _ _ Hn). by apply chain_product_snoc.
    + intros [|fuel] Hf; [rewrite length_app in Hf; simpl in Hf; lia|].
      simpl. rewrite Hn. simpl. rewrite Hp, IH; [done|].
      rewrite length_app in Hf. simpl in Hf. lia.
Qed.

(** Every node of a well-formed model has a chain that starts at the root. *)
Lemma wf_chain m σ : wf m σ -> forall n, n ∈ all_nodes m ->
  exists l, ancestor_chain (nodes σ) l n /\ head l = Some (root m) /\ length l <= S n.
Proof.
  intros W. pose proof (wf_tree _ _ W) as T.
  induction n as [n IH] using lt_wf_ind. intros [nd Hn]%(wf_live _ _ W).
  destruct (decide (n = root m)) as [->|Hne].
  - destruct (wf_root _ _ W) as (rd & Hr & Hp). exists [root m].
    split_and!; [by econstructor|done|simpl; lia].
  - destruct (wf_parent _ _ W _ _ Hn Hne) as (p & pd & Hp & Hpd & Hin).
    destruct (th_child _ _ T _ _ _ Hpd Hin) as (Hlt & _).
    destruct (IH p Hlt) as (l & Hl & Hh & Hlen); [apply (wf_live _ _ W); eauto|].
    exists (l ++ [n]). split_and!; [by econstructor| |rewrite length_app; simpl; lia].
    destruct l; [done|]. done.
Qed.

(** C2: the world matrix of a node is the left-to-right product of the
    local matrices of its ancestor chain, from the root down to the node;
    a node without parent has its own local matrix as world matrix. *)
Theorem world_matrix_is_chain_product (m : model_t) (σ : store) (n : loc) :
  wf m σ -> n ∈ all_nodes m ->
  (exists l, ancestor_chain (nodes σ) l n /\ head l = Some (root m) /\
             length (local_matrices (nodes σ) l) = length l /\
             is_Some (get_world_matrix σ n) /\
             get_world_matrix σ n = chain_product (local_matrices (nodes σ) l)) /\
  (forall nd, nodes σ !! n = Some nd -> parent nd = None ->
              get_world_matrix σ n = Some (local_matrix nd)).
Proof.
  intros W Hin. pose proof (wf_next _ _ W n) as Hnext.
  rewrite <- (wf_live _ _ W) in Hnext. specialize (Hnext Hin). split.
  - destruct (wf_chain _ _ W n Hin) as (l & Hl & Hh & Hlen).
    destruct (world_matrix_chain _ _ _ Hl) as (w & Hw & Hfuel).
    exists l. unfold get_world_matrix. rewrite Hfuel, Hw by lia.
    split_and!; [done|done| |by eauto|done].
    clear -Hl. induction Hl as [n nd Hn Hp|l p n nd _ IH Hn Hp].
    + unfold local_matrices. simpl. by rewrite Hn.
    + rewrite (local_matrices_snoc _ _ _ _ Hn), !length_app, IH. done.
  - intros nd Hn Hp. unfold get_world_matrix.
    destruct (next_loc σ) as [|k]; [lia|]. simpl. rewrite Hn. simpl. by rewrite Hp.
Qed.

(** * The registry and the tree *)

Lemma create_shape_spec sh p m σ :
  wf m σ -> valid_pointer m p ->
  exists node m' σ',
    create_shape sh p m σ = Some (node, m', σ') /\ wf m' σ' /\
    root m' = root m /\ all_nodes m' = all_nodes m ++ [node] /\ (node ∉ all_nodes m) /\
    owned_shapes m' = owned_shapes m ++ [next_loc σ] /\
    shapes σ' = <[next_loc σ := sh]> (shapes σ) /\
    nodes σ' !! node = Some (fresh_node (Some (next_loc σ)) (Some (default (root m) p))).
Proof.
  intros W Hp. unfold create_shape.
  set (q := match p with Some p0 => p0 | None => root m end).
  assert (Hq : q ∈ all_nodes m).
  { unfold q. destruct p; [done|]. apply (wf_live _ _ W).
    destruct (wf_root _ _ W) as (rd & -> & _). eauto. }
  pose proof (new_shape_wf m σ sh W) as W1.
  destruct (new_shape sh σ) as [sl σ1] eqn:E1. unfold new_shape in E1.
  injection E1 as <- <-. simpl in W1.
  set (σ1 := mk_store (nodes σ) (<[next_loc σ:=sh]> (shapes σ)) (S (next_loc σ))) in *.
  set (m1 := mk_model (root m) (all_nodes m) (owned_shapes m ++ [next_loc σ])) in *.
  apply (wf_live _ _ W) in Hq as [qd Hqd].
  assert (Hqn : q <> next_loc σ1).
  { assert (q < next_loc σ) by (apply (wf_next _ _ W); eauto). simpl. lia. }
  rewrite (new_model_node_attach _ q qd σ1 Hqd Hqn). cbn [mbind option_bind].
  eexists _, _, _. split; [reflexivity|]. split_and!.
  - apply (attach_wf m1 σ1); [done|done|].
    intros sl [= <-]. simpl. rewrite lookup_insert_eq. eauto.
  - done.
  - done.
  - intros Hin. apply (wf_live _ _ W), (wf_next _ _ W) in Hin. simpl in Hin. lia.
  - done.
  - done.
  - rewrite attach_lookup, decide_True by done. unfold q. by destruct p.
Qed.

Lemma run_operation_wf o m σ :
  wf m σ -> operation_valid m o ->
  exists m' σ', run_operation o m σ = Some (m', σ') /\ wf m' σ'.
Proof.
  intros W Hv.
  assert (Hcreate : forall sh p, valid_pointer m p ->
            exists m' σ', ('(_, m', σ') ← create_shape sh p m σ; Some (m', σ')) = Some (m', σ')
                          /\ wf m' σ').
  { intros sh p Hp. destruct (create_shape_spec sh p m σ W Hp) as (node & m' & σ' & E & W' & _).
    exists m', σ'. by rewrite E. }
  destruct o as [lvl p|lvl p|p|lvl p|n|filename fs]; simpl in *.
  - by apply Hcreate.
  - by apply Hcreate.
  - by apply Hcreate.
  - by apply Hcreate.
  - destruct n as [n|]; [|by eauto]. unfold valid_pointer in Hv.
    destruct (decide (n = root m)) as [->|Hne].
    { exists m, σ. unfold remove_node. by rewrite Nat.eqb_refl. }
    destruct (remove_node_spec m σ n W Hv Hne)
      as (nd & p & pd & l & m' & σ' & _ & _ & _ & _ & E & W' & _). eauto.
  - pose proof (load_from_file_wf filename m σ fs W) as H.
    destruct (files fs !! filename).
    + destruct H as (m' & σ' & E & W' & _). exists m', σ'. by rewrite E.
    + exists m, σ. by rewrite H.
Qed.

Lemma built_wf m σ : built m σ -> wf m σ.
Proof.
  induction 1 as [m σ E|m σ o m' σ' _ IH Hv E].
  - change empty_store with (mk_store ∅ ∅ 0) in E. rewrite new_model_eq in E.
    injection E as <- <-. apply root_wf.
  - destruct (run_operation_wf o m σ IH Hv) as (m2 & σ2 & E2 & W2). congruence.
Qed.

(** C6: after any sequence of create, remove and load operations on a
    fresh graph, the registry lists exactly the nodes reachable from the
    root, each of them once; and every further operation returns. *)
Theorem registry_is_reachable_set (m : model_t) (σ : store) :
  built m σ ->
  NoDup (all_nodes m) /\
  (forall x, x ∈ all_nodes m <-> reach (nodes σ) (root m) x) /\
  (forall o, operation_valid m o -> exists m' σ', run_operation o m σ = Some (m', σ')).
Proof.
  intros W%built_wf. split_and!.
  - apply W.
  - intros x. by apply wf_reach.
  - intros o Hv. destruct (run_operation_wf o m σ W Hv) as (m' & σ' & E & _). eauto.
Qed.

Lemma descendants_length h n l ds :
  NoDup (n :: l) -> (forall x, x ∈ n :: l <-> reach h n x) -> descendants h n ds ->
  length ds = length l /\ forall x, x ∈ ds <-> x ∈ l.
Proof.
  intros [Hn Hl]%NoDup_cons Hr [Hd Hds].
  assert (Heq : forall x, x ∈ ds <-> x ∈ l).
  { intros x. rewrite Hds, <- Hr, elem_of_cons. split.
    - intros [[?|?] ?]; done.
    - intros Hx. split; [by right|]. intros ->. done. }
  split; [|done]. apply Permutation_length, NoDup_Permutation; done.
Qed.

(** C5: [remove_node] does nothing for the null pointer and for the root;
    for another node [n] with [K] descendants it takes [n] out of its
    parent's children, whose number drops by one, and takes [n] and its
    descendants out of the registry, whose size drops by [K + 1]. *)
Theorem remove_node_effect (m : model_t) (σ : store) :
  wf m σ ->
  remove_node None m σ = Some (m, σ) /\
  remove_node (Some (root m)) m σ = Some (m, σ) /\
  forall n ds, n ∈ all_nodes m -> n <> root m -> descendants (nodes σ) n ds ->
    exists m' σ' nd p pd pd',
      remove_node (Some n) m σ = Some (m', σ') /\
      nodes σ !! n = Some nd /\ parent nd = Some p /\
      nodes σ !! p = Some pd /\ nodes σ' !! p = Some pd' /\
      n ∈ children pd /\ children pd' = erase_all n (children pd) /\
      length (children pd) = S (length (children pd')) /\
      length (all_nodes m) = length (all_nodes m') + (length ds + 1) /\
      (forall x, x ∈ all_nodes m' <-> x ∈ all_nodes m /\ x <> n /\ x ∉ ds).
Proof.
  intros W. split_and!.
  - done.
  - unfold remove_node. by rewrite Nat.eqb_refl.
  - intros n ds Hin Hne Hds.
    destruct (remove_node_spec m σ n W Hin Hne)
      as (nd & p & pd & l & m' & σ' & Hn & Hp & Hpd & Hc & E & W' & _ & _ & _ & _ &
          Nl & Ml & Hall & Hlen & Hp' & _ & _).
    destruct (descendants_length _ _ _ _ Nl Ml Hds) as [Hk Hmem].
    exists m', σ', nd, p, pd, (set_children (erase_all n (children pd)) pd).
    split_and!; try done.
    + simpl. symmetry. apply erase_all_length; [|done].
      by eapply th_nodup; [apply W|].
    + lia.
    + intros x. rewrite Hall, <- Ml, not_elem_of_cons, Hmem. tauto.
Qed.

Lemma shapes_delete_node n σ σ' : delete_node n σ = Some σ' -> shapes σ' = shapes σ.
Proof.
  unfold delete_node. destruct (delete_node_rec _ _ _); [|done]. by intros [= <-].
Qed.

Lemma shapes_remove_child p n σ σ' : remove_child p n σ = Some σ' -> shapes σ' = shapes σ.
Proof.
  unfold remove_child. destruct (nodes σ !! p); [|done]. by intros [= <-].
Qed.

(** [remove_node] never touches the shapes, whatever it is given. *)
Lemma remove_node_shapes node m σ m' σ' :
  remove_node node m σ = Some (m', σ') ->
  owned_shapes m' = owned_shapes m /\ shapes σ' = shapes σ.
Proof.
  unfold remove_node. destruct node as [n|]; [|by intros [= <- <-]].
  destruct (n =? root m); [by intros [= <- <-]|].
  destruct (nodes σ !! n) as [nd|]; [|done]. cbn [mbind option_bind].
  destruct (match parent nd with Some p => remove_child p n σ | None => Some σ end)
    as [σ1|] eqn:E1; [|done]. cbn [mbind option_bind].
  destruct (collect σ1 n []); [|done]. cbn [mbind option_bind].
  destruct (delete_node n σ1) as [σ2|] eqn:E2; [|done]. cbn [mbind option_bind].
  intros [= <- <-]. split; [done|].
  rewrite (shapes_delete_node _ _ _ E2).
  destruct (parent nd); [by eapply shapes_remove_child|by injection E1 as <-].
Qed.

(** C10: [remove_node] leaves [owned_shapes] and the live shapes as they
    are, so the shapes of the removed nodes stay in the pool and alive;
    creating nodes and a load that cannot open its file release nothing
    either.  The shapes are released when [load_from_file] replaces the
    graph and when the model is destroyed. *)
Theorem remove_node_keeps_shapes (m : model_t) (σ : store) :
  wf m σ ->
  (forall node, valid_pointer m node ->
     exists m' σ', remove_node node m σ = Some (m', σ') /\
       owned_shapes m' = owned_shapes m /\ shapes σ' = shapes σ /\
       forall s, s ∈ owned_shapes m -> is_Some (shapes σ' !! s)) /\
  (forall sh p, valid_pointer m p ->
     exists node m' σ', create_shape sh p m σ = Some (node, m', σ') /\
       forall s, s ∈ owned_shapes m ->
                 s ∈ owned_shapes m' /\ shapes σ' !! s = shapes σ !! s) /\
  (forall filename fs, files fs !! filename = None ->
     load_from_file filename m σ fs = Some (false, m, σ)) /\
  (forall filename fs lines, files fs !! filename = Some lines ->
     exists m' σ', load_from_file filename m σ fs = Some (true, m', σ') /\
       forall s, s ∈ owned_shapes m -> shapes σ' !! s = None) /\
  (exists σ', delete_model m σ = Some σ' /\ shapes σ' = ∅).
Proof.
  intros W. split_and!.
  - intros node Hv.
    destruct (run_operation_wf (op_remove_node node) m σ W Hv) as (m' & σ' & E & _).
    simpl in E. destruct (remove_node_shapes _ _ _ _ _ E) as [Ho Hs].
    exists m', σ'. split_and!; [done..|]. intros s Hin. rewrite Hs.
    by apply (wf_shapes_live _ _ W).
  - intros sh p Hv.
    destruct (create_shape_spec sh p m σ W Hv)
      as (node & m' & σ' & E & _ & _ & _ & _ & Ho & Hs & _).
    exists node, m', σ'. split; [done|]. intros s Hin. split.
    + rewrite Ho. apply elem_of_app. by left.
    + rewrite Hs, lookup_insert_ne; [done|].
      apply (wf_shapes_live _ _ W), (wf_shapes_next _ _ W) in Hin. lia.
  - intros filename fs Hf. pose proof (load_from_file_wf filename m σ fs W) as H.
    by rewrite Hf in H.
  - intros filename fs lines Hf. pose proof (load_from_file_wf filename m σ fs W) as H.
    rewrite Hf in H. destruct H as (m' & σ' & E & _ & _ & Hs). eauto.
  - rewrite (delete_model_wf _ _ W). eauto.
Qed.

(** * Mesh sizes *)

Lemma flat_map_length_const {A B} (f : A -> list B) (k : nat) (l : list A) :
  (forall x, length (f x) = k) -> length (flat_map f l) = k * length l.
Proof.
  intros Hf. induction l as [|a l IH]; simpl; [lia|].
  rewrite length_app, Hf, IH. lia.
Qed.

Lemma makeSphere_length lvl :
  length (makeSphere lvl) = 6 * Z.to_nat (divisions 6 lvl) * Z.to_nat (divisions 6 lvl).
Proof.
  unfold makeSphere.
  rewrite (flat_map_length_const _ (6 * Z.to_nat (divisions 6 lvl))), length_seq; [lia|].
  intros i. by rewrite (flat_map_length_const _ 6), length_seq; [lia|].
Qed.

Lemma makeCylinder_length lvl :
  length (makeCylinder lvl) = 12 * Z.to_nat (divisions 8 lvl).
Proof.
  unfold makeCylinder.
  rewrite length_app, !(flat_map_length_const _ 6), length_seq by done. lia.
Qed.

Lemma makeCone_length lvl :
  length (makeCone lvl) = 6 * Z.to_nat (divisions 8 lvl).
Proof.
  unfold makeCone. by rewrite (flat_map_length_const _ 6), length_seq.
Qed.

Lemma makeBox_length : length makeBox = 36.
Proof.
  unfold makeBox. rewrite (flat_map_length_const _ 6); [done|].
  intros f. unfold box_face. by destruct (nth f box_faces _) as [[[? ?] ?] ?].
Qed.

(** At the levels the constructors admit, nothing wraps around and the
    divisions are [base * 2 ^ level]. *)
Lemma divisions_value (base lvl : Z) :
  (0 < base <= 8)%Z -> (0 <= lvl <= 4)%Z -> divisions base lvl = (base * 2 ^ lvl)%Z.
Proof.
  intros Hb Hl. unfold divisions, u32. rewrite Z.shiftl_1_l.
  assert (1 <= 2 ^ lvl <= 2 ^ 4)%Z as Hp.
  { split; [apply (Z.pow_le_mono_r 2 0 lvl); lia|apply Z.pow_le_mono_r; lia]. }
  change (2 ^ 4)%Z with 16%Z in Hp. change (2 ^ 32)%Z with 4294967296%Z.
  rewrite (Z.mod_small (2 ^ lvl)) by lia. rewrite Z.mod_small by nia.
  destruct (Z.ltb_spec (base * 2 ^ lvl) base); [nia|done].
Qed.

Lemma shape_level_small (lvl : Z) : (0 <= lvl <= 4)%Z -> shape_level lvl = lvl.
Proof.
  intros H. unfold shape_level, u32. change (2 ^ 32)%Z with 4294967296%Z.
  rewrite Z.mod_small by lia. destruct (Z.ltb_spec 4 lvl); [lia|done].
Qed.

Lemma divisions_mono (base l l' : Z) :
  (0 < base <= 8)%Z -> (0 <= l)%Z -> (l < l')%Z -> (l' <= 4)%Z ->
  0 < Z.to_nat (divisions base l) < Z.to_nat (divisions base l').
Proof.
  intros Hb H0 Hlt H4. rewrite !divisions_value by lia.
  assert (0 < 2 ^ l < 2 ^ l')%Z as Hp.
  { split; [apply Z.pow_pos_nonneg; lia|apply Z.pow_lt_mono_r; lia]. }
  split; [apply (Z2Nat.inj_lt 0); nia|apply Z2Nat.inj_lt; nia].
Qed.

(** C4: between levels 0 and 4 the vertex count of a sphere, a cylinder
    and a cone grows strictly with the level; a box has 36 vertices at
    every level. *)
Theorem vertex_count_by_level (l l' : Z) :
  (0 <= l)%Z -> (l < l')%Z -> (l' <= 4)%Z ->
  length (vertices (sphere_t l)) < length (vertices (sphere_t l')) /\
  length (vertices (cylinder_t l)) < length (vertices (cylinder_t l')) /\
  length (vertices (cone_t l)) < length (vertices (cone_t l')) /\
  forall lvl, length (vertices (box_t lvl)) = 36.
Proof.
  intros H0 Hlt H4. unfold sphere_t, cylinder_t, cone_t, box_t, build_shape. cbn [vertices].
  rewrite !shape_level_small by lia.
  rewrite !length_map, !makeSphere_length, !makeCylinder_length, !makeCone_length.
  pose proof (divisions_mono 6 l l') as H6. pose proof (divisions_mono 8 l l') as H8.
  split_and!; [nia|lia|lia|]. intros lvl. apply makeBox_length.
Qed.

(** * Loading *)

Import stream.

(** ** Extraction stops at white space *)

Lemma space_not_digit c : is_space c = true -> is_digit c = false.
Proof.
  unfold is_space, is_digit. intros H.
  apply orb_prop in H as [H%Nat.eqb_eq|[H1%Nat.leb_le H2%Nat.leb_le]%andb_prop].
  - rewrite H. reflexivity.
  - apply andb_false_intro1, Nat.leb_gt. lia.
Qed.

Lemma span_digits_app a s' ds r :
  span_digits a = (ds, r) -> field_end s' -> span_digits (a ++ s') = (ds, r ++ s').
Proof.
  intros H Hs. revert ds r H. induction a as [|c a IH]; intros ds r H; simpl in *.
  - injection H as <- <-. destruct s' as [|c s']; [done|].
    simpl in *. by rewrite (space_not_digit c Hs).
  - destruct (is_digit c).
    + destruct (span_digits a) as [ds0 r0]. injection H as <- <-.
      by rewrite (IH ds0 r0).
    + by injection H as <- <-.
Qed.

Lemma skip_ws_app a s' : skip_ws a <> [] -> skip_ws (a ++ s') = skip_ws a ++ s'.
Proof.
  induction a as [|c a IH]; simpl; [done|].
  destruct (is_space c); [done|done].
Qed.

Lemma read_sign_app a s' neg r :
  a <> [] -> read_sign a = (neg, r) -> read_sign (a ++ s') = (neg, r ++ s').
Proof.
  intros Ha H. destruct a as [|c a]; [done|]. simpl in *.
  destruct c as [[] [] [] [] [] [] [] []]; simpl in *; by injection H as <- <-.
Qed.

Lemma read_sign_end s' : field_end s' -> read_sign s' = (false, s').
Proof.
  destruct s' as [|c s']; [done|]. simpl.
  destruct c as [[] [] [] [] [] [] [] []]; simpl; done.
Qed.

Lemma skip_ws_nonspace s c r : skip_ws s = c :: r -> is_space c = false.
Proof.
  induction s as [|d s IH]; simpl; [done|].
  destruct (is_space d) eqn:E; [done|]. by intros [= <- <-].
Qed.

(** [is >> i] does not look beyond the white space that follows the
    number. *)
Lemma read_int_app a s' v r :
  read_int a = Some (v, r) -> field_end s' -> read_int (a ++ s') = Some (v, r ++ s').
Proof.
  unfold read_int. intros H Hs.
  destruct (skip_ws a) as [|c a1] eqn:Ea; [done|].
  rewrite skip_ws_app, Ea by (rewrite Ea; done).
  destruct (read_sign (c :: a1)) as [neg s1] eqn:E1.
  rewrite (read_sign_app (c :: a1) s' neg s1) by done.
  destruct (span_digits s1) as [ds s2] eqn:E2.
  rewrite (span_digits_app s1 s' ds s2) by done.
  destruct ds as [|d ds]; [done|].
  destruct (_ && _)%bool; [|done]. by injection H as <- <-.
Qed.

(** The same for [is >> f]. *)
Lemma lex_float_app a s' m e r :
  lex_float a = Some (m, e, r) -> field_end s' ->
  lex_float (a ++ s') = Some (m, e, r ++ s').
Proof.
  unfold lex_float. intros H Hs.
  destruct (skip_ws a) as [|c a1] eqn:Ea; [done|].
  rewrite skip_ws_app, Ea by (rewrite Ea; done).
  destruct (read_sign (c :: a1)) as [neg s1] eqn:E1.
  rewrite (read_sign_app (c :: a1) s' neg s1) by done.
  destruct (span_digits s1) as [ip s2] eqn:E2.
  rewrite (span_digits_app s1 s' ip s2) by done.
  set (frac2 := match s2 with "."%char :: s2' => span_digits s2' | _ => ([], s2) end) in *.
  assert (Hfrac : match s2 ++ s' with
                  | "."%char :: s2' => span_digits s2'
                  | _ => ([], s2 ++ s')
                  end = (frac2.1, frac2.2 ++ s')).
  { unfold frac2. destruct s2 as [|d s2]; simpl.
    - destruct s' as [|d s']; [done|]. simpl in Hs.
      destruct d as [[] [] [] [] [] [] [] []]; simpl in *; done.
    - destruct (Ascii.eqb_spec d "."%char) as [->|Hd].
      + destruct (span_digits s2) as [fp s3] eqn:E3.
        by rewrite (span_digits_app s2 s' fp s3).
      + destruct d as [[] [] [] [] [] [] [] []]; simpl in *; done. }
  rewrite Hfrac. destruct frac2 as [fp s3]. cbn [fst snd].
  destruct (ip ++ fp) as [|d ds] eqn:Ed; [done|]. rewrite <- Ed in *. clear Ed d ds.
  destruct s3 as [|d s3'].
  - injection H as <- <- <-. destruct s' as [|d s']; [done|]. simpl in *.
    destruct (Ascii.eqb d "e" || Ascii.eqb d "E")%bool eqn:Ee; [|done].
    destruct d as [[] [] [] [] [] [] [] []]; simpl in *; done.
  - change ((d :: s3') ++ s') with (d :: (s3' ++ s')). cbv beta iota.
    destruct (Ascii.eqb d "e" || Ascii.eqb d "E")%bool.
    + destruct s3' as [|d' s3''].
      * simpl in H. done.
      * destruct (read_sign (d' :: s3'')) as [eneg s4] eqn:E4.
        rewrite (read_sign_app (d' :: s3'') s' eneg s4) by done.
        destruct (span_digits s4) as [es s5] eqn:E5.
        rewrite (span_digits_app s4 s' es s5) by done.
        destruct es; [done|]. by injection H as <- <- <-.
    + by injection H as <- <- <-.
Qed.

(** ** The fields of a line, one extraction each *)

Lemma split_fields_acc s : forall cur, cur <> [] ->
  exists u s', s = u ++ s' /\ field_end s' /\
               split_fields s cur = (rev cur ++ u) :: split_fields s' [].
Proof.
  induction s as [|c s IH]; intros cur Hcur.
  - exists [], []. split_and!; [done..|]. simpl. rewrite app_nil_r. by destruct cur.
  - simpl. destruct (is_space c) eqn:Ec.
    + exists [], (c :: s). split_and!; [done..|]. simpl. rewrite Ec, app_nil_r. by destruct cur.
    + destruct (IH (c :: cur)) as (u & s' & -> & Hs & E); [done|].
      exists (c :: u), s'. split_and!; [done..|]. rewrite E. simpl. by rewrite <- app_assoc.
Qed.

Lemma split_fields_skip s : split_fields (skip_ws s) [] = split_fields s [].
Proof.
  induction s as [|c s IH]; simpl; [done|].
  destruct (is_space c) eqn:E; [done|]. simpl. by rewrite E.
Qed.

Lemma skip_ws_idemp s : skip_ws (skip_ws s) = skip_ws s.
Proof.
  induction s as [|c s IH]; simpl; [done|].
  destruct (is_space c) eqn:E; [done|]. simpl. by rewrite E.
Qed.

(** The first field of a line is what follows the leading white space,
    up to the next white space. *)
Lemma split_fields_first s t ts :
  split_fields s [] = t :: ts ->
  exists s', skip_ws s = t ++ s' /\ field_end s' /\ split_fields s' [] = ts.
Proof.
  rewrite <- split_fields_skip. destruct (skip_ws s) as [|c r] eqn:E; [done|].
  simpl. rewrite (skip_ws_nonspace s c r E).
  destruct (split_fields_acc r [c]) as (u & s' & -> & Hs & ->); [done|].
  intros [= <- <-]. eauto.
Qed.

Lemma read_int_field s t ts :
  split_fields s [] = t :: ts -> int_field t = true ->
  exists v s', read_int s = Some (v, s') /\ split_fields s' [] = ts.
Proof.
  intros (s' & E & Hs & Hts)%split_fields_first Hf. unfold int_field in Hf.
  destruct (read_int t) as [[v [|]]|] eqn:Et; try done.
  exists v, s'. split; [|done].
  pose proof (read_int_app t s' v [] Et Hs) as H. rewrite <- E in H.
  unfold read_int in *. by rewrite skip_ws_idemp in H.
Qed.

Lemma read_float_app a s' x r :
  read_float a = Some (x, r) -> field_end s' -> read_float (a ++ s') = Some (x, r ++ s').
Proof.
  unfold read_float. intros H Hs.
  destruct (lex_float a) as [[[m e] r0]|] eqn:E; [|done]. cbn [mbind option_bind] in H.
  rewrite (lex_float_app a s' m e r0 E Hs). cbn [mbind option_bind].
  destruct (float_overflow m e); [done|]. by injection H as <- <-.
Qed.

Lemma read_float_skip s : read_float (skip_ws s) = read_float s.
Proof. unfold read_float, lex_float. by rewrite skip_ws_idemp. Qed.

Lemma read_float_field s t ts :
  split_fields s [] = t :: ts -> float_field t = true ->
  exists x s', read_float s = Some (x, s') /\ split_fields s' [] = ts.
Proof.
  intros (s' & E & Hs & Hts)%split_fields_first Hf. unfold float_field in Hf.
  destruct (read_float t) as [[x [|]]|] eqn:Et; try done.
  exists x, s'. split; [|done].
  pose proof (read_float_app t s' x [] Et Hs) as H. rewrite <- E in H.
  by rewrite read_float_skip in H.
Qed.

(** The test of [read_float] is the comparison of the value read with
    [float_limit]. *)
Lemma float_overflow_spec (mant e : Z) :
  float_overflow mant e = true <-> (IZR float_limit <= Rabs (decimal_value mant e))%R.
Proof.
  unfold float_overflow, decimal_value.
  destruct (Z.leb_spec 0 e) as [He|He].
  - rewrite <- mult_IZR, <- abs_IZR, Z.abs_mul.
    rewrite (Z.abs_eq (10 ^ e)) by (apply Z.pow_nonneg; lia).
    rewrite Z.leb_le. split; [apply IZR_le|apply le_IZR].
  - assert (Hp : (0 < 10 ^ (- e))%Z) by (apply Z.pow_pos_nonneg; lia).
    assert (Hr : (0 < IZR (10 ^ (- e)))%R) by (by apply IZR_lt).
    unfold Rdiv. rewrite Rabs_mult, Rabs_inv, <- !abs_IZR.
    rewrite (Z.abs_eq (10 ^ (- e))) by lia.
    rewrite Z.leb_le. split.
    + intros H%IZR_le. rewrite mult_IZR in H.
      apply (Rmult_le_reg_r (IZR (10 ^ (- e)))); [done|].
      rewrite Rmult_assoc, Rinv_l, Rmult_1_r by lra. exact H.
    + intros H. apply le_IZR. rewrite mult_IZR.
      apply (Rmult_le_compat_r (IZR (10 ^ (- e)))) in H; [|lra].
      rewrite Rmult_assoc, Rinv_l, Rmult_1_r in H by lra. exact H.
Qed.

(** A line in the format of the file is never passed over. *)
Lemma well_formed_line_extractable line :
  well_formed_line line = true -> extractable line = true.
Proof.
  unfold well_formed_line, extractable, extract_line, fields.
  generalize (list_ascii_of_string line). intros s.
  destruct (split_fields s []) as [|t0 [|t1 rest]] eqn:E0; try done.
  intros [[[Hlen Ht0]%andb_prop Ht1]%andb_prop Hrest]%andb_prop.
  apply Nat.eqb_eq in Hlen.
  do 13 (destruct rest as [|? rest]; [simpl in Hlen; lia|]).
  destruct rest; [|simpl in Hlen; lia]. clear Hlen. simpl in Hrest.
  repeat match goal with H : (_ && _)%bool = true |- _ => apply andb_prop in H as [? H] end.
  destruct (read_int_field _ _ _ E0 Ht0) as (v0 & s0 & -> & E1). cbn [mbind option_bind].
  destruct (read_int_field _ _ _ E1 Ht1) as (v1 & s1 & -> & E2). cbn [mbind option_bind].
  repeat match goal with
         | E : split_fields ?s [] = ?t :: _, H : float_field ?t = true |- _ =>
             let x := fresh "x" in let s' := fresh "s" in let E' := fresh "E" in
             destruct (read_float_field _ _ _ E H) as (x & s' & -> & E'); clear E H;
             cbn [mbind option_bind]
         end.
  done.
Qed.

(** ** Text after the fifteenth value *)

Lemma list_ascii_of_string_app (a b : string) :
  list_ascii_of_string (a ++ b) = list_ascii_of_string a ++ list_ascii_of_string b.
Proof. induction a as [|c a IH]; simpl; [done|]. by rewrite IH. Qed.

(** The extraction does not look at what follows the fifteenth value and
    the white space after it. *)
Lemma extract_line_app (line more : string) (r : record_t) :
  extract_line line = Some r -> field_end (list_ascii_of_string more) ->
  extract_line (line ++ more) = Some r.
Proof.
  unfold extract_line. rewrite list_ascii_of_string_app.
  generalize (list_ascii_of_string line) (list_ascii_of_string more). intros s s' H Hs.
  repeat match type of H with
         | context [read_int ?a] =>
             let v := fresh "v" in let t := fresh "t" in let E := fresh "E" in
             destruct (read_int a) as [[v t]|] eqn:E; [|done];
             rewrite (read_int_app _ s' _ _ E Hs); cbn [mbind option_bind] in H |- *
         | context [read_float ?a] =>
             let v := fresh "v" in let t := fresh "t" in let E := fresh "E" in
             destruct (read_float a) as [[v t]|] eqn:E; [|done];
             rewrite (read_float_app _ s' _ _ E Hs); cbn [mbind option_bind] in H |- *
         end.
  exact H.
Qed.

(** ** The input loop *)

(** C9: a line whose parent index is negative, or not below the number of
    nodes built so far, is not passed over: its node is created and hangs
    under the fresh root. *)
Theorem out_of_range_parent_goes_to_root (m : model_t) (σ : store) (line : string)
    (r : record_t) :
  wf m σ -> extract_line line = Some r ->
  (r_parentIdx r < 0 \/ Z.of_nat (length (all_nodes m)) <= r_parentIdx r)%Z ->
  exists m' σ' node nd rd,
    load_line line (m, σ, all_nodes m) = Some (m', σ', all_nodes m') /\
    all_nodes m' = all_nodes m ++ [node] /\ (node ∉ all_nodes m) /\ root m' = root m /\
    nodes σ' !! node = Some nd /\ parent nd = Some (root m) /\
    nodes σ' !! root m = Some rd /\ node ∈ children rd.
Proof.
  intros W Hr Hidx. unfold load_line. rewrite Hr.
  destruct (load_record_spec m σ r W)
    as (m' & σ' & node & s & pd & E & W' & Hroot & Hall & Hfresh & Hp & Hnode & Hp' & _).
  assert (Hq : record_parent r m (all_nodes m) = root m).
  { unfold record_parent, resolve_parent.
    destruct (Z.leb_spec 0 (r_parentIdx r)); [|done].
    destruct (Z.ltb_spec (r_parentIdx r) (Z.of_nat (length (all_nodes m)))); [lia|done]. }
  rewrite Hq in *.
  exists m', σ', node, (record_node r s (root m)), (set_children (children pd ++ [node]) pd).
  split_and!; try done.
  - intros Hin%(wf_live _ _ W). rewrite Hfresh in Hin. by apply is_Some_None in Hin.
  - simpl. apply elem_of_app. right. by left.
Qed.

Lemma load_lines_none lines :
  foldl (fun acc line => st' ← acc; load_line line st') None lines = None.
Proof. by induction lines. Qed.

(** The lines that cannot be extracted do not change what is loaded. *)
Lemma load_lines_filter lines : forall st,
  load_lines (List.filter extractable lines) st = load_lines lines st.
Proof.
  unfold load_lines. induction lines as [|line lines IH]; intros st; [done|].
  simpl. destruct (extractable line) eqn:Eb; simpl.
  - destruct (load_line line st) as [st'|]; [apply IH|by rewrite !load_lines_none].
  - assert (load_line line st = Some st) as ->; [|apply IH].
    unfold extractable in Eb. unfold load_line. by destruct (extract_line line).
Qed.

(** C7, amended: [load_from_file] returns [false] exactly when the file
    cannot be opened, and then leaves the model as it is; when the file
    opens it returns [true], and the lines from which the fifteen values
    (two [int]s and thirteen [float]s, each in the range of its type)
    cannot be extracted are passed over: the result is that of the file
    without them.  A line with further text behind fifteen values that
    can be extracted, and white space, is not passed over: the text is
    ignored and the node of the line is created. *)
Theorem load_from_file_passes_over_bad_lines (filename : string) (m : model_t)
    (σ : store) (fs : filesystem) :
  wf m σ ->
  (files fs !! filename = None -> load_from_file filename m σ fs = Some (false, m, σ)) /\
  (forall lines, files fs !! filename = Some lines ->
     exists m' σ',
       load_from_file filename m σ fs = Some (true, m', σ') /\
       load_from_file filename m σ (with_file filename (List.filter extractable lines) fs)
       = Some (true, m', σ')) /\
  (forall line st, extractable line = false -> load_line line st = Some st) /\
  (forall line more r,
     extract_line line = Some r -> field_end (list_ascii_of_string more) ->
     extract_line (line ++ more) = Some r /\
     forall m0 σ0, wf m0 σ0 ->
       exists m' σ' node,
         load_line (line ++ more) (m0, σ0, all_nodes m0) = Some (m', σ', all_nodes m') /\
         load_line (line ++ more) (m0, σ0, all_nodes m0)
         = load_line line (m0, σ0, all_nodes m0) /\
         all_nodes m' = all_nodes m0 ++ [node] /\ (node ∉ all_nodes m0)).
Proof.
  intros W. split_and!.
  - intros Hf. pose proof (load_from_file_wf filename m σ fs W) as H. by rewrite Hf in H.
  - intros lines Hf. pose proof (load_from_file_wf filename m σ fs W) as H.
    rewrite Hf in H. destruct H as (m' & σ' & E & _ & El & _).
    pose proof (load_from_file_wf filename m σ
                  (with_file filename (List.filter extractable lines) fs) W) as H'.
    simpl in H'. rewrite lookup_insert_eq in H'.
    destruct H' as (m2 & σ2 & E2 & _ & El2 & _).
    rewrite load_lines_filter, El in El2. injection El2 as <- <- _. eauto.
  - intros line st. unfold extractable, load_line. by destruct (extract_line line).
  - intros line more r Hr Hmore.
    pose proof (extract_line_app line more r Hr Hmore) as Hr'. split; [exact Hr'|].
    intros m0 σ0 W0. unfold load_line. rewrite Hr, Hr'.
    destruct (load_record_spec m0 σ0 r W0)
      as (m' & σ' & node & s & pd & E & _ & _ & Hall & Hfresh & _).
    exists m', σ', node. split_and!; [done..|].
    intros Hin%(wf_live _ _ W0). rewrite Hfresh in Hin. by apply is_Some_None in Hin.
Qed.

(** C7, as stated, fails: a line with sixteen fields has the wrong number
    of fields, and [load_from_file] does not pass it over. *)
Lemma long_line_is_loaded :
  well_formed_line long_line = false /\ length (fields long_line) = 16 /\
  load_line long_line (root_model 0, root_store 0, [0])
  <> Some (root_model 0, root_store 0, [0]).
Proof.
  split_and!; [by vm_compute..|]. intros H.
  apply (f_equal (fun o : option load_state =>
                    match o with Some (_, _, l) => length l | None => 0 end)) in H.
  vm_compute in H. discriminate.
Qed.

Lemma box_scene_eq : exists σ,
  box_scene = Some (2, mk_model 0 [0; 2] [1], σ) /\
  collect σ 0 [] = Some [0; 2] /\
  nodes σ !! 0 = Some (set_children [2] (fresh_node None None)) /\
  nodes σ !! 2 = Some (fresh_node (Some 1) (Some 0)) /\
  shapetype <$> shapes σ !! 1 = Some BOX_SHAPE.
Proof.
  eexists. split; [vm_compute; reflexivity|]. split_and!; by vm_compute.
Qed.

Lemma save_box_scene fmt fs σ :
  fmt 0%R = "0" -> fmt 1%R = "1" -> writable fs "a.mod" = true ->
  collect σ 0 [] = Some [0; 2] ->
  nodes σ !! 0 = Some (set_children [2] (fresh_node None None)) ->
  nodes σ !! 2 = Some (fresh_node (Some 1) (Some 0)) ->
  shapetype <$> shapes σ !! 1 = Some BOX_SHAPE ->
  save_to_file fmt "a.mod" (mk_model 0 [0; 2] [1]) σ fs
  = Some (true, with_file "a.mod" [root_line; box_line] fs).
Proof.
  intros H0 H1 Hw Hc Hn0 Hn2 Hs. unfold save_to_file. rewrite Hw. cbn [negb root].
  rewrite Hc. cbn [mbind option_bind mapM]. unfold save_line. rewrite Hn0, Hn2.
  cbn -[String.append stream.show_int].
  destruct (shapes σ !! 1) as [sh|]; [|done]. injection Hs as Hs.
  cbn -[String.append stream.show_int]. rewrite Hs, H0, H1. reflexivity.
Qed.

Lemma load_box_file : exists σ' nd1 nd3 rd,
  load_lines [root_line; box_line] (root_model 1, root_store 1, [1])
  = Some (mk_model 1 [1; 2; 4] [3], σ', [1; 2; 4]) /\
  nodes σ' !! 1 = Some rd /\ children rd = [2; 4] /\
  nodes σ' !! 2 = Some nd1 /\ shape nd1 = None /\ parent nd1 = Some 1 /\
  nodes σ' !! 4 = Some nd3 /\ shape nd3 = Some 3 /\ parent nd3 = Some 1 /\
  shapetype <$> shapes σ' !! 3 = Some BOX_SHAPE /\
  translation_offset nd3 = mk_vec3 0 0 0 /\ scale_diagonal nd3 = mk_vec3 1 1 1 /\
  color_rgb nd3 = mk_vec3 1 1 1 /\ rotation nd3 = mat4_identity.
Proof.
  eexists _, _, _, _. split; [vm_compute; reflexivity|].
  split; [vm_compute; reflexivity|]. split; [reflexivity|].
  split; [vm_compute; reflexivity|]. split; [reflexivity|]. split; [reflexivity|].
  split; [vm_compute; reflexivity|]. split; [reflexivity|]. split; [reflexivity|].
  split; [vm_compute; reflexivity|].
  split_and!.
  - unfold translation_offset, vec3_of_vec4. simpl. f_equal; lra.
  - unfold scale_diagonal. simpl. f_equal; lra.
  - unfold color_rgb, vec3_of_vec4. simpl. f_equal; lra.
  - reflexivity.
Qed.

(** The number of nodes after a load: the fresh root and one node for
    every line that can be extracted, the line of the saved root included. *)
Lemma load_lines_count lines : forall m σ m' σ' l',
  wf m σ -> load_lines lines (m, σ, all_nodes m) = Some (m', σ', l') ->
  length (all_nodes m') = length (all_nodes m) + length (List.filter extractable lines).
Proof.
  unfold load_lines. induction lines as [|line lines IH]; intros m σ m' σ' l' W E.
  - injection E as <- _ _. simpl. lia.
  - simpl in E. destruct (load_line_wf m σ line W) as (m1 & σ1 & E1 & W1 & _).
    rewrite E1 in E. rewrite (IH _ _ _ _ _ W1 E). simpl.
    unfold load_line in E1. unfold extractable at 2.
    destruct (extract_line line) as [r|]; simpl.
    + destruct (load_record_spec m σ r W) as (m2 & σ2 & node & _ & _ & E2 & _ & _ & Hall & _).
      rewrite E2 in E1. injection E1 as <- _ _. rewrite Hall, length_app. simpl. lia.
    + injection E1 as <- _ _. lia.
Qed.

(** A file of [N] lines in the format is loaded as [N + 1] nodes. *)
Lemma load_well_formed_file_count filename m σ fs lines :
  wf m σ -> files fs !! filename = Some lines ->
  Forall (fun line => well_formed_line line = true) lines ->
  exists m' σ', load_from_file filename m σ fs = Some (true, m', σ') /\
                length (all_nodes m') = S (length lines).
Proof.
  intros W Hf Hwf. pose proof (load_from_file_wf filename m σ fs W) as H.
  rewrite Hf in H. destruct H as (m' & σ' & E & _ & El & _).
  exists m', σ'. split; [done|].
  rewrite (load_lines_count lines _ _ _ _ _ (root_wf (next_loc σ)) El). simpl. f_equal.
  f_equal. clear -Hwf. induction Hwf as [|line lines Hl _ IH]; [done|].
  simpl. by rewrite (well_formed_line_extractable line Hl), IH.
Qed.

(** C1 on the spec's own example: a box under the root, saved and loaded
    into a fresh graph, comes back as three nodes, not two: the line of the
    saved root is loaded as a node of its own, a child of the fresh root
    without a shape.  The box itself has the root as parent, the box type,
    translation (0,0,0), scale (1,1,1), colour (1,1,1) and the identity as
    rotation. *)
Theorem save_load_box_yields_three_nodes (fmt : R -> string) (fs : filesystem) :
  fmt 0%R = "0" -> fmt 1%R = "1" -> writable fs "a.mod" = true ->
  exists box m σ m' σ' extra loaded nd_extra nd_loaded,
    box_scene = Some (box, m, σ) /\ length (all_nodes m) = 2 /\
    save_then_load fmt "a.mod" m σ fs = Some (true, m', σ') /\
    all_nodes m' = [root m'; extra; loaded] /\ length (all_nodes m') = 3 /\
    nodes σ' !! extra = Some nd_extra /\ shape nd_extra = None /\
    parent nd_extra = Some (root m') /\
    nodes σ' !! loaded = Some nd_loaded /\ parent nd_loaded = Some (root m') /\
    (exists sl, shape nd_loaded = Some sl /\ shapetype <$> shapes σ' !! sl = Some BOX_SHAPE) /\
    translation_offset nd_loaded = mk_vec3 0 0 0 /\
    scale_diagonal nd_loaded = mk_vec3 1 1 1 /\
    color_rgb nd_loaded = mk_vec3 1 1 1 /\
    rotation nd_loaded = mat4_identity.
Proof.
  intros H0 H1 Hw.
  destruct box_scene_eq as (σ & Ebox & Hc & Hn0 & Hn2 & Hs).
  destruct load_box_file
    as (σ' & nd1 & nd3 & rd & El & _ & _ & Hl1 & Hs1 & Hp1 & Hl3 & Hs3 & Hp3 & Ht & Hto & Hsd & Hcol & Hrot).
  exists 2, (mk_model 0 [0; 2] [1]), σ, (mk_model 1 [1; 2; 4] [3]), σ', 2, 4, nd1, nd3.
  split_and!; try done; [|by eauto].
  unfold save_then_load. rewrite (save_box_scene fmt fs σ) by done. cbn [mbind option_bind].
  change empty_store with (mk_store ∅ ∅ 0). rewrite new_model_eq. cbn [mbind option_bind].
  pose proof (load_from_file_wf "a.mod" (root_model 0) (root_store 0)
                (with_file "a.mod" [root_line; box_line] fs) (root_wf 0)) as H.
  simpl in H. rewrite lookup_insert_eq in H.
  destruct H as (m2 & σ2 & E2 & _ & El2 & _). rewrite E2.
  change (S 0) with 1 in El2.
  change (mk_model 1 [1] []) with (root_model 1) in El2.
  change (mk_store _ ∅ 2) with (root_store 1) in El2.
  rewrite El in El2. by injection El2 as <- <- _.
Qed.

(** * Rotation about the pivot *)

Local Open Scope R_scope.

Lemma mat4_mul_assoc (a b c : mat4) : mat4_mul (mat4_mul a b) c = mat4_mul a (mat4_mul b c).
Proof.
  destruct a as [[] [] [] []], b as [[] [] [] []], c as [[] [] [] []].
  mat_norm. f_equal; f_equal; ring.
Qed.

Lemma mat4_mul_identity_l (a : mat4) : mat4_mul mat4_identity a = a.
Proof.
  destruct a as [[] [] [] []].
  mat_norm. f_equal; f_equal; ring.
Qed.

Lemma mat4_mul_identity_r (a : mat4) : mat4_mul a mat4_identity = a.
Proof.
  destruct a as [[] [] [] []].
  mat_norm. f_equal; f_equal; ring.
Qed.

Lemma normalize_y : normalize (mk_vec3 0 1 0) = mk_vec3 0 1 0.
Proof.
  unfold normalize, dot3, vec3_scale. cbn [x3 y3 z3].
  replace (0 * 0 + 1 * 1 + 0 * 0) with 1 by ring. rewrite sqrt_1, Rinv_1.
  f_equal; ring.
Qed.

(** The pivot rotation about Y, entry by entry. *)
Lemma pivot_rotation_y (pivot : vec3) (angle : R) :
  pivot_rotation pivot angle (mk_vec3 0 1 0) =
  mk_mat4 (mk_vec4 (cos angle) 0 (- sin angle) 0)
          (mk_vec4 0 1 0 0)
          (mk_vec4 (sin angle) 0 (cos angle) 0)
          (mk_vec4 (x3 pivot - cos angle * x3 pivot - sin angle * z3 pivot) 0
                   (z3 pivot + sin angle * x3 pivot - cos angle * z3 pivot) 1).
Proof.
  unfold pivot_rotation, glm.rotate. rewrite normalize_y.
  destruct pivot as [px py pz]. mat_norm. f_equal; f_equal; ring.
Qed.

(** The rotation by [angle] about Y, undone by the rotation by [- angle]
    about the same pivot. *)
Lemma pivot_rotation_y_inverse (pivot : vec3) (angle : R) :
  mat4_mul (pivot_rotation pivot (- angle) (mk_vec3 0 1 0))
           (pivot_rotation pivot angle (mk_vec3 0 1 0)) = mat4_identity.
Proof.
  rewrite !pivot_rotation_y, cos_neg, sin_neg.
  pose proof (sin2_cos2 angle) as H. unfold Rsqr in H.
  set (c := cos angle) in *. set (s := sin angle) in *.
  assert (Hs : s * s = 1 - c * c) by lra.
  destruct pivot as [px py pz]. mat_norm. f_equal; f_equal; ring [Hs].
Qed.

Local Close Scope R_scope.

Lemma divisions_ge (base lvl : Z) : (base <= divisions base lvl)%Z.
Proof.
  unfold divisions. generalize (u32 (base * u32 (Z.shiftl 1 lvl))). intros d.
  destruct (Z.ltb_spec d base); lia.
Qed.

Lemma sphere_vertices_nonempty lvl : vertices (sphere_t lvl) <> [].
Proof.
  intros H%(f_equal length). revert H. unfold sphere_t, build_shape. cbn [vertices].
  rewrite length_map, makeSphere_length. pose proof (divisions_ge 6 (shape_level lvl)) as H.
  set (d := divisions 6 (shape_level lvl)) in *. intros E.
  assert (0 < Z.to_nat d) by lia. cbn [length] in E. nia.
Qed.

(** The pivot of a node whose shape has vertices is their mean. *)
Lemma compute_shape_centroid_mean σ n nd sl sh :
  nodes σ !! n = Some nd -> shape nd = Some sl -> shapes σ !! sl = Some sh ->
  vertices sh <> [] ->
  compute_shape_centroid σ (Some n) = Some (vertex_mean sh).
Proof.
  intros Hn Hs Hsh Hv. unfold compute_shape_centroid, vertex_mean.
  rewrite Hn. cbn [mbind option_bind]. rewrite Hs, Hsh. cbn [mbind option_bind].
  by destruct (vertices sh).
Qed.

(** One rotation key on a node: the rotation is multiplied on the left by
    the pivot rotation about the mean of the vertices. *)
Lemma rotate_node_y degrees σ n nd sl sh :
  nodes σ !! n = Some nd -> shape nd = Some sl -> shapes σ !! sl = Some sh ->
  vertices sh <> [] ->
  rotate_node degrees 2 n σ
  = Some (set_nodes (<[n := set_rotation
                             (mat4_mul (pivot_rotation (vertex_mean sh) (radians degrees)
                                                       (mk_vec3 0 1 0))
                                       (rotation nd)) nd]> (nodes σ)) σ).
Proof.
  intros Hn Hs Hsh Hv. unfold rotate_node.
  rewrite (compute_shape_centroid_mean σ n nd sl sh) by done.
  cbn [mbind option_bind]. rewrite Hn. reflexivity.
Qed.

(** C8: for a freshly created sphere, the [+] key in rotation mode about Y
    replaces the rotation by translate(pivot) * rotate(10 degrees, Y) *
    translate(-pivot) * rotation, the pivot being the mean of the sphere's
    vertices, and the [-] key that follows restores the rotation, and with
    it the whole state of the editor. *)
Theorem rotate_plus_minus_restores_sphere (fmt : R -> string) (fs : filesystem)
    (m : model_t) (σ : store) (level : Z) (parent : option loc) :
  wf m σ -> valid_pointer m parent ->
  exists node m' σ' nd a1 nd1,
    create_sphere level parent m σ = Some (node, m', σ') /\
    nodes σ' !! node = Some nd /\ rotation nd = mat4_identity /\
    (exists sl, shape nd = Some sl /\ shapes σ' !! sl = Some (sphere_t level)) /\
    handle_key fmt KEY_EQUAL PRESS (rotating_about_y m' node σ' fs) = Some a1 /\
    nodes (heap a1) !! node = Some nd1 /\
    rotation nd1 = mat4_mul (pivot_rotation (vertex_mean (sphere_t level)) (radians 10)
                                            (mk_vec3 0 1 0))
                            (rotation nd) /\
    handle_key fmt KEY_MINUS PRESS a1 = Some (rotating_about_y m' node σ' fs) /\
    forall a2 nd2, handle_key fmt KEY_MINUS PRESS a1 = Some a2 ->
                   nodes (heap a2) !! node = Some nd2 -> rotation nd2 = rotation nd.
Proof.
  intros W Hp. unfold create_sphere.
  destruct (create_shape_spec (sphere_t level) parent m σ W Hp)
    as (node & m' & σ' & E & W' & _ & _ & _ & _ & Hsh & Hnode).
  set (nd := fresh_node (Some (next_loc σ)) (Some (default (root m) parent))) in *.
  assert (Hshape : shapes σ' !! next_loc σ = Some (sphere_t level)).
  { by rewrite Hsh, lookup_insert_eq. }
  set (pivot := vertex_mean (sphere_t level)).
  set (r1 := mat4_mul (pivot_rotation pivot (radians 10) (mk_vec3 0 1 0)) (rotation nd)).
  set (σ1 := set_nodes (<[node := set_rotation r1 nd]> (nodes σ')) σ').
  assert (E1 : handle_key fmt KEY_EQUAL PRESS (rotating_about_y m' node σ' fs)
               = Some (rotating_about_y m' node σ1 fs)).
  { unfold handle_key, apply_transform. cbn [app_mode rotating_about_y current_node trans_mode
      axis_mode heap].
    rewrite (rotate_node_y _ σ' node nd (next_loc σ) (sphere_t level));
      [done..|apply sphere_vertices_nonempty]. }
  assert (E2 : handle_key fmt KEY_MINUS PRESS (rotating_about_y m' node σ1 fs)
               = Some (rotating_about_y m' node σ' fs)).
  { unfold handle_key, apply_transform. cbn [app_mode rotating_about_y current_node trans_mode
      axis_mode heap].
    rewrite (rotate_node_y _ σ1 node (set_rotation r1 nd) (next_loc σ) (sphere_t level));
      [|by unfold σ1; cbn; rewrite lookup_insert_eq|done|done|apply sphere_vertices_nonempty].
    cbn [mbind option_bind]. unfold set_heap, rotating_about_y. cbn. do 2 f_equal.
    unfold σ1, set_nodes. cbn. rewrite insert_insert_eq.
    replace (radians (-10)) with (- radians 10)%R by (unfold radians; lra).
    fold pivot. unfold r1. rewrite <- mat4_mul_assoc, pivot_rotation_y_inverse.
    rewrite mat4_mul_identity_l. rewrite insert_id; [by destruct σ'|]. by rewrite Hnode. }
  exists node, m', σ', nd, (rotating_about_y m' node σ1 fs), (set_rotation r1 nd).
  split_and!; try done.
  - eauto.
  - unfold σ1. cbn. by rewrite lookup_insert_eq.
  - intros a2 nd2. rewrite E2. intros [= <-]. cbn. rewrite Hnode. by intros [= <-].
Qed.

(** The keys M, 1, R, Y pressed in the state [main] starts with lead to the
    state of the theorem: a fresh sphere under the root is selected and
    the editor rotates about Y. *)
Lemma keys_select_fresh_sphere (fmt : R -> string) (fs : filesystem) :
  exists node m σ,
    create_sphere 1 (Some 0) (root_model 0) (root_store 0) = Some (node, m, σ) /\
    (a0 ← initial_app fs; press_keys fmt [KEY_M; KEY_1; KEY_R; KEY_Y] a0)
    = Some (rotating_about_y m node σ fs).
Proof.
  destruct (create_shape_spec (sphere_t 1) (Some 0) (root_model 0) (root_store 0) (root_wf 0))
    as (node & m & σ & E & _); [by left|].
  exists node, m, σ. split; [exact E|].
  unfold initial_app. change empty_store with (mk_store ∅ ∅ 0). rewrite new_model_eq.
  cbn -[create_sphere root_model root_store].
  change (root (root_model 0)) with 0.
  unfold create_sphere in *. rewrite E. reflexivity.
Qed.

(** * The theorems at work on example scenes *)

Lemma two_boxes_eq : two_boxes = Some (two_boxes_model, two_boxes_store).
Proof. by vm_compute. Qed.

Lemma two_boxes_built : built two_boxes_model two_boxes_store.
Proof.
  eapply (built_step _ _ (op_create_box (Some 2))).
  - eapply (built_step _ _ (op_create_box None)).
    + apply built_fresh. vm_compute. reflexivity.
    + exact I.
    + vm_compute. reflexivity.
  - simpl. apply elem_of_cons. right. by left.
  - vm_compute. reflexivity.
Qed.

Lemma two_boxes_wf : wf two_boxes_model two_boxes_store.
Proof. apply built_wf, two_boxes_built. Qed.

Lemma two_boxes_links : exists nd2 nd4,
  nodes two_boxes_store !! 2 = Some nd2 /\ children nd2 = [4] /\
  nodes two_boxes_store !! 4 = Some nd4 /\ children nd4 = [].
Proof. eexists _, _. split_and!; by vm_compute. Qed.

Lemma two_boxes_descendants : descendants (nodes two_boxes_store) 2 [4].
Proof.
  destruct two_boxes_links as (nd2 & nd4 & H2 & C2 & H4 & C4).
  split; [apply NoDup_singleton|]. intros x. rewrite list_elem_of_singleton. split.
  - intros ->. split; [|done]. eapply reach_step; [done| |constructor]. rewrite C2. by left.
  - intros [Hr Hne]. inversion Hr as [|? nd c ? Hn Hc Hr']; subst; [done|].
    rewrite H2 in Hn. injection Hn as <-. rewrite C2 in Hc.
    apply list_elem_of_singleton in Hc as ->.
    inversion Hr' as [|? nd c ? Hn Hc Hr'']; subst; [done|].
    rewrite H4 in Hn. injection Hn as <-. rewrite C4 in Hc. by apply elem_of_nil in Hc.
Qed.

Lemma fmt_bit_0 : fmt_bit 0%R = "0".
Proof. unfold fmt_bit. by destruct (Req_dec_T 0 0). Qed.

Lemma fmt_bit_1 : fmt_bit 1%R = "1".
Proof. unfold fmt_bit. destruct (Req_dec_T 1 0) as [H|]; [lra|done]. Qed.

Lemma orphan_line_extract : extract_line orphan_line = Some orphan_record.
Proof.
  unfold extract_line, orphan_line, orphan_record, stream.read_float.
  vm_compute. do 2 f_equal; lra.
Qed.

Lemma noisy_file_filter : List.filter extractable noisy_file = [box_line].
Proof. by vm_compute. Qed.

(** A line of fifteen fields with a number out of the range of a [float]
    is passed over. *)
Lemma huge_line_is_passed_over :
  length (fields huge_line) = 15 /\ extractable huge_line = false /\
  forall st, load_line huge_line st = Some st.
Proof.
  assert (E : extract_line huge_line = None) by (by vm_compute).
  split_and!; [by vm_compute|by vm_compute|]. intros st. unfold load_line. by rewrite E.
Qed.

(** The world matrix of the inner box of [two_boxes]. *)
Lemma world_matrix_is_chain_product_witness :
  wf two_boxes_model two_boxes_store /\ 4 ∈ all_nodes two_boxes_model /\
  (exists l, ancestor_chain (nodes two_boxes_store) l 4 /\
             head l = Some (root two_boxes_model) /\
             length (local_matrices (nodes two_boxes_store) l) = length l /\
             is_Some (get_world_matrix two_boxes_store 4) /\
             get_world_matrix two_boxes_store 4
             = chain_product (local_matrices (nodes two_boxes_store) l)) /\
  (forall nd, nodes two_boxes_store !! 4 = Some nd -> parent nd = None ->
              get_world_matrix two_boxes_store 4 = Some (local_matrix nd)).
Proof.
  assert (H : 4 ∈ all_nodes two_boxes_model) by (apply list_elem_of_In; simpl; tauto).
  split; [exact two_boxes_wf|]. split; [exact H|].
  exact (world_matrix_is_chain_product two_boxes_model two_boxes_store 4 two_boxes_wf H).
Defined.

(** Levels 0 and 1. *)
Lemma vertex_count_by_level_witness :
  (0 <= 0)%Z /\ (0 < 1)%Z /\ (1 <= 4)%Z /\
  length (vertices (sphere_t 0)) < length (vertices (sphere_t 1)) /\
  length (vertices (cylinder_t 0)) < length (vertices (cylinder_t 1)) /\
  length (vertices (cone_t 0)) < length (vertices (cone_t 1)) /\
  forall lvl, length (vertices (box_t lvl)) = 36.
Proof.
  assert (H0 : (0 <= 0)%Z) by lia. assert (H1 : (0 < 1)%Z) by lia.
  assert (H4 : (1 <= 4)%Z) by lia.
  split; [exact H0|]. split; [exact H1|]. split; [exact H4|].
  exact (vertex_count_by_level 0 1 H0 H1 H4).
Defined.

(** Removing the outer box of [two_boxes], which has one descendant. *)
Lemma remove_node_effect_witness :
  wf two_boxes_model two_boxes_store /\
  2 ∈ all_nodes two_boxes_model /\ 2 <> root two_boxes_model /\
  descendants (nodes two_boxes_store) 2 [4] /\
  exists m' σ' nd p pd pd',
    remove_node (Some 2) two_boxes_model two_boxes_store = Some (m', σ') /\
    nodes two_boxes_store !! 2 = Some nd /\ parent nd = Some p /\
    nodes two_boxes_store !! p = Some pd /\ nodes σ' !! p = Some pd' /\
    2 ∈ children pd /\ children pd' = erase_all 2 (children pd) /\
    length (children pd) = S (length (children pd')) /\
    length (all_nodes two_boxes_model) = length (all_nodes m') + (length [4] + 1) /\
    (forall x, x ∈ all_nodes m' <-> x ∈ all_nodes two_boxes_model /\ x <> 2 /\ x ∉ [4]).
Proof.
  assert (H : 2 ∈ all_nodes two_boxes_model) by (apply list_elem_of_In; simpl; tauto).
  assert (Hne : 2 <> root two_boxes_model) by (simpl; lia).
  split; [exact two_boxes_wf|]. split; [exact H|]. split; [exact Hne|].
  split; [exact two_boxes_descendants|].
  exact (proj2 (proj2 (remove_node_effect two_boxes_model two_boxes_store two_boxes_wf))
               2 [4] H Hne two_boxes_descendants).
Defined.

(** The registry of [two_boxes]. *)
Lemma registry_is_reachable_set_witness :
  built two_boxes_model two_boxes_store /\
  NoDup (all_nodes two_boxes_model) /\
  (forall x, x ∈ all_nodes two_boxes_model
             <-> reach (nodes two_boxes_store) (root two_boxes_model) x) /\
  (forall o, operation_valid two_boxes_model o ->
             exists m' σ', run_operation o two_boxes_model two_boxes_store = Some (m', σ')).
Proof.
  split; [exact two_boxes_built|].
  exact (registry_is_reachable_set two_boxes_model two_boxes_store two_boxes_built).
Defined.

(** Loading [noisy_file]: only the box line counts. *)
Lemma load_from_file_passes_over_bad_lines_witness :
  wf (root_model 0) (root_store 0) /\
  List.filter extractable noisy_file = [box_line] /\
  (files noisy_disk !! "scene.mod" = None ->
   load_from_file "scene.mod" (root_model 0) (root_store 0) noisy_disk
   = Some (false, root_model 0, root_store 0)) /\
  (forall lines, files noisy_disk !! "scene.mod" = Some lines ->
     exists m' σ',
       load_from_file "scene.mod" (root_model 0) (root_store 0) noisy_disk
       = Some (true, m', σ') /\
       load_from_file "scene.mod" (root_model 0) (root_store 0)
         (with_file "scene.mod" (List.filter extractable lines) noisy_disk)
       = Some (true, m', σ')) /\
  (forall line st, extractable line = false -> load_line line st = Some st) /\
  (forall line more r,
     extract_line line = Some r -> field_end (list_ascii_of_string more) ->
     extract_line (line ++ more) = Some r /\
     forall m0 σ0, wf m0 σ0 ->
       exists m' σ' node,
         load_line (line ++ more) (m0, σ0, all_nodes m0) = Some (m', σ', all_nodes m') /\
         load_line (line ++ more) (m0, σ0, all_nodes m0)
         = load_line line (m0, σ0, all_nodes m0) /\
         all_nodes m' = all_nodes m0 ++ [node] /\ (node ∉ all_nodes m0)).
Proof.
  split; [exact (root_wf 0)|]. split; [exact noisy_file_filter|].
  exact (load_from_file_passes_over_bad_lines "scene.mod" (root_model 0) (root_store 0)
           noisy_disk (root_wf 0)).
Defined.

(** Loading [orphan_line] into a fresh graph. *)
Lemma out_of_range_parent_goes_to_root_witness :
  wf (root_model 0) (root_store 0) /\ extract_line orphan_line = Some orphan_record /\
  (r_parentIdx orphan_record < 0
   \/ Z.of_nat (length (all_nodes (root_model 0))) <= r_parentIdx orphan_record)%Z /\
  exists m' σ' node nd rd,
    load_line orphan_line (root_model 0, root_store 0, all_nodes (root_model 0))
    = Some (m', σ', all_nodes m') /\
    all_nodes m' = all_nodes (root_model 0) ++ [node] /\
    (node ∉ all_nodes (root_model 0)) /\ root m' = root (root_model 0) /\
    nodes σ' !! node = Some nd /\ parent nd = Some (root (root_model 0)) /\
    nodes σ' !! root (root_model 0) = Some rd /\ node ∈ children rd.
Proof.
  assert (H : (r_parentIdx orphan_record < 0
               \/ Z.of_nat (length (all_nodes (root_model 0))) <= r_parentIdx orphan_record)%Z)
    by (right; simpl; lia).
  split; [exact (root_wf 0)|]. split; [exact orphan_line_extract|]. split; [exact H|].
  exact (out_of_range_parent_goes_to_root (root_model 0) (root_store 0) orphan_line
           orphan_record (root_wf 0) orphan_line_extract H).
Defined.

(** The shapes of [two_boxes]. *)
Lemma remove_node_keeps_shapes_witness :
  wf two_boxes_model two_boxes_store /\
  (forall node, valid_pointer two_boxes_model node ->
     exists m' σ', remove_node node two_boxes_model two_boxes_store = Some (m', σ') /\
       owned_shapes m' = owned_shapes two_boxes_model /\
       shapes σ' = shapes two_boxes_store /\
       forall s, s ∈ owned_shapes two_boxes_model -> is_Some (shapes σ' !! s)) /\
  (forall sh p, valid_pointer two_boxes_model p ->
     exists node m' σ', create_shape sh p two_boxes_model two_boxes_store
                        = Some (node, m', σ') /\
       forall s, s ∈ owned_shapes two_boxes_model ->
                 s ∈ owned_shapes m' /\ shapes σ' !! s = shapes two_boxes_store !! s) /\
  (forall filename fs, files fs !! filename = None ->
     load_from_file filename two_boxes_model two_boxes_store fs
     = Some (false, two_boxes_model, two_boxes_store)) /\
  (forall filename fs lines, files fs !! filename = Some lines ->
     exists m' σ', load_from_file filename two_boxes_model two_boxes_store fs
                   = Some (true, m', σ') /\
       forall s, s ∈ owned_shapes two_boxes_model -> shapes σ' !! s = None) /\
  (exists σ', delete_model two_boxes_model two_boxes_store = Some σ' /\ shapes σ' = ∅).
Proof.
  split; [exact two_boxes_wf|].
  exact (remove_node_keeps_shapes two_boxes_model two_boxes_store two_boxes_wf).
Defined.

(** The box scene with the formatter [fmt_bit]. *)
Lemma save_load_box_yields_three_nodes_witness :
  fmt_bit 0%R = "0" /\ fmt_bit 1%R = "1" /\ writable open_disk "a.mod" = true /\
  exists box m σ m' σ' extra loaded nd_extra nd_loaded,
    box_scene = Some (box, m, σ) /\ length (all_nodes m) = 2 /\
    save_then_load fmt_bit "a.mod" m σ open_disk = Some (true, m', σ') /\
    all_nodes m' = [root m'; extra; loaded] /\ length (all_nodes m') = 3 /\
    nodes σ' !! extra = Some nd_extra /\ shape nd_extra = None /\
    parent nd_extra = Some (root m') /\
    nodes σ' !! loaded = Some nd_loaded /\ parent nd_loaded = Some (root m') /\
    (exists sl, shape nd_loaded = Some sl /\ shapetype <$> shapes σ' !! sl = Some BOX_SHAPE) /\
    translation_offset nd_loaded = mk_vec3 0 0 0 /\
    scale_diagonal nd_loaded = mk_vec3 1 1 1 /\
    color_rgb nd_loaded = mk_vec3 1 1 1 /\
    rotation nd_loaded = mat4_identity.
Proof.
  split; [exact fmt_bit_0|]. split; [exact fmt_bit_1|]. split; [reflexivity|].
  exact (save_load_box_yields_three_nodes fmt_bit open_disk fmt_bit_0 fmt_bit_1 eq_refl).
Defined.

(** A sphere of level 1 under the root of a fresh graph. *)
Lemma rotate_plus_minus_restores_sphere_witness :
  wf (root_model 0) (root_store 0) /\ valid_pointer (root_model 0) None /\
  exists node m' σ' nd a1 nd1,
    create_sphere 1 None (root_model 0) (root_store 0) = Some (node, m', σ') /\
    nodes σ' !! node = Some nd /\ rotation nd = mat4_identity /\
    (exists sl, shape nd = Some sl /\ shapes σ' !! sl = Some (sphere_t 1)) /\
    handle_key fmt_bit KEY_EQUAL PRESS (rotating_about_y m' node σ' open_disk) = Some a1 /\
    nodes (heap a1) !! node = Some nd1 /\
    rotation nd1 = mat4_mul (pivot_rotation (vertex_mean (sphere_t 1)) (radians 10)
                                            (mk_vec3 0 1 0))
                            (rotation nd) /\
    handle_key fmt_bit KEY_MINUS PRESS a1 = Some (rotating_about_y m' node σ' open_disk) /\
    forall a2 nd2, handle_key fmt_bit KEY_MINUS PRESS a1 = Some a2 ->
                   nodes (heap a2) !! node = Some nd2 -> rotation nd2 = rotation nd.
Proof.
  split; [exact (root_wf 0)|]. split; [exact I|].
  exact (rotate_plus_minus_restores_sphere fmt_bit open_disk (root_model 0) (root_store 0)
           1 None (root_wf 0) I).
Defined.

(** ** A deeper scene through save and load *)

Lemma two_boxes_facts :
  collect two_boxes_store 0 [] = Some [0; 2; 4] /\
  nodes two_boxes_store !! 0 = Some (set_children [2] (fresh_node None None)) /\
  nodes two_boxes_store !! 2 = Some (set_children [4] (fresh_node (Some 1) (Some 0))) /\
  nodes two_boxes_store !! 4 = Some (fresh_node (Some 3) (Some 2)) /\
  shapetype <$> shapes two_boxes_store !! 1 = Some BOX_SHAPE /\
  shapetype <$> shapes two_boxes_store !! 3 = Some BOX_SHAPE.
Proof. split_and!; by vm_compute. Qed.

Lemma save_two_boxes fmt fs :
  fmt 0%R = "0" -> fmt 1%R = "1" -> writable fs "a.mod" = true ->
  save_to_file fmt "a.mod" two_boxes_model two_boxes_store fs
  = Some (true, with_file "a.mod" [root_line; box_line; inner_box_line] fs).
Proof.
  intros H0 H1 Hw. destruct two_boxes_facts as (Hc & Hn0 & Hn2 & Hn4 & Hs1 & Hs3).
  unfold save_to_file. rewrite Hw. cbn [negb root two_boxes_model].
  rewrite Hc. cbn [mbind option_bind mapM]. unfold save_line. rewrite Hn0, Hn2, Hn4.
  cbn -[String.append stream.show_int two_boxes_store].
  destruct (shapes two_boxes_store !! 1) as [sh1|]; [|done]. injection Hs1 as Hs1.
  destruct (shapes two_boxes_store !! 3) as [sh3|]; [|done]. injection Hs3 as Hs3.
  cbn -[String.append stream.show_int]. rewrite Hs1, Hs3, H0, H1. reflexivity.
Qed.

Lemma load_two_boxes_file : exists σ' nd2 nd6,
  load_lines [root_line; box_line; inner_box_line] (root_model 1, root_store 1, [1])
  = Some (mk_model 1 [1; 2; 4; 6] [3; 5], σ', [1; 2; 4; 6]) /\
  nodes σ' !! 2 = Some nd2 /\ shape nd2 = None /\
  nodes σ' !! 6 = Some nd6 /\ shape nd6 = Some 5 /\ parent nd6 = Some 2.
Proof.
  eexists _, _, _. split; [vm_compute; reflexivity|].
  split; [vm_compute; reflexivity|]. split; [reflexivity|].
  split; [vm_compute; reflexivity|]. done.
Qed.

(** Saved and loaded, the box below a box comes back below the node made
    from the line of the root: the indices of the file count from the
    saved root, those of the loader from one node earlier. *)
Lemma save_load_two_boxes_moves_inner_box (fmt : R -> string) (fs : filesystem) :
  fmt 0%R = "0" -> fmt 1%R = "1" -> writable fs "a.mod" = true ->
  exists m' σ' extra outer inner nd_extra nd_inner,
    save_then_load fmt "a.mod" two_boxes_model two_boxes_store fs = Some (true, m', σ') /\
    all_nodes m' = [root m'; extra; outer; inner] /\
    nodes σ' !! extra = Some nd_extra /\ shape nd_extra = None /\
    nodes σ' !! inner = Some nd_inner /\ parent nd_inner = Some extra.
Proof.
  intros H0 H1 Hw.
  destruct load_two_boxes_file as (σ' & nd2 & nd6 & El & Hn2 & Hs2 & Hn6 & _ & Hp6).
  unfold save_then_load. rewrite (save_two_boxes fmt fs) by done. cbn [mbind option_bind].
  change empty_store with (mk_store ∅ ∅ 0). rewrite new_model_eq. cbn [mbind option_bind].
  pose proof (load_from_file_wf "a.mod" (root_model 0) (root_store 0)
                (with_file "a.mod" [root_line; box_line; inner_box_line] fs) (root_wf 0)) as H.
  simpl in H. rewrite lookup_insert_eq in H.
  destruct H as (m2 & σ2 & E2 & W2 & El2 & _). rewrite E2.
  change (S 0) with 1 in El2.
  change (mk_model 1 [1] []) with (root_model 1) in El2.
  change (mk_store _ ∅ 2) with (root_store 1) in El2.
  rewrite El in El2. injection El2 as <- <- _.
  exists (mk_model 1 [1; 2; 4; 6] [3; 5]), σ', 2, 4, 6, nd2, nd6. split_and!; done.
Qed.

(** * More on the meshes *)

Lemma shape_level_min (tessLevel : Z) :
  shape_level tessLevel = Z.min (tessLevel mod 2 ^ 32) 4.
Proof.
  unfold shape_level, u32. destruct (Z.ltb_spec 4 (tessLevel mod 2 ^ 32)); lia.
Qed.

Lemma shape_level_range (tessLevel : Z) : (0 <= shape_level tessLevel <= 4)%Z.
Proof.
  rewrite shape_level_min.
  pose proof (Z.mod_pos_bound tessLevel (2 ^ 32) ltac:(lia)). lia.
Qed.

Lemma shape_level_idemp (tessLevel : Z) :
  shape_level (shape_level tessLevel) = shape_level tessLevel.
Proof. apply shape_level_small, shape_level_range. Qed.

(** X1: a shape constructed with the argument [tessLevel] (an
    [unsigned int], hence read modulo 2^32) keeps the level
    [l = min tessLevel 4], between 0 and 4, and is the shape constructed at
    level [l].  Its mesh has then 6 * (6 * 2^l)^2 vertices for a sphere,
    12 * (8 * 2^l) for a cylinder and 6 * (8 * 2^l) for a cone, and every
    shape has exactly one colour per vertex. *)
Theorem mesh_size_by_level (tessLevel : Z) :
  let l := Z.min (tessLevel mod 2 ^ 32) 4 in
  (0 <= l <= 4)%Z /\
  level (sphere_t tessLevel) = l /\ level (cylinder_t tessLevel) = l /\
  level (cone_t tessLevel) = l /\ level (box_t tessLevel) = l /\
  sphere_t tessLevel = sphere_t l /\ cylinder_t tessLevel = cylinder_t l /\
  cone_t tessLevel = cone_t l /\
  Z.of_nat (length (vertices (sphere_t tessLevel))) = (6 * (6 * 2 ^ l) * (6 * 2 ^ l))%Z /\
  Z.of_nat (length (vertices (cylinder_t tessLevel))) = (12 * (8 * 2 ^ l))%Z /\
  Z.of_nat (length (vertices (cone_t tessLevel))) = (6 * (8 * 2 ^ l))%Z /\
  length (colors (sphere_t tessLevel)) = length (vertices (sphere_t tessLevel)) /\
  length (colors (cylinder_t tessLevel)) = length (vertices (cylinder_t tessLevel)) /\
  length (colors (cone_t tessLevel)) = length (vertices (cone_t tessLevel)) /\
  length (colors (box_t tessLevel)) = length (vertices (box_t tessLevel)).
Proof.
  cbv zeta. rewrite <- shape_level_min.
  pose proof (shape_level_range tessLevel) as Hr.
  unfold sphere_t, cylinder_t, cone_t, box_t, build_shape. cbn [level vertices colors].
  rewrite !shape_level_idemp, !length_map, makeSphere_length, makeCylinder_length,
    makeCone_length, !divisions_value by lia.
  set (l := shape_level tessLevel) in *.
  assert (0 < 2 ^ l)%Z by (apply Z.pow_pos_nonneg; lia).
  split_and!; try done; lia.
Qed.

(** ** Where the vertices lie *)

Local Open Scope R_scope.

Lemma polar_unit (phi theta : R) :
  (sin phi * cos theta) * (sin phi * cos theta) + cos phi * cos phi
  + (sin phi * sin theta) * (sin phi * sin theta) = 1.
Proof.
  pose proof (sin2_cos2 phi) as H1. pose proof (sin2_cos2 theta) as H2.
  unfold Rsqr in *.
  replace (sin phi * cos theta * (sin phi * cos theta) + cos phi * cos phi
           + sin phi * sin theta * (sin phi * sin theta))
    with (sin phi * sin phi * (sin theta * sin theta + cos theta * cos theta)
          + cos phi * cos phi) by ring.
  rewrite H2. lra.
Qed.

Lemma circle_quarter (theta : R) :
  (0.5 * cos theta) * (0.5 * cos theta) + (0.5 * sin theta) * (0.5 * sin theta) = 1 / 4.
Proof.
  pose proof (sin2_cos2 theta) as H. unfold Rsqr in H.
  replace (0.5 * cos theta * (0.5 * cos theta) + 0.5 * sin theta * (0.5 * sin theta))
    with (0.25 * (sin theta * sin theta + cos theta * cos theta)) by lra.
  rewrite H. lra.
Qed.

(** The points of a mesh, whatever their colours. *)
Lemma Forall_mesh {A} (P : vec4 -> Prop) (f : A -> list (vec4 * vec4)) (l : list A) :
  (forall a, Forall (fun vc => P (fst vc)) (f a)) ->
  Forall P (map fst (flat_map f l)).
Proof.
  intros Hf. apply Forall_map, Forall_flat_map, Forall_forall. intros a _. apply Hf.
Qed.

(** X2: at every tessellation level each vertex of a sphere lies on the
    unit sphere around the origin (x^2 + y^2 + z^2 = 1) and has w = 1. *)
Theorem sphere_vertices_on_unit_sphere (tessLevel : Z) :
  Forall (fun v => vx v * vx v + vy v * vy v + vz v * vz v = 1 /\ vw v = 1)
         (vertices (sphere_t tessLevel)).
Proof.
  unfold sphere_t, build_shape, makeSphere. cbn [vertices].
  apply Forall_mesh. intros i. apply Forall_flat_map, Forall_forall. intros j _.
  unfold sphere_quad. mesh_points ltac:(split; [apply polar_unit|reflexivity]).
Qed.

(** X3: at every tessellation level each vertex of a cylinder and of a
    cone lies in one of the planes y = 1/2 and y = -1/2, either on the
    circle of radius 1/2 around the Y axis or on the axis itself, and has
    w = 1. *)
Theorem cylinder_and_cone_vertices (tessLevel : Z) :
  let on_solid v :=
    (vy v = 1 / 2 \/ vy v = - (1 / 2)) /\
    (vx v * vx v + vz v * vz v = 1 / 4 \/ (vx v = 0 /\ vz v = 0)) /\ vw v = 1 in
  Forall on_solid (vertices (cylinder_t tessLevel)) /\
  Forall on_solid (vertices (cone_t tessLevel)).
Proof.
  cbv zeta. unfold cylinder_t, cone_t, build_shape, makeCylinder, makeCone. cbn [vertices].
  split.
  - rewrite map_app. apply Forall_app. split; apply Forall_mesh; intros i.
    + unfold cylinder_side. mesh_points ltac:(on_solid ltac:(apply circle_quarter)).
    + unfold cylinder_caps. mesh_points ltac:(on_solid ltac:(apply circle_quarter)).
  - apply Forall_mesh. intros i. unfold cone_slice. mesh_points ltac:(on_solid ltac:(apply circle_quarter)).
Qed.

Lemma makeBox_points :
  map fst makeBox =
  let h := 0.5 in
  let p0 := mk_vec4 (- h) (- h) (- h) 1 in let p1 := mk_vec4 h (- h) (- h) 1 in
  let p2 := mk_vec4 h h (- h) 1 in let p3 := mk_vec4 (- h) h (- h) 1 in
  let p4 := mk_vec4 (- h) (- h) h 1 in let p5 := mk_vec4 h (- h) h 1 in
  let p6 := mk_vec4 h h h 1 in let p7 := mk_vec4 (- h) h h 1 in
  [ p0; p1; p2; p0; p2; p3;  p4; p7; p6; p4; p6; p5;  p0; p4; p5; p0; p5; p1;
    p2; p6; p7; p2; p7; p3;  p0; p3; p7; p0; p7; p4;  p1; p5; p6; p1; p6; p2 ].
Proof. reflexivity. Qed.

(** X4: every vertex of a box is a corner of the cube of side 1 around the
    origin (each coordinate is 1/2 or -1/2, w = 1); the vertices sum to
    zero, so the pivot the editor computes for a box, the mean of its
    vertices, is the origin. *)
Theorem box_vertices_are_corners (tessLevel : Z) :
  Forall (fun v => (vx v = 1 / 2 \/ vx v = - (1 / 2)) /\ (vy v = 1 / 2 \/ vy v = - (1 / 2)) /\
                   (vz v = 1 / 2 \/ vz v = - (1 / 2)) /\ vw v = 1)
         (vertices (box_t tessLevel)) /\
  sum_vertices (vertices (box_t tessLevel)) = vec3_zero /\
  vertex_mean (box_t tessLevel) = vec3_zero.
Proof.
  unfold vertex_mean, box_t, build_shape. cbn [vertices]. rewrite makeBox_points. cbv zeta.
  assert (Hsum : sum_vertices
    (let h := 0.5 in
     let p0 := mk_vec4 (- h) (- h) (- h) 1 in let p1 := mk_vec4 h (- h) (- h) 1 in
     let p2 := mk_vec4 h h (- h) 1 in let p3 := mk_vec4 (- h) h (- h) 1 in
     let p4 := mk_vec4 (- h) (- h) h 1 in let p5 := mk_vec4 h (- h) h 1 in
     let p6 := mk_vec4 h h h 1 in let p7 := mk_vec4 (- h) h h 1 in
     [ p0; p1; p2; p0; p2; p3;  p4; p7; p6; p4; p6; p5;  p0; p4; p5; p0; p5; p1;
       p2; p6; p7; p2; p7; p3;  p0; p3; p7; p0; p7; p4;  p1; p5; p6; p1; p6; p2 ])
    = vec3_zero).
  { cbv [sum_vertices foldl vec3_add vec3_zero vx vy vz x3 y3 z3]. f_equal; lra. }
  cbv zeta in Hsum. split_and!.
  - mesh_points ltac:(split_and!; first [reflexivity | left; lra | right; lra]).
  - exact Hsum.
  - rewrite Hsum. unfold vec3_div, vec3_zero. cbn [x3 y3 z3 length].
    f_equal; unfold Rdiv; apply Rmult_0_l.
Qed.

Local Close Scope R_scope.

(** * More on the graph *)

(** ** Linking and unlinking a child *)

(** X5: for two distinct live nodes [p] and [c], [c] not yet a child of
    [p], [p->add_child(c)] appends [c] to the children of [p], and
    [p->remove_child(c)] after it brings [p] back to what it was; of the
    whole sequence only the parent pointer of [c] remains, which now
    points to [p]: [remove_child] does not reset it. *)
Theorem add_then_remove_child (σ : store) (p c : loc) (pd cd : model_node) :
  nodes σ !! p = Some pd -> nodes σ !! c = Some cd -> p <> c -> c ∉ children pd ->
  exists σ1 σ2 pd1,
    add_child p c σ = Some σ1 /\
    nodes σ1 !! p = Some pd1 /\ children pd1 = children pd ++ [c] /\
    remove_child p c σ1 = Some σ2 /\
    nodes σ2 !! p = Some pd /\
    nodes σ2 !! c = Some (set_parent (Some p) cd) /\
    (forall x, x <> c -> nodes σ2 !! x = nodes σ !! x) /\
    shapes σ2 = shapes σ /\ next_loc σ2 = next_loc σ.
Proof.
  intros Hp Hc Hne Hnin.
  eexists _, _, _. split_and!.
  - unfold add_child. rewrite Hp. cbn [mbind option_bind].
    rewrite lookup_insert_ne, Hc by done. reflexivity.
  - cbn [nodes set_nodes]. rewrite lookup_insert_ne by done. by rewrite lookup_insert_eq.
  - reflexivity.
  - unfold remove_child. cbn [nodes set_nodes].
    rewrite lookup_insert_ne by done. rewrite lookup_insert_eq. reflexivity.
  - cbn [nodes set_nodes children set_children]. rewrite lookup_insert_eq. f_equal.
    unfold erase_all. rewrite List.filter_app. simpl. rewrite Nat.eqb_refl. simpl.
    rewrite app_nil_r. fold (erase_all c (children pd)). rewrite erase_all_notin by done.
    by destruct pd.
  - cbn [nodes set_nodes]. rewrite lookup_insert_ne by done. by rewrite lookup_insert_eq.
  - intros x Hx. cbn [nodes set_nodes]. destruct (decide (x = p)) as [->|Hxp].
    + rewrite lookup_insert_eq, Hp. f_equal. cbn [children set_children].
      unfold erase_all. rewrite List.filter_app. simpl. rewrite Nat.eqb_refl. simpl.
      rewrite app_nil_r. fold (erase_all c (children pd)). rewrite erase_all_notin by done.
      by destruct pd.
    + by rewrite !lookup_insert_ne.
  - reflexivity.
  - reflexivity.
Qed.

(** ** The traversal lists parents first *)

Lemma parents_first_weaken h seen seen' l :
  parents_first h seen l -> seen ⊆ seen' -> parents_first h seen' l.
Proof.
  intros H. revert seen'. induction H as [|seen x xd p l Hx Hp Hin _ IH]; intros seen' Hsub.
  - constructor.
  - econstructor; [done|done|by apply Hsub|]. apply IH. intros y [->|Hy]%elem_of_cons.
    + by left.
    + right. by apply Hsub.
Qed.

Lemma parents_first_app h seen l1 l2 :
  parents_first h seen l1 -> parents_first h seen l2 -> parents_first h seen (l1 ++ l2).
Proof.
  intros H1. revert l2. induction H1 as [|seen x xd p l Hx Hp Hin _ IH]; intros l2 H2; [done|].
  simpl. econstructor; [done..|]. apply IH. eapply parents_first_weaken; [done|].
  intros y Hy. by right.
Qed.

(** The parent of the node at position [i] is in [seen] or at an earlier
    position. *)
Lemma parents_first_lookup h seen l i x :
  parents_first h seen l -> l !! i = Some x ->
  exists xd p, h !! x = Some xd /\ parent xd = Some p /\ (p ∈ seen \/ p ∈ take i l).
Proof.
  intros H. revert i. induction H as [|seen y yd p l Hy Hp Hin _ IH]; intros i Hi; [done|].
  destruct i as [|i].
  - injection Hi as <-. exists yd, p. split_and!; [done..|by left].
  - destruct (IH i Hi) as (xd & q & Hx & Hq & Hor). exists xd, q. split_and!; [done..|].
    simpl. destruct Hor as [[->|?]%elem_of_cons|?].
    + right. by left.
    + by left.
    + right. by right.
Qed.

Lemma collect_fold_none fuel (h : gmap loc model_node) cs :
  foldl (fun acc c => out' ← acc; collect_rec fuel h c out') None cs = None.
Proof. by induction cs. Qed.

Section Preorder.
Context (h : gmap loc model_node) (bound : loc) (Hth : tree_heap h bound).

(** What [collect] appends: the start node, then nodes whose parents come
    first. *)
Lemma collect_rec_parents_first fuel : forall n out r,
    collect_rec fuel h n out = Some r ->
    exists l, r = out ++ n :: l /\ parents_first h [n] l.
  Proof.
    induction fuel as [|fuel IH]; intros n out r E; [done|].
    simpl in E. destruct (h !! n) as [nd|] eqn:Hn; [|done]. cbn [mbind option_bind] in E.
    assert (Hfold : forall cs acc r, cs ⊆ children nd ->
              foldl (fun acc c => out' ← acc; collect_rec fuel h c out') (Some acc) cs = Some r ->
              exists l, r = acc ++ l /\ parents_first h [n] l).
    { clear E r. induction cs as [|c cs IHcs]; intros acc r Hsub E.
      - injection E as <-. exists []. split; [by rewrite app_nil_r|constructor].
      - simpl in E. destruct (collect_rec fuel h c acc) as [r1|] eqn:E1;
          [|by rewrite collect_fold_none in E].
        destruct (IH c acc r1 E1) as (lc & -> & Hlc).
        destruct (IHcs (acc ++ c :: lc) r) as (l2 & -> & Hl2); [by intros y Hy; apply Hsub; right|done|].
        exists (c :: lc ++ l2). split; [by rewrite <- app_assoc|].
        destruct (th_child _ _ Hth n nd c Hn) as (_ & _ & cd & Hcd & Hpar); [apply Hsub; by left|].
        econstructor; [done|done|by left|]. apply parents_first_app.
        + eapply parents_first_weaken; [done|]. intros y ->%list_elem_of_singleton. by left.
        + eapply parents_first_weaken; [done|]. intros y ->%list_elem_of_singleton. right. by left. }
    destruct (Hfold (children nd) (out ++ [n]) r) as (l & -> & Hl); [done|done|].
    exists l. split; [by rewrite <- app_assoc|done].
  Qed.
End Preorder.

(** The search loop of [save_to_file]: the first position of [p]. *)
Lemma index_of_spec p : forall l k,
  ((p ∉ l) /\ index_of p l k = (-1)%Z) \/
  exists j, index_of p l k = (k + Z.of_nat j)%Z /\ l !! j = Some p /\ p ∉ take j l.
Proof.
  induction l as [|x l IH]; intros k.
  - left. split; [apply not_elem_of_nil|done].
  - simpl. destruct (Nat.eqb_spec x p) as [->|Hne].
    + right. exists 0. split_and!; [lia|done|apply not_elem_of_nil].
    + destruct (IH (k + 1)%Z) as [[Hnin E]|(j & E & Hj & Hnin)].
      * left. split; [|done]. by intros [?|?]%elem_of_cons.
      * right. exists (S j). split_and!; [lia|done|]. simpl. by intros [?|?]%elem_of_cons.
Qed.

(** The traversal from the root of a well-formed model. *)
Lemma collect_root m σ :
  wf m σ ->
  exists l, collect σ (root m) [] = Some (root m :: l) /\ NoDup (root m :: l) /\
            (forall x, x ∈ root m :: l <-> x ∈ all_nodes m) /\
            parents_first (nodes σ) [root m] l.
Proof.
  intros W. pose proof (wf_tree _ _ W) as T.
  destruct (wf_root _ _ W) as (rd & Hr & _).
  destruct (collect_rec_spec (nodes σ) (next_loc σ) T (next_loc σ) (root m) [])
    as (l & E & Nl & Ml); [eauto|apply (wf_next _ _ W); eauto|lia|].
  exists l. split_and!; [done|done| |].
  - intros x. by rewrite Ml, (wf_reach _ _ _ W).
  - destruct (collect_rec_parents_first _ _ T _ _ _ _ E) as (l' & El & Hpf).
    simpl in El. by injection El as <-.
Qed.

(** The parent of a node of the traversal stands at an earlier position. *)
Lemma parents_first_position h r l i n :
  parents_first h [r] l -> (r :: l) !! S i = Some n ->
  exists nd p j, h !! n = Some nd /\ parent nd = Some p /\ j <= i /\ (r :: l) !! j = Some p.
Proof.
  intros Hpf Hi.
  destruct (parents_first_lookup _ _ _ _ _ Hpf Hi) as (nd & p & Hn & Hp & Hor).
  exists nd, p.
  destruct Hor as [->%list_elem_of_singleton|Hin].
  - exists 0. split_and!; [done|done|lia|done].
  - apply list_elem_of_lookup in Hin as [j Hj].
    apply lookup_take_Some in Hj as [Hj Hlt].
    exists (S j). split_and!; [done|done|lia|done].
Qed.

(** X6: in a well-formed model [root->collect] returns the root first,
    then every other registered node exactly once (the result is a
    permutation of [all_nodes]), and every node but the root comes after
    its parent. *)
Theorem collect_lists_registry_parents_first (m : model_t) (σ : store) :
  wf m σ ->
  exists l,
    collect σ (root m) [] = Some (root m :: l) /\
    root m :: l ≡ₚ all_nodes m /\
    forall i n, (root m :: l) !! S i = Some n ->
      exists nd p j, nodes σ !! n = Some nd /\ parent nd = Some p /\
                     j <= i /\ (root m :: l) !! j = Some p.
Proof.
  intros W. destruct (collect_root m σ W) as (l & E & Nl & Ml & Hpf).
  exists l. split_and!; [done| |].
  - apply NoDup_Permutation; [done|apply W|done].
  - intros i n Hi. by eapply parents_first_position.
Qed.

(** ** Creating a node and removing it again *)

Lemma erase_all_snoc c l : c ∉ l -> erase_all c (l ++ [c]) = l.
Proof.
  intros Hc. unfold erase_all. rewrite List.filter_app. simpl. rewrite Nat.eqb_refl. simpl.
  rewrite app_nil_r. by apply erase_all_notin.
Qed.

Lemma root_in_registry m σ : wf m σ -> root m ∈ all_nodes m.
Proof.
  intros W. apply (wf_live _ _ W). destruct (wf_root _ _ W) as (rd & -> & _). eauto.
Qed.

(** What the [create_*] members return and leave behind. *)
Lemma create_shape_eq sh p m σ :
  wf m σ -> valid_pointer m p ->
  exists qd,
    nodes σ !! default (root m) p = Some qd /\
    create_shape sh p m σ
    = Some (S (next_loc σ),
            mk_model (root m) (all_nodes m ++ [S (next_loc σ)])
                     (owned_shapes m ++ [next_loc σ]),
            attach (Some (next_loc σ)) (default (root m) p) qd
                   (mk_store (nodes σ) (<[next_loc σ := sh]> (shapes σ)) (S (next_loc σ)))).
Proof.
  intros W Hp.
  assert (Hq : default (root m) p ∈ all_nodes m).
  { destruct p; [done|]. by apply (root_in_registry m σ). }
  apply (wf_live _ _ W) in Hq as [qd Hqd]. exists qd. split; [done|].
  assert (Hqn : default (root m) p < next_loc σ) by (apply (wf_next _ _ W); eauto).
  unfold create_shape, new_shape. cbv beta iota zeta. cbn [root all_nodes owned_shapes].
  replace (match p with Some p0 => p0 | None => root m end) with (default (root m) p)
    by (by destruct p).
  rewrite (new_model_node_attach _ _ qd) by (done || (simpl; lia)). reflexivity.
Qed.

(** X7: creating a shape node under a registered parent and removing that
    node at once gives back the node graph and the registry of before,
    but not the memory: the shape made for the node stays in
    [owned_shapes] and stays allocated. *)
Theorem create_then_remove (sh : shape_t) (p : option loc) (m : model_t) (σ : store) :
  wf m σ -> valid_pointer m p ->
  exists node m1 σ1 m2 σ2,
    create_shape sh p m σ = Some (node, m1, σ1) /\
    remove_node (Some node) m1 σ1 = Some (m2, σ2) /\
    root m2 = root m /\ all_nodes m2 = all_nodes m /\ nodes σ2 = nodes σ /\
    owned_shapes m2 = owned_shapes m ++ [next_loc σ] /\
    shapes σ2 = <[next_loc σ := sh]> (shapes σ) /\
    (next_loc σ ∉ owned_shapes m) /\ next_loc σ2 = S (S (next_loc σ)).
Proof.
  intros W Hp. pose proof (wf_tree _ _ W) as T.
  destruct (create_shape_eq sh p m σ W Hp) as (qd & Hqd & Hcreate).
  set (q := default (root m) p) in *.
  assert (Hqn : q < next_loc σ) by (apply (wf_next _ _ W); eauto).
  set (sl := next_loc σ) in *. set (node := S sl) in *.
  set (σ0 := mk_store (nodes σ) (<[sl := sh]> (shapes σ)) node) in *.
  assert (Hnode_all : node ∉ all_nodes m).
  { intros Hin%(wf_live _ _ W)%(wf_next _ _ W). unfold node, sl in Hin. lia. }
  assert (Hnode_ch : node ∉ children qd).
  { intros Hin. destruct (th_child _ _ T _ _ _ Hqd Hin) as (_ & Hlt & _).
    unfold node, sl in Hlt. lia. }
  assert (Hroot : node <> root m).
  { intros E. apply Hnode_all. rewrite E. by apply (root_in_registry m σ). }
  eexists node, _, _, _, _. split; [exact Hcreate|].
  split_and!.
  - unfold remove_node. cbn [root all_nodes owned_shapes].
    rewrite (proj2 (Nat.eqb_neq node (root m)) Hroot).
    rewrite attach_lookup. change (next_loc σ0) with node. rewrite decide_True by done.
    cbn [mbind option_bind parent fresh_node]. unfold remove_child.
    rewrite attach_lookup. change (next_loc σ0) with node.
    rewrite decide_False, decide_True by (done || lia). cbn [mbind option_bind].
    unfold collect, delete_node. cbn [nodes next_loc set_nodes attach set_children children].
    rewrite erase_all_snoc by done.
    cbn [collect_rec delete_node_rec].
    rewrite !lookup_insert_ne, !lookup_insert_eq by lia.
    cbn [mbind option_bind children fresh_node foldl]. rewrite app_nil_l.
    cbn [foldl]. rewrite Nat.eqb_refl. rewrite erase_all_snoc by done. reflexivity.
  - reflexivity.
  - reflexivity.
  - cbn [nodes set_nodes]. apply map_eq. intros x.
    destruct (decide (x = node)) as [->|Hx].
    { rewrite lookup_delete_eq. symmetry. apply eq_None_not_Some.
      intros Hin%(wf_next _ _ W). unfold node, sl in Hin. lia. }
    rewrite lookup_delete_ne by done.
    destruct (decide (x = q)) as [->|Hxq].
    + rewrite lookup_insert_eq, Hqd. by destruct qd.
    + by rewrite !lookup_insert_ne.
  - reflexivity.
  - reflexivity.
  - intros Hin%(wf_shapes_live _ _ W)%(wf_shapes_next _ _ W). unfold sl in Hin. lia.
  - reflexivity.
Qed.

(** * More on saving and loading *)

(** ** Integers written and read back *)

Lemma uint_span (d : Decimal.uint) (s' : list ascii) :
  field_end s' ->
  span_digits (list_ascii_of_string (NilEmpty.string_of_uint d) ++ s')
  = (list_ascii_of_string (NilEmpty.string_of_uint d), s').
Proof.
  intros Hs. induction d; cbn -[span_digits];
    [|change (span_digits (?c :: ?s)) with
        (if is_digit c then let '(ds, rest) := span_digits s in (c :: ds, rest) else ([], c :: s));
      cbn [is_digit nat_of_ascii]; rewrite IHd; reflexivity ..].
  destruct s' as [|c s']; [done|]. simpl in *. by rewrite (space_not_digit c Hs).
Qed.

Lemma uint_value_acc (d : Decimal.uint) : forall acc : positive,
  foldl (fun a c => (10 * a + digit_value c)%Z) (Z.pos acc)
        (list_ascii_of_string (NilEmpty.string_of_uint d))
  = Z.pos (Pos.of_uint_acc d acc).
Proof.
  induction d; intros acc; cbn [NilEmpty.string_of_uint list_ascii_of_string foldl Pos.of_uint_acc];
    [done|rewrite <- IHd; f_equal; unfold digit_value; simpl; lia ..].
Qed.

Lemma uint_value (d : Decimal.uint) :
  digits_value (list_ascii_of_string (NilEmpty.string_of_uint d)) = Z.of_N (Pos.of_uint d).
Proof.
  unfold digits_value.
  induction d; cbn [NilEmpty.string_of_uint list_ascii_of_string foldl Pos.of_uint];
    [done|exact IHd|cbn [Z.of_N]; rewrite <- uint_value_acc; f_equal ..].
Qed.

(** The first character of a number is neither white space nor a sign. *)
Lemma uint_head (d : Decimal.uint) (s' : list ascii) :
  d <> Decimal.Nil ->
  let s := list_ascii_of_string (NilEmpty.string_of_uint d) ++ s' in
  skip_ws s = s /\ read_sign s = (false, s) /\
  list_ascii_of_string (NilEmpty.string_of_uint d) <> [].
Proof. destruct d; [done|..]; intros _; cbv zeta; by split_and!. Qed.

Lemma read_int_pos (p : positive) (s' : list ascii) :
  field_end s' -> (Z.pos p < 2 ^ 31)%Z ->
  read_int (list_ascii_of_string (NilEmpty.string_of_uint (Pos.to_uint p)) ++ s')
  = Some (Z.pos p, s').
Proof.
  intros Hs Hp. pose proof (Unsigned.to_uint_nonnil p) as Hnil.
  destruct (uint_head (Pos.to_uint p) s' Hnil) as (Hws & Hsign & Hne).
  unfold read_int. rewrite Hws, Hsign, uint_span by done.
  destruct (list_ascii_of_string _) as [|c cs] eqn:E; [done|]. rewrite <- E.
  rewrite uint_value, DecimalPos.Unsigned.of_to. cbn [apply_sign Z.of_N].
  destruct (Z.leb_spec (- 2 ^ 31) (Z.pos p)); [|lia].
  destruct (Z.ltb_spec (Z.pos p) (2 ^ 31)); [done|lia].
Qed.

(** An [int] written with [<<] and read with [>>] is the same [int]. *)
Lemma read_show_int (z : Z) (s' : list ascii) :
  field_end s' -> (- 2 ^ 31 <= z < 2 ^ 31)%Z ->
  read_int (list_ascii_of_string (show_int z) ++ s') = Some (z, s').
Proof.
  intros Hs Hz. unfold show_int. destruct z as [|p|p]; cbn [Z.to_int NilZero.string_of_int].
  - cbn [NilZero.string_of_uint list_ascii_of_string List.app]. unfold read_int.
    cbn [skip_ws is_space nat_of_ascii]. simpl skip_ws. cbn [read_sign].
    pose proof (uint_span (Decimal.D0 Decimal.Nil) s' Hs) as Hsp.
    cbn [NilEmpty.string_of_uint list_ascii_of_string List.app] in Hsp. rewrite Hsp. reflexivity.
  - pose proof (Unsigned.to_uint_nonnil p) as Hnil.
    replace (NilZero.string_of_uint (Pos.to_uint p))
      with (NilEmpty.string_of_uint (Pos.to_uint p)) by (by destruct (Pos.to_uint p)).
    apply read_int_pos; [done|lia].
  - pose proof (Unsigned.to_uint_nonnil p) as Hnil.
    replace (NilZero.string_of_uint (Pos.to_uint p))
      with (NilEmpty.string_of_uint (Pos.to_uint p)) by (by destruct (Pos.to_uint p)).
    cbn [list_ascii_of_string List.app]. unfold read_int. simpl skip_ws. cbn [read_sign].
    rewrite uint_span by done.
    destruct (uint_head (Pos.to_uint p) s' Hnil) as (_ & _ & Hne).
    set (cs0 := list_ascii_of_string (NilEmpty.string_of_uint (Pos.to_uint p))) in *.
    assert (Hv : digits_value cs0 = Z.pos p).
    { unfold cs0. by rewrite uint_value, DecimalPos.Unsigned.of_to. }
    destruct cs0 as [|c cs]; [congruence|]. rewrite Hv.
    cbn [apply_sign]. change (- Z.pos p)%Z with (Z.neg p).
    destruct (Z.leb_spec (- 2 ^ 31) (Z.neg p)); [|lia].
    destruct (Z.ltb_spec (Z.neg p) (2 ^ 31)); [reflexivity|lia].
Qed.

(** ** The lines [save_to_file] writes *)

Lemma read_int_space (s : list ascii) : read_int (" "%char :: s) = read_int s.
Proof. reflexivity. Qed.

Lemma read_float_space (s : list ascii) : read_float (" "%char :: s) = read_float s.
Proof. reflexivity. Qed.

Lemma read_float_fmt (fmt : R -> string) (x : R) (s' : list ascii) :
  float_field (list_ascii_of_string (fmt x)) = true -> field_end s' ->
  exists v, read_float (" "%char :: list_ascii_of_string (fmt x) ++ s') = Some (v, s').
Proof.
  intros Hfmt Hs. unfold float_field in Hfmt.
  destruct (read_float (list_ascii_of_string (fmt x))) as [[v [|]]|] eqn:E; try done.
  exists v. rewrite read_float_space. exact (read_float_app _ s' v [] E Hs).
Qed.

Lemma read_float_zero (s : list ascii) :
  read_float (" "%char :: "0"%char :: " "%char :: s) = Some (0%R, " "%char :: s).
Proof.
  assert (E : lex_float (" "%char :: "0"%char :: " "%char :: s)
              = Some (0%Z, 0%Z, " "%char :: s)) by reflexivity.
  unfold read_float. rewrite E. cbn [mbind option_bind].
  change (float_overflow 0 0) with false. cbv iota. do 2 f_equal.
  unfold decimal_value. simpl. lra.
Qed.

Lemma read_float_one (s : list ascii) :
  read_float (" "%char :: "1"%char :: " "%char :: s) = Some (1%R, " "%char :: s).
Proof.
  assert (E : lex_float (" "%char :: "1"%char :: " "%char :: s)
              = Some (1%Z, 0%Z, " "%char :: s)) by reflexivity.
  unfold read_float. rewrite E. cbn [mbind option_bind].
  change (float_overflow 1 0) with false. cbv iota. do 2 f_equal.
  unfold decimal_value. simpl. lra.
Qed.

(** A line in the layout of [save_to_file] is read back in full: the two
    integers as written, the rotation as the identity quaternion. *)
Lemma extract_saved_line (fmt : R -> string) (type parentIdx : Z)
    (tx ty tz sx sy sz cr cg cb : R) :
  (forall x, x ∈ [tx; ty; tz; sx; sy; sz; cr; cg; cb] ->
             float_field (list_ascii_of_string (fmt x)) = true) ->
  (- 2 ^ 31 <= type < 2 ^ 31)%Z -> (- 2 ^ 31 <= parentIdx < 2 ^ 31)%Z ->
  exists r,
    extract_line (show_int type ++ " " ++ show_int parentIdx ++ " "
                  ++ fmt tx ++ " " ++ fmt ty ++ " " ++ fmt tz ++ " "
                  ++ "0 0 0 1 "
                  ++ fmt sx ++ " " ++ fmt sy ++ " " ++ fmt sz ++ " "
                  ++ fmt cr ++ " " ++ fmt cg ++ " " ++ fmt cb)%string = Some r /\
    r_type r = type /\ r_parentIdx r = parentIdx /\
    r_rx r = 0%R /\ r_ry r = 0%R /\ r_rz r = 0%R /\ r_rw r = 1%R.
Proof.
  intros Hfmt Ht Hp. unfold extract_line.
  rewrite !list_ascii_of_string_app. cbn [list_ascii_of_string List.app].
  rewrite read_show_int by done. cbn [mbind option_bind].
  rewrite read_int_space, read_show_int by done. cbn [mbind option_bind].
  repeat match goal with
  | |- context [read_float (" "%char :: list_ascii_of_string (fmt ?x) ++ ?s)] =>
      let v := fresh "v" in let E := fresh "E" in let Hx := fresh "Hx" in
      assert (Hx : float_field (list_ascii_of_string (fmt x)) = true)
        by (apply Hfmt; repeat first [apply list_elem_of_here | apply list_elem_of_further]);
      destruct (read_float_fmt fmt x s Hx) as [v E]; [done|];
      rewrite E; clear E Hx; cbn [mbind option_bind]
  | |- context [read_float (" "%char :: "0"%char :: " "%char :: ?s)] =>
      rewrite (read_float_zero s); cbn [mbind option_bind]
  | |- context [read_float (" "%char :: "1"%char :: " "%char :: ?s)] =>
      rewrite (read_float_one s); cbn [mbind option_bind]
  end.
  assert (Hcb : float_field (list_ascii_of_string (fmt cb)) = true)
    by (apply Hfmt; repeat first [apply list_elem_of_here | apply list_elem_of_further]).
  destruct (read_float_fmt fmt cb [] Hcb I) as [v7 E]. rewrite app_nil_r in E. rewrite E.
  cbn [mbind option_bind]. eexists. split; [reflexivity|done].
Qed.

Lemma save_line_eq (fmt : R -> string) (σ : store) (nodes_ : list loc) (n : loc) :
  save_line fmt σ nodes_ n =
  (nd ← nodes σ !! n;
   type ← type_number σ nd;
   Some (show_int type ++ " " ++ show_int (parent_index nodes_ nd) ++ " "
        ++ fmt (x3 (translation_offset nd)) ++ " " ++ fmt (y3 (translation_offset nd)) ++ " "
        ++ fmt (z3 (translation_offset nd)) ++ " "
        ++ "0 0 0 1 "
        ++ fmt (x3 (scale_diagonal nd)) ++ " " ++ fmt (y3 (scale_diagonal nd)) ++ " "
        ++ fmt (z3 (scale_diagonal nd)) ++ " "
        ++ fmt (vx (color nd)) ++ " " ++ fmt (vy (color nd)) ++ " " ++ fmt (vz (color nd)))%string).
Proof. reflexivity. Qed.

Lemma type_number_range σ nd t : type_number σ nd = Some t -> (-1 <= t <= 3)%Z.
Proof.
  unfold type_number. destruct (shape nd) as [sl|]; [|intros [= <-]; lia].
  destruct (shapes σ !! sl) as [sh|]; [|done]. intros [= <-].
  destruct (shapetype sh); simpl; lia.
Qed.

Lemma index_of_range p l k : (0 <= k)%Z ->
  (-1 <= index_of p l k < k + Z.of_nat (length l))%Z.
Proof.
  intros Hk. destruct (index_of_spec p l k) as [[_ ->]|(j & -> & Hj & _)]; [lia|].
  apply lookup_lt_Some in Hj. lia.
Qed.

Lemma type_number_wf m σ n nd :
  wf m σ -> nodes σ !! n = Some nd -> is_Some (type_number σ nd).
Proof.
  intros W Hn. unfold type_number. destruct (shape nd) as [sl|] eqn:Hs; [|by eauto].
  destruct (wf_node_shape _ _ W _ _ _ Hn Hs) as [sh ->]. by eauto.
Qed.

(** [save_to_file] on a well-formed model: one line for every node of the
    traversal. *)
Lemma save_to_file_wf fmt filename m σ fs :
  wf m σ -> writable fs filename = true ->
  exists l lines,
    collect σ (root m) [] = Some (root m :: l) /\ NoDup (root m :: l) /\
    (forall x, x ∈ root m :: l <-> x ∈ all_nodes m) /\
    parents_first (nodes σ) [root m] l /\
    save_to_file fmt filename m σ fs = Some (true, with_file filename lines fs) /\
    Forall2 (fun n line => save_line fmt σ (root m :: l) n = Some line) (root m :: l) lines /\
    length lines = length (all_nodes m).
Proof.
  intros W Hw. destruct (collect_root m σ W) as (l & E & Nl & Ml & Hpf).
  assert (Hsome : is_Some (mapM (save_line fmt σ (root m :: l)) (root m :: l))).
  { apply mapM_is_Some, Forall_forall. intros n Hn%Ml%(wf_live _ _ W). destruct Hn as [nd Hn].
    unfold compose. rewrite save_line_eq, Hn. cbn [mbind option_bind].
    destruct (type_number_wf m σ n nd W Hn) as [t ->]. by eauto. }
  destruct Hsome as [lines Hlines].
  exists l, lines. split_and!; [done..| | |].
  - unfold save_to_file. rewrite Hw, E. cbn [negb mbind option_bind]. by rewrite Hlines.
  - by apply mapM_Some.
  - apply mapM_Some, Forall2_length in Hlines. rewrite <- Hlines.
    apply Permutation_length, NoDup_Permutation; [done|apply W|done].
Qed.

(** X8: on a well-formed model [save_to_file] always returns.  It returns
    [false] and leaves the disk alone when the file cannot be opened for
    writing; else it returns [true] and the file holds one line for every
    registered node, no other file being touched. *)
Theorem save_to_file_outcome (fmt : R -> string) (filename : string) (m : model_t)
    (σ : store) (fs : filesystem) :
  wf m σ ->
  exists ok fs',
    save_to_file fmt filename m σ fs = Some (ok, fs') /\
    ok = writable fs filename /\
    (ok = false -> fs' = fs) /\
    (ok = true ->
       exists lines, files fs' !! filename = Some lines /\
                     length lines = length (all_nodes m) /\
                     (forall other, other <> filename ->
                                    files fs' !! other = files fs !! other) /\
                     writable fs' = writable fs).
Proof.
  intros W. destruct (writable fs filename) eqn:Hw.
  - destruct (save_to_file_wf fmt filename m σ fs W Hw) as (l & lines & _ & _ & _ & _ & E & _ & Hlen).
    exists true, (with_file filename lines fs). split_and!; [done|done|done|].
    intros _. exists lines. split_and!; [|done| |done].
    + simpl. by rewrite lookup_insert_eq.
    + intros other Hne. simpl. by rewrite lookup_insert_ne.
  - exists false, fs. unfold save_to_file. rewrite Hw. split_and!; done.
Qed.

(** The index [save_to_file] writes for the parent of the node at position
    [i] of the traversal. *)
Lemma parent_index_earlier m σ l i n nd :
  wf m σ -> parents_first (nodes σ) [root m] l ->
  (root m :: l) !! i = Some n -> nodes σ !! n = Some nd ->
  match i with
  | 0 => parent_index (root m :: l) nd = (-1)%Z
  | S _ => (0 <= parent_index (root m :: l) nd < Z.of_nat i)%Z /\
           exists p, parent nd = Some p /\
                     (root m :: l) !! Z.to_nat (parent_index (root m :: l) nd) = Some p
  end.
Proof.
  intros W Hpf Hi Hn. unfold parent_index. destruct i as [|i].
  - injection Hi as <-. destruct (wf_root _ _ W) as (rd & Hr & Hp).
    rewrite Hr in Hn. injection Hn as <-. by rewrite Hp.
  - destruct (parents_first_position _ _ _ _ _ Hpf Hi) as (nd' & p & j0 & Hn' & Hp & Hj0 & Hpj).
    rewrite Hn in Hn'. injection Hn' as <-. rewrite Hp.
    destruct (index_of_spec p (root m :: l) 0) as [[Hnin _]|(j & Ej & Hj & Hnin)].
    + exfalso. apply Hnin. by eapply list_elem_of_lookup_2.
    + rewrite Ej. assert (j <= j0).
      { destruct (decide (j <= j0)) as [|Hgt]; [done|]. exfalso. apply Hnin.
        apply list_elem_of_lookup. exists j0. apply lookup_take_Some. split; [done|lia]. }
      split; [lia|]. exists p. split; [done|].
      replace (Z.to_nat (0 + Z.of_nat j)) with j by lia. done.
Qed.

(** X9: what [save_to_file] writes can be read back.  With a formatter
    whose output reads back as one [float], and fewer than 2^31 nodes,
    line [i] of the file is the line of the [i]-th node of the traversal,
    the extraction of [load_from_file] accepts it, its type is the node's
    shape type (-1 without a shape), its rotation fields are 0 0 0 1
    whatever the rotation of the node, and its parent index is -1 for the
    root and else the index of an earlier line, the line of the node's
    parent. *)
Theorem saved_lines_read_back (fmt : R -> string) (filename : string) (m : model_t)
    (σ : store) (fs : filesystem) :
  wf m σ -> writable fs filename = true -> readable fmt ->
  (Z.of_nat (length (all_nodes m)) < 2 ^ 31)%Z ->
  exists l lines,
    collect σ (root m) [] = Some l /\
    save_to_file fmt filename m σ fs = Some (true, with_file filename lines fs) /\
    length lines = length l /\
    forall i n nd, l !! i = Some n -> nodes σ !! n = Some nd ->
      exists line r,
        lines !! i = Some line /\ extract_line line = Some r /\
        type_number σ nd = Some (r_type r) /\
        (r_rx r, r_ry r, r_rz r, r_rw r) = (0%R, 0%R, 0%R, 1%R) /\
        match parent nd with
        | None => i = 0 /\ r_parentIdx r = (-1)%Z
        | Some p => (0 <= r_parentIdx r < Z.of_nat i)%Z /\
                    l !! Z.to_nat (r_parentIdx r) = Some p
        end.
Proof.
  intros W Hw Hfmt Hlen.
  destruct (save_to_file_wf fmt filename m σ fs W Hw)
    as (l & lines & E & Nl & Ml & Hpf & Esave & Hlines & Hll).
  assert (Hlen_l : length (root m :: l) = length (all_nodes m)).
  { apply Permutation_length, NoDup_Permutation; [done|apply W|done]. }
  exists (root m :: l), lines. split_and!; [done|done|congruence|].
  intros i n nd Hi Hn.
  destruct (Forall2_lookup_l _ _ _ _ _ Hlines Hi) as (line & Hline & Hsave).
  rewrite save_line_eq, Hn in Hsave. cbn [mbind option_bind] in Hsave.
  destruct (type_number σ nd) as [t|] eqn:Ht; [|done]. cbn [mbind option_bind] in Hsave.
  injection Hsave as <-.
  pose proof (type_number_range _ _ _ Ht) as Htr.
  pose proof (index_of_range) as Hir.
  assert (Hpr : (- 2 ^ 31 <= parent_index (root m :: l) nd < 2 ^ 31)%Z).
  { unfold parent_index. destruct (parent nd) as [p|]; [|lia].
    specialize (Hir p (root m :: l) 0%Z). lia. }
  destruct (extract_saved_line fmt t (parent_index (root m :: l) nd)
              (x3 (translation_offset nd)) (y3 (translation_offset nd))
              (z3 (translation_offset nd)) (x3 (scale_diagonal nd)) (y3 (scale_diagonal nd))
              (z3 (scale_diagonal nd)) (vx (color nd)) (vy (color nd)) (vz (color nd))
              (fun x _ => Hfmt x))
    as (r & Er & Hrt & Hrp & Hrx & Hry & Hrz & Hrw); [lia|done|].
  eexists _, r. split_and!; [done|exact Er|by rewrite Hrt|by rewrite Hrx, Hry, Hrz, Hrw|].
  pose proof (parent_index_earlier m σ l i n nd W Hpf Hi Hn) as Hidx. rewrite Hrp.
  destruct i as [|i].
  - injection Hi as <-. destruct (wf_root _ _ W) as (rd & Hr & Hp).
    rewrite Hr in Hn. injection Hn as <-. by rewrite Hp.
  - destruct Hidx as (Hrange & p & Hp & Hlook). by rewrite Hp.
Qed.

Lemma extractable_saved_lines fmt filename m σ fs :
  wf m σ -> writable fs filename = true -> readable_model fmt m σ ->
  (Z.of_nat (length (all_nodes m)) < 2 ^ 31)%Z ->
  exists lines,
    save_to_file fmt filename m σ fs = Some (true, with_file filename lines fs) /\
    length lines = length (all_nodes m) /\
    List.filter extractable lines = lines.
Proof.
  intros W Hw Hfmt Hlen.
  destruct (save_to_file_wf fmt filename m σ fs W Hw)
    as (l & lines & E & Nl & Ml & Hpf & Esave & Hlines & Hll).
  exists lines. split_and!; [done..|].
  assert (Hall : Forall (fun line => extractable line = true) lines).
  { apply Forall_lookup. intros i line Hline.
    destruct (Forall2_lookup_r _ _ _ _ _ Hlines Hline) as (n & Hn & Hsave).
    assert (Hreg : n ∈ all_nodes m) by (by eapply Ml, list_elem_of_lookup_2).
    rewrite save_line_eq in Hsave. destruct (nodes σ !! n) as [nd|] eqn:Hnd; [|done].
    cbn [mbind option_bind] in Hsave.
    destruct (type_number σ nd) as [t|] eqn:Ht; [|done]. cbn [mbind option_bind] in Hsave.
    injection Hsave as Hsave. subst line.
    pose proof (type_number_range _ _ _ Ht) as Htr.
    assert (Hlen_l : length (root m :: l) = length (all_nodes m)).
    { apply Permutation_length, NoDup_Permutation; [done|apply W|done]. }
    assert (Hpr : (- 2 ^ 31 <= parent_index (root m :: l) nd < 2 ^ 31)%Z).
    { unfold parent_index. destruct (parent nd) as [p|]; [|lia].
      pose proof (index_of_range p (root m :: l) 0%Z). lia. }
    destruct (extract_saved_line fmt t (parent_index (root m :: l) nd)
              (x3 (translation_offset nd)) (y3 (translation_offset nd))
              (z3 (translation_offset nd)) (x3 (scale_diagonal nd)) (y3 (scale_diagonal nd))
              (z3 (scale_diagonal nd)) (vx (color nd)) (vy (color nd)) (vz (color nd))
              (fun x => Hfmt n nd x Hreg Hnd))
      as (r & Er & _); [lia|done|].
    unfold translation_offset, scale_diagonal, vec3_of_vec4 in Er. cbn [x3 y3 z3] in Er.
    cbv beta. unfold extractable. by rewrite Er. }
  clear -Hall. induction Hall as [|line lines Hl _ IH]; [done|]. simpl. by rewrite Hl, IH.
Qed.

(** X10: when every number [save_to_file] writes for the model reads back
    as one [float] ([readable_model]: true of the text of a finite
    [float], false of [inf] and [nan]) and the model has fewer than 2^31
    nodes, saving a well-formed model and loading the file skips no line:
    every line written can be extracted, and the loaded model is well
    formed and has exactly one node more than the saved one, the line
    written for the saved root being loaded as a node of its own under
    the new root. *)
Theorem save_then_load_adds_a_node (fmt : R -> string) (filename : string) (m : model_t)
    (σ : store) (fs : filesystem) :
  wf m σ -> writable fs filename = true -> readable_model fmt m σ ->
  (Z.of_nat (length (all_nodes m)) < 2 ^ 31)%Z ->
  exists lines fs' m' σ',
    save_to_file fmt filename m σ fs = Some (true, fs') /\
    files fs' !! filename = Some lines /\
    Forall (fun line => extractable line = true) lines /\
    save_then_load fmt filename m σ fs = Some (true, m', σ') /\
    wf m' σ' /\
    length (all_nodes m') = S (length (all_nodes m)).
Proof.
  intros W Hw Hfmt Hlen.
  destruct (extractable_saved_lines fmt filename m σ fs W Hw Hfmt Hlen)
    as (lines & Esave & Hll & Hfilter).
  pose proof (load_from_file_wf filename (root_model 0) (root_store 0)
                (with_file filename lines fs) (root_wf 0)) as H.
  simpl in H. rewrite lookup_insert_eq in H. destruct H as (m' & σ' & El & W' & Elines & _).
  exists lines, (with_file filename lines fs), m', σ'. split_and!; [done| | | |done|].
  - simpl. by rewrite lookup_insert_eq.
  - rewrite <- Hfilter. apply Forall_forall. intros line Hin.
    apply list_elem_of_In, List.filter_In in Hin. tauto.
  - unfold save_then_load. rewrite Esave. cbn [mbind option_bind].
    change empty_store with (mk_store ∅ ∅ 0). rewrite new_model_eq. exact El.
  - rewrite (load_lines_count lines _ _ _ _ _ (root_wf 1) Elines), Hfilter. simpl. lia.
Qed.

(** ** What a load makes of a file *)

(** A property of the transform and colour of every node passes through
    the input loop when the loaded nodes have it. *)
Lemma load_lines_nodes_inv (P : model_node -> Prop) :
  (forall nd cs, P nd -> P (set_children cs nd)) ->
  (forall r s p, P (record_node r s p)) ->
  forall lines m σ m' σ' l',
    wf m σ -> (forall n nd, nodes σ !! n = Some nd -> P nd) ->
    load_lines lines (m, σ, all_nodes m) = Some (m', σ', l') ->
    forall n nd, nodes σ' !! n = Some nd -> P nd.
Proof.
  intros Hset Hrec. unfold load_lines.
  induction lines as [|line lines IH]; intros m σ m' σ' l' W HP E.
  - by injection E as <- <- _.
  - simpl in E. unfold load_line at 2 in E. destruct (extract_line line) as [r|].
    + destruct (load_record_spec m σ r W)
        as (m1 & σ1 & node & s & pd & E1 & W1 & _ & _ & _ & Hp & Hnode & Hp1 & Hother & _).
      cbv zeta in *. rewrite E1 in E. refine (IH _ _ _ _ _ W1 _ E).
      intros n nd Hn. destruct (decide (n = node)) as [->|Hn1].
      { rewrite Hnode in Hn. injection Hn as <-. apply Hrec. }
      destruct (decide (n = record_parent r m (all_nodes m))) as [->|Hn2].
      { rewrite Hp1 in Hn. injection Hn as <-. apply Hset. by eapply HP. }
      rewrite Hother in Hn by done. by eapply HP.
    + exact (IH _ _ _ _ _ W HP E).
Qed.

Lemma translate_identity_zero :
  glm.translate mat4_identity (mk_vec3 0 0 0) = mat4_identity.
Proof. mat_norm. f_equal; f_equal; lra. Qed.

Lemma scale_identity_one : glm.scale mat4_identity (mk_vec3 1 1 1) = mat4_identity.
Proof. mat_norm. f_equal; f_equal; lra. Qed.

(** X11: after a load that succeeds every node has the identity rotation,
    a pure translation, a pure axis scale and an opaque colour (alpha 1):
    rotations are never restored by [load_from_file]. *)
Theorem load_resets_rotations (filename : string) (m : model_t) (σ : store)
    (fs : filesystem) (lines : list string) :
  wf m σ -> files fs !! filename = Some lines ->
  exists m' σ',
    load_from_file filename m σ fs = Some (true, m', σ') /\
    forall n nd, nodes σ' !! n = Some nd ->
      rotation nd = mat4_identity /\
      (exists t, translation nd = glm.translate mat4_identity t) /\
      (exists s, scale nd = glm.scale mat4_identity s) /\
      vw (color nd) = 1%R.
Proof.
  intros W Hf. pose proof (load_from_file_wf filename m σ fs W) as H. rewrite Hf in H.
  destruct H as (m' & σ' & E & _ & El & _). exists m', σ'. split; [done|].
  apply (load_lines_nodes_inv
           (fun nd => rotation nd = mat4_identity /\
                      (exists t, translation nd = glm.translate mat4_identity t) /\
                      (exists s, scale nd = glm.scale mat4_identity s) /\
                      vw (color nd) = 1%R)
           ltac:(intros nd cs H; exact H)
           ltac:(intros r s p; cbn [record_node rotation translation scale color vw];
                 split_and!; eauto)
           lines (root_model (next_loc σ)) (root_store (next_loc σ)) m' σ' (all_nodes m')
           (root_wf (next_loc σ))); [|exact El].
  intros n nd Hn. cbn [root_store nodes] in Hn.
  apply lookup_singleton_Some in Hn as [<- <-].
  cbn [fresh_node rotation translation scale color vw]. split_and!; [done| | |done].
  - exists (mk_vec3 0 0 0). by rewrite translate_identity_zero.
  - exists (mk_vec3 1 1 1). by rewrite scale_identity_one.
Qed.

Lemma load_record_shapes r m σ nodes_ m' σ' l' :
  load_record r (m, σ, nodes_) = Some (m', σ', l') ->
  shapes σ' = match shape_of_type (r_type r) with
              | Some sh => <[next_loc σ := sh]> (shapes σ)
              | None => shapes σ
              end.
Proof.
  unfold load_record, new_model_node, add_child, new_shape.
  destruct (shape_of_type (r_type r)) as [sh|]; cbn [nodes shapes next_loc set_nodes];
    repeat match goal with
    | |- context [?h !! ?k] =>
        lazymatch type of h with
        | gmap loc model_node => destruct (h !! k); cbn [mbind option_bind nodes set_nodes]; [|done]
        end
    end; by intros [= _ <- _].
Qed.

Lemma shape_of_type_cases type sh :
  shape_of_type type = Some sh ->
  (type = 0%Z /\ sh = sphere_t 1) \/ (type = 1%Z /\ sh = cylinder_t 1) \/
  (type = 2%Z /\ sh = box_t 0) \/ (type = 3%Z /\ sh = cone_t 1).
Proof.
  unfold shape_of_type. cbn [ShapeType_value].
  destruct (Z.eqb_spec type 0); [intros [= <-]; tauto|].
  destruct (Z.eqb_spec type 1); [intros [= <-]; tauto|].
  destruct (Z.eqb_spec type 2); [intros [= <-]; tauto|].
  destruct (Z.eqb_spec type 3); [intros [= <-]; tauto|done].
Qed.

Lemma load_lines_shapes_inv (P : shape_t -> Prop) :
  (forall type sh, shape_of_type type = Some sh -> P sh) ->
  forall lines st st',
    (forall sl sh, shapes st.1.2 !! sl = Some sh -> P sh) ->
    load_lines lines st = Some st' ->
    forall sl sh, shapes st'.1.2 !! sl = Some sh -> P sh.
Proof.
  intros HP. unfold load_lines.
  induction lines as [|line lines IH]; intros st st' Hst E.
  - by injection E as <-.
  - simpl in E. unfold load_line at 2 in E. destruct (extract_line line) as [r|].
    + destruct (load_record r st) as [st1|] eqn:E1; [|by rewrite load_lines_none in E].
      apply (IH st1 st'); [|done].
      destruct st as [[m σ] nodes_], st1 as [[m1 σ1] l1]. simpl in *.
      rewrite (load_record_shapes _ _ _ _ _ _ _ E1).
      destruct (shape_of_type (r_type r)) as [sh0|] eqn:Et; [|done].
      intros sl sh [[_ <-]|[_ H]]%lookup_insert_Some; eauto.
    + by apply (IH st st').
Qed.

(** X12: after a load that succeeds every shape is a sphere, a cylinder
    or a cone of level 1 or a box of level 0: the tessellation level of a
    saved shape is not restored. *)
Theorem load_resets_tessellation (filename : string) (m : model_t) (σ : store)
    (fs : filesystem) (lines : list string) :
  wf m σ -> files fs !! filename = Some lines ->
  exists m' σ',
    load_from_file filename m σ fs = Some (true, m', σ') /\
    forall sl sh, shapes σ' !! sl = Some sh ->
      (sh = sphere_t 1 \/ sh = cylinder_t 1 \/ sh = box_t 0 \/ sh = cone_t 1) /\
      (level sh <= 1)%Z.
Proof.
  intros W Hf. pose proof (load_from_file_wf filename m σ fs W) as H. rewrite Hf in H.
  destruct H as (m' & σ' & E & _ & El & _). exists m', σ'. split; [done|].
  refine (load_lines_shapes_inv
           (fun sh => (sh = sphere_t 1 \/ sh = cylinder_t 1 \/ sh = box_t 0 \/ sh = cone_t 1) /\
                      (level sh <= 1)%Z) _ lines
           (root_model (next_loc σ), root_store (next_loc σ), [next_loc σ])
           (m', σ', all_nodes m') _ El).
  - intros type sh [[_ ->]|[[_ ->]|[[_ ->]|[_ ->]]]]%shape_of_type_cases;
      (split; [tauto|by vm_compute]).
  - intros sl sh Hsl. simpl in Hsl. by rewrite lookup_empty in Hsl.
Qed.

(** * More on the transform keys *)

Local Open Scope R_scope.

Lemma normalize_x : normalize (mk_vec3 1 0 0) = mk_vec3 1 0 0.
Proof.
  unfold normalize, dot3, vec3_scale. cbn [x3 y3 z3].
  replace (1 * 1 + 0 * 0 + 0 * 0) with 1 by ring. rewrite sqrt_1, Rinv_1.
  f_equal; ring.
Qed.

Lemma normalize_z : normalize (mk_vec3 0 0 1) = mk_vec3 0 0 1.
Proof.
  unfold normalize, dot3, vec3_scale. cbn [x3 y3 z3].
  replace (0 * 0 + 0 * 0 + 1 * 1) with 1 by ring. rewrite sqrt_1, Rinv_1.
  f_equal; ring.
Qed.

Lemma pivot_rotation_x (pivot : vec3) (angle : R) :
  pivot_rotation pivot angle (mk_vec3 1 0 0) =
  mk_mat4 (mk_vec4 1 0 0 0)
          (mk_vec4 0 (cos angle) (sin angle) 0)
          (mk_vec4 0 (- sin angle) (cos angle) 0)
          (mk_vec4 0 (y3 pivot - cos angle * y3 pivot + sin angle * z3 pivot)
                   (z3 pivot - sin angle * y3 pivot - cos angle * z3 pivot) 1).
Proof.
  unfold pivot_rotation, glm.rotate. rewrite normalize_x.
  destruct pivot as [px py pz]. mat_norm. f_equal; f_equal; ring.
Qed.

Lemma pivot_rotation_z (pivot : vec3) (angle : R) :
  pivot_rotation pivot angle (mk_vec3 0 0 1) =
  mk_mat4 (mk_vec4 (cos angle) (sin angle) 0 0)
          (mk_vec4 (- sin angle) (cos angle) 0 0)
          (mk_vec4 0 0 1 0)
          (mk_vec4 (x3 pivot - cos angle * x3 pivot + sin angle * y3 pivot)
                   (y3 pivot - sin angle * x3 pivot - cos angle * y3 pivot) 0 1).
Proof.
  unfold pivot_rotation, glm.rotate. rewrite normalize_z.
  destruct pivot as [px py pz]. mat_norm. f_equal; f_equal; ring.
Qed.

Lemma axis_vector_cases (axis : Z) (v : vec3) :
  axis_vector axis = Some v ->
  (axis = 1%Z /\ v = mk_vec3 1 0 0) \/ (axis = 2%Z /\ v = mk_vec3 0 1 0) \/
  (axis = 3%Z /\ v = mk_vec3 0 0 1).
Proof.
  unfold axis_vector.
  destruct (Z.eqb_spec axis 1); [intros [= <-]; tauto|].
  destruct (Z.eqb_spec axis 2); [intros [= <-]; tauto|].
  destruct (Z.eqb_spec axis 3); [intros [= <-]; tauto|done].
Qed.

(** Two rotations about the same pivot and axis add their angles. *)
Lemma pivot_rotation_add (pivot : vec3) (a b : R) (axis : Z) (v : vec3) :
  axis_vector axis = Some v ->
  mat4_mul (pivot_rotation pivot b v) (pivot_rotation pivot a v)
  = pivot_rotation pivot (a + b) v.
Proof.
  intros [[_ ->]|[[_ ->]|[_ ->]]]%axis_vector_cases.
  - rewrite !pivot_rotation_x, cos_plus, sin_plus.
    destruct pivot as [px py pz]. mat_norm. f_equal; f_equal; ring.
  - rewrite !pivot_rotation_y, cos_plus, sin_plus.
    destruct pivot as [px py pz]. mat_norm. f_equal; f_equal; ring.
  - rewrite !pivot_rotation_z, cos_plus, sin_plus.
    destruct pivot as [px py pz]. mat_norm. f_equal; f_equal; ring.
Qed.

(** A rotation by a whole number of turns is the identity. *)
Lemma pivot_rotation_turn (pivot : vec3) (a : R) (axis : Z) (v : vec3) :
  axis_vector axis = Some v -> cos a = 1 -> sin a = 0 ->
  pivot_rotation pivot a v = mat4_identity.
Proof.
  intros [[_ ->]|[[_ ->]|[_ ->]]]%axis_vector_cases Hc Hs.
  - rewrite pivot_rotation_x, Hc, Hs. destruct pivot. mat_norm. f_equal; f_equal; ring.
  - rewrite pivot_rotation_y, Hc, Hs. destruct pivot. mat_norm. f_equal; f_equal; ring.
  - rewrite pivot_rotation_z, Hc, Hs. destruct pivot. mat_norm. f_equal; f_equal; ring.
Qed.

Local Close Scope R_scope.

(** ** One transform after another *)

Lemma set_nodes_id (σ : store) (n : loc) (nd : model_node) :
  nodes σ !! n = Some nd -> set_nodes (<[n := nd]> (nodes σ)) σ = σ.
Proof. intros Hn. rewrite insert_id by done. by destruct σ. Qed.

Lemma set_nodes_twice (σ : store) (n : loc) (nd nd' : model_node) :
  set_nodes (<[n := nd']> (<[n := nd]> (nodes σ))) (set_nodes (<[n := nd]> (nodes σ)) σ)
  = set_nodes (<[n := nd']> (nodes σ)) σ.
Proof. unfold set_nodes. cbn [nodes shapes next_loc]. by rewrite insert_insert_eq. Qed.

(** The pivot of a node depends on its shape only. *)
Lemma compute_shape_centroid_update (σ : store) (n : loc) (nd nd' : model_node) :
  nodes σ !! n = Some nd -> shape nd' = shape nd ->
  compute_shape_centroid (set_nodes (<[n := nd']> (nodes σ)) σ) (Some n)
  = compute_shape_centroid σ (Some n).
Proof.
  intros Hn Hs. unfold compute_shape_centroid. cbn [nodes shapes set_nodes].
  rewrite lookup_insert_eq, Hn. cbn [mbind option_bind]. by rewrite Hs.
Qed.

(** What [rotate_node] does when it returns. *)
Lemma rotate_node_Some (d : R) (axis : Z) (n : loc) (σ σ1 : store) :
  rotate_node d axis n σ = Some σ1 <->
  exists c nd,
    compute_shape_centroid σ (Some n) = Some c /\ nodes σ !! n = Some nd /\
    σ1 = match axis_vector axis with
         | Some v => set_nodes (<[n := set_rotation
                                  (mat4_mul (pivot_rotation c (radians d) v) (rotation nd)) nd]>
                                  (nodes σ)) σ
         | None => σ
         end.
Proof.
  unfold rotate_node. destruct (compute_shape_centroid σ (Some n)) as [c|];
    cbn [mbind option_bind]; [|split; [done|by intros (? & ? & ? & _)]].
  destruct (nodes σ !! n) as [nd|]; cbn [mbind option_bind];
    [|split; [done|by intros (? & ? & _ & ? & _)]].
  split.
  - intros H. exists c, nd. split_and!; [done..|].
    destruct (axis_vector axis); injection H as <-; reflexivity.
  - intros (c' & nd' & [= <-] & [= <-] & ->). by destruct (axis_vector axis).
Qed.

Lemma radians_add (a b : R) : radians (a + b) = (radians a + radians b)%R.
Proof. unfold radians. lra. Qed.

(** Two presses in rotation mode are one rotation by the sum of the
    angles. *)
Lemma rotate_node_twice (d1 d2 : R) (axis : Z) (n : loc) (σ σ1 : store) :
  rotate_node d1 axis n σ = Some σ1 ->
  rotate_node d2 axis n σ1 = rotate_node (d1 + d2) axis n σ.
Proof.
  intros (c & nd & Hc & Hn & ->)%rotate_node_Some.
  destruct (axis_vector axis) as [v|] eqn:Hv.
  - unfold rotate_node at 1. rewrite (compute_shape_centroid_update σ n nd), Hc by done.
    cbn [mbind option_bind nodes set_nodes]. rewrite lookup_insert_eq. cbn [mbind option_bind].
    rewrite Hv. unfold rotate_node. rewrite Hc, Hn. cbn [mbind option_bind]. rewrite Hv.
    rewrite set_nodes_twice. do 3 f_equal.
    unfold set_rotation. cbn [rotation shape translation scale color parent children]. f_equal.
    change (mat4_mul (mat4_mul (mat4_mul (glm.translate mat4_identity c)
                                         (glm.rotate mat4_identity (radians ?d) v))
                               (glm.translate mat4_identity (vec3_neg c))) ?r)
      with (mat4_mul (pivot_rotation c (radians d) v) r).
    rewrite <- mat4_mul_assoc, (pivot_rotation_add c _ _ axis v Hv), radians_add. reflexivity.
  - unfold rotate_node. rewrite Hc, Hn. cbn [mbind option_bind]. by rewrite Hv.
Qed.

(** A rotation by whole turns changes nothing. *)
Lemma rotate_node_turn (d : R) (axis : Z) (n : loc) (σ σ1 : store) :
  cos (radians d) = 1%R -> sin (radians d) = 0%R ->
  rotate_node 0 axis n σ = Some σ1 -> rotate_node d axis n σ = Some σ.
Proof.
  intros Hcos Hsin (c & nd & Hc & Hn & _)%rotate_node_Some.
  apply rotate_node_Some. exists c, nd. split_and!; [done..|].
  destruct (axis_vector axis) as [v|] eqn:Hv; [|done].
  rewrite (pivot_rotation_turn c _ axis v Hv Hcos Hsin), mat4_mul_identity_l.
  replace (set_rotation (rotation nd) nd) with nd by (by destruct nd).
  by rewrite set_nodes_id.
Qed.

Lemma rotate_node_defined (d d' : R) (axis : Z) (n : loc) (σ : store) :
  is_Some (rotate_node d axis n σ) -> is_Some (rotate_node d' axis n σ).
Proof.
  intros [σ1 (c & nd & Hc & Hn & _)%rotate_node_Some].
  eexists. apply rotate_node_Some. exists c, nd. by split_and!.
Qed.

Lemma rotate_node_zero (axis : Z) (n : loc) (σ : store) (d : R) :
  is_Some (rotate_node d axis n σ) -> rotate_node 0 axis n σ = Some σ.
Proof.
  intros H. destruct (rotate_node_defined d 0 axis n σ H) as [σ1 H1].
  apply (rotate_node_turn 0 axis n σ σ1); [| |done].
  - unfold radians. rewrite Rmult_0_l. apply cos_0.
  - unfold radians. rewrite Rmult_0_l. apply sin_0.
Qed.

Lemma set_heap_heap (a : app) : set_heap (heap a) a = a.
Proof. by destruct a. Qed.

Lemma set_heap_twice (σ σ' : store) (a : app) : set_heap σ' (set_heap σ a) = set_heap σ' a.
Proof. reflexivity. Qed.

Lemma press_keys_cons (fmt : R -> string) (k : key) (ks : list key) (a : app) :
  press_keys fmt (k :: ks) a = (a' ← handle_key fmt k PRESS a; press_keys fmt ks a').
Proof.
  unfold press_keys. cbn [foldl mbind option_bind].
  destruct (handle_key fmt k PRESS a) as [a'|]; cbn [mbind option_bind]; [reflexivity|].
  induction ks as [|k' ks IH]; [reflexivity|]. cbn [foldl mbind option_bind]. exact IH.
Qed.

(** The keys [+] and [-] of modelling mode, spelled out. *)
Lemma plus_key_modelling (fmt : R -> string) (a : app) :
  app_mode a = MODE_MODELLING ->
  handle_key fmt KEY_EQUAL PRESS a = apply_transform 10 0.1 1.1 a /\
  handle_key fmt KEY_KP_ADD PRESS a = apply_transform 10 0.1 1.1 a /\
  handle_key fmt KEY_MINUS PRESS a = apply_transform (-10) (-0.1) 0.9 a /\
  handle_key fmt KEY_KP_SUBTRACT PRESS a = apply_transform (-10) (-0.1) 0.9 a.
Proof. intros Hm. unfold handle_key. by rewrite Hm. Qed.

Lemma apply_transform_rot (degrees d s : R) (a : app) :
  trans_mode a = TM_ROT ->
  apply_transform degrees d s a =
  match current_node a with
  | None => Some a
  | Some n => σ ← rotate_node degrees (axis_mode a) n (heap a); Some (set_heap σ a)
  end.
Proof. intros Ht. unfold apply_transform. by rewrite Ht. Qed.

(** One rotation key after another, in terms of a single rotation. *)
Lemma apply_transform_rot_twice (d1 d2 t1 t2 s1 s2 : R) (a a1 : app) :
  trans_mode a = TM_ROT ->
  apply_transform d1 t1 s1 a = Some a1 ->
  apply_transform d2 t2 s2 a1 = apply_transform (d1 + d2) t1 s1 a.
Proof.
  intros Ht H1. rewrite (apply_transform_rot _ _ _ a Ht) in H1.
  rewrite (apply_transform_rot _ _ _ a Ht).
  destruct (current_node a) as [n|] eqn:Hn.
  - destruct (rotate_node d1 (axis_mode a) n (heap a)) as [σ1|] eqn:E1;
      cbn [mbind option_bind] in H1; [|done].
    injection H1 as <-. rewrite apply_transform_rot by done.
    cbn [current_node set_heap axis_mode heap]. rewrite Hn.
    by rewrite (rotate_node_twice d1 d2 _ _ _ _ E1).
  - injection H1 as <-. rewrite apply_transform_rot by done. by rewrite Hn.
Qed.

Lemma apply_transform_rot_zero (d t s : R) (a a1 : app) :
  trans_mode a = TM_ROT -> apply_transform d t s a = Some a1 ->
  apply_transform 0 t s a = Some a.
Proof.
  intros Ht H1. rewrite (apply_transform_rot _ _ _ a Ht) in H1.
  rewrite (apply_transform_rot _ _ _ a Ht).
  destruct (current_node a) as [n|]; [|done].
  destruct (rotate_node d (axis_mode a) n (heap a)) as [σ1|] eqn:E1;
    cbn [mbind option_bind] in H1; [|done].
  rewrite (rotate_node_zero _ _ _ d) by (rewrite E1; eauto).
  cbn [mbind option_bind]. by rewrite set_heap_heap.
Qed.

(** X13: in modelling mode with the rotation transform, a [+] key ([=] or
    keypad [+]) followed by a [-] key ([-] or keypad [-]), or the other
    way round, leaves the whole state of the editor as it was, in every
    state in which the first key is handled: for every live selected
    node, for no selection and for every axis setting (floats read as
    real numbers). *)
Theorem plus_then_minus_restores_rotation (fmt : R -> string) (a a1 : app) (k k' : key) :
  app_mode a = MODE_MODELLING -> trans_mode a = TM_ROT ->
  (k = KEY_EQUAL \/ k = KEY_KP_ADD) /\ (k' = KEY_MINUS \/ k' = KEY_KP_SUBTRACT) \/
  (k = KEY_MINUS \/ k = KEY_KP_SUBTRACT) /\ (k' = KEY_EQUAL \/ k' = KEY_KP_ADD) ->
  handle_key fmt k PRESS a = Some a1 ->
  handle_key fmt k' PRESS a1 = Some a.
Proof.
  intros Hm Ht Hk H1.
  destruct (plus_key_modelling fmt a Hm) as (Ep & Epk & Em & Emk).
  assert (Hm1 : app_mode a1 = MODE_MODELLING /\ trans_mode a1 = TM_ROT).
  { assert (Hap : forall d t s, apply_transform d t s a = Some a1 ->
                                app_mode a1 = MODE_MODELLING /\ trans_mode a1 = TM_ROT).
    { intros d t s H. rewrite apply_transform_rot in H by done.
      destruct (current_node a); [|by injection H as <-].
      destruct (rotate_node _ _ _ _); cbn [mbind option_bind] in H; [|done].
      by injection H as <-. }
    destruct Hk as [[[-> | ->] _]|[[-> | ->] _]]; rewrite ?Ep, ?Epk, ?Em, ?Emk in H1; eauto. }
  destruct Hm1 as [Hm1 Ht1].
  destruct (plus_key_modelling fmt a1 Hm1) as (Ep1 & Epk1 & Em1 & Emk1).
  destruct Hk as [[[-> | ->] [-> | ->]]|[[-> | ->] [-> | ->]]];
    rewrite ?Ep, ?Epk, ?Em, ?Emk in H1; rewrite ?Ep1, ?Epk1, ?Em1, ?Emk1;
    rewrite (apply_transform_rot_twice _ _ _ _ _ _ a a1 Ht H1);
    match goal with |- apply_transform ?d _ _ _ = _ => replace d with 0%R by lra end;
    by eapply apply_transform_rot_zero.
Qed.

(** [k] presses of [+] in rotation mode are one rotation by [k] times
    ten degrees. *)
Lemma plus_key_repeated (fmt : R -> string) (k : nat) : forall (a a1 : app),
  app_mode a = MODE_MODELLING -> trans_mode a = TM_ROT ->
  handle_key fmt KEY_EQUAL PRESS a = Some a1 ->
  press_keys fmt (replicate k KEY_EQUAL) a = apply_transform (INR k * 10) 0.1 1.1 a.
Proof.
  induction k as [|k IH]; intros a a1 Hm Ht H1.
  - destruct (plus_key_modelling fmt a Hm) as (Ep & _). rewrite Ep in H1.
    cbn [replicate INR]. rewrite Rmult_0_l.
    by rewrite (apply_transform_rot_zero _ _ _ a a1 Ht H1).
  - cbn [replicate]. rewrite press_keys_cons, H1. cbn [mbind option_bind].
    destruct (plus_key_modelling fmt a Hm) as (Ep & _). rewrite Ep in H1.
    assert (Hm1 : app_mode a1 = MODE_MODELLING /\ trans_mode a1 = TM_ROT).
    { pose proof H1 as H. rewrite apply_transform_rot in H by done.
      destruct (current_node a); [|by injection H as <-].
      destruct (rotate_node _ _ _ _); cbn [mbind option_bind] in H; [|done].
      by injection H as <-. }
    destruct Hm1 as [Hm1 Ht1].
    destruct (plus_key_modelling fmt a1 Hm1) as (Ep1 & _).
    assert (Hnext : is_Some (handle_key fmt KEY_EQUAL PRESS a1)).
    { rewrite Ep1, (apply_transform_rot_twice _ _ _ _ _ _ a a1 Ht H1).
      rewrite apply_transform_rot in H1 |- * by done.
      destruct (current_node a) as [n|]; [|by eauto].
      destruct (rotate_node 10 _ _ _) as [σ1|] eqn:E1; cbn [mbind option_bind] in H1; [|done].
      destruct (rotate_node_defined 10 (10 + 10) (axis_mode a) n (heap a)) as [σ2 ->];
        [rewrite E1; eauto|]. by eauto. }
    destruct Hnext as [a2 H2]. rewrite (IH a1 a2 Hm1 Ht1 H2).
    rewrite (apply_transform_rot_twice _ _ _ _ _ _ a a1 Ht H1).
    rewrite S_INR. f_equal. lra.
Qed.

(** X14: in modelling mode with the rotation transform, in a state in
    which the [+] key is handled, [k] presses of [+] act as one rotation
    by [10 * k] degrees about the pivot, and 36 presses, a full turn,
    restore the state of the editor (floats read as real numbers). *)
Theorem full_turn_restores (fmt : R -> string) (a : app) :
  app_mode a = MODE_MODELLING -> trans_mode a = TM_ROT ->
  is_Some (handle_key fmt KEY_EQUAL PRESS a) ->
  (forall k, press_keys fmt (replicate k KEY_EQUAL) a
             = apply_transform (INR k * 10) 0.1 1.1 a) /\
  press_keys fmt (replicate 36 KEY_EQUAL) a = Some a.
Proof.
  intros Hm Ht [a1 H1]. split; [intros k; by eapply plus_key_repeated|].
  rewrite (plus_key_repeated fmt 36 a a1 Hm Ht H1).
  destruct (plus_key_modelling fmt a Hm) as (Ep & _). rewrite Ep in H1.
  rewrite apply_transform_rot in H1 |- * by done.
  destruct (current_node a) as [n|]; [|done].
  destruct (rotate_node 10 _ _ _) as [σ1|] eqn:E1; cbn [mbind option_bind] in H1; [|done].
  assert (Hturn : radians (INR 36 * 10) = (2 * PI)%R).
  { unfold radians. simpl INR. field. }
  destruct (rotate_node_defined 10 0 (axis_mode a) n (heap a)) as [σ0 E0]; [rewrite E1; eauto|].
  rewrite (rotate_node_turn (INR 36 * 10) (axis_mode a) n (heap a) σ0).
  - cbn [mbind option_bind]. by rewrite set_heap_heap.
  - rewrite Hturn. apply cos_2PI.
  - rewrite Hturn. apply sin_2PI.
  - done.
Qed.

(** ** Translation and scaling *)

Local Open Scope R_scope.

Lemma translate_translate (m : mat4) (v w : vec3) :
  glm.translate (glm.translate m v) w = glm.translate m (vec3_add v w).
Proof.
  destruct m as [[] [] [] []], v, w. unfold vec3_add. mat_norm. f_equal; f_equal; ring.
Qed.

Lemma translate_zero (m : mat4) : glm.translate m (mk_vec3 0 0 0) = m.
Proof. destruct m as [[] [] [] []]. mat_norm. f_equal; f_equal; ring. Qed.


Local Close Scope R_scope.

(** The vector the translation branch moves by. *)
Lemma translate_node_Some (d : R) (axis : Z) (n : loc) (σ σ1 : store) :
  translate_node d axis n σ = Some σ1 <->
  exists nd, nodes σ !! n = Some nd /\
    σ1 = if (axis =? 1)%Z
         then set_nodes (<[n := set_translation (glm.translate (translation nd)
                                                   (mk_vec3 d 0 0)) nd]> (nodes σ)) σ
         else if (axis =? 2)%Z
         then set_nodes (<[n := set_translation (glm.translate (translation nd)
                                                   (mk_vec3 0 d 0)) nd]> (nodes σ)) σ
         else if (axis =? 3)%Z
         then set_nodes (<[n := set_translation (glm.translate (translation nd)
                                                   (mk_vec3 0 0 d)) nd]> (nodes σ)) σ
         else σ.
Proof.
  unfold translate_node. destruct (nodes σ !! n) as [nd|]; cbn [mbind option_bind];
    [|split; [done|by intros (? & ? & _)]].
  split.
  - intros H. exists nd. split; [done|].
    destruct (axis =? 1)%Z; [by injection H as <-|].
    destruct (axis =? 2)%Z; [by injection H as <-|].
    destruct (axis =? 3)%Z; by injection H as <-.
  - intros (nd' & [= <-] & ->).
    destruct (axis =? 1)%Z; [done|]. destruct (axis =? 2)%Z; [done|].
    by destruct (axis =? 3)%Z.
Qed.

Lemma translate_node_twice (d1 d2 : R) (axis : Z) (n : loc) (σ σ1 : store) :
  translate_node d1 axis n σ = Some σ1 ->
  translate_node d2 axis n σ1 = translate_node (d1 + d2) axis n σ.
Proof.
  intros (nd & Hn & ->)%translate_node_Some. unfold translate_node. rewrite Hn.
  cbn [mbind option_bind].
  destruct (axis =? 1)%Z; [|destruct (axis =? 2)%Z; [|destruct (axis =? 3)%Z]];
    [| | |by rewrite Hn];
    cbn [nodes set_nodes]; rewrite lookup_insert_eq; cbn [mbind option_bind];
    rewrite set_nodes_twice; do 3 f_equal;
    unfold set_translation; cbn [rotation shape translation scale color parent children];
    f_equal; rewrite translate_translate; unfold vec3_add; cbn [x3 y3 z3];
    do 2 f_equal; lra.
Qed.

Lemma translate_node_zero (d : R) (axis : Z) (n : loc) (σ : store) :
  is_Some (translate_node d axis n σ) -> translate_node 0 axis n σ = Some σ.
Proof.
  intros [σ1 (nd & Hn & _)%translate_node_Some]. unfold translate_node. rewrite Hn.
  cbn [mbind option_bind].
  destruct (axis =? 1)%Z; [|destruct (axis =? 2)%Z; [|destruct (axis =? 3)%Z]];
    [| | |done];
    rewrite translate_zero;
    (replace (set_translation (translation nd) nd) with nd by (by destruct nd));
    by rewrite set_nodes_id.
Qed.

Lemma apply_transform_trans (degrees d s : R) (a : app) :
  trans_mode a = TM_TRANS ->
  apply_transform degrees d s a =
  match current_node a with
  | None => Some a
  | Some n => σ ← translate_node d (axis_mode a) n (heap a); Some (set_heap σ a)
  end.
Proof. intros Ht. unfold apply_transform. by rewrite Ht. Qed.

Lemma apply_transform_keeps_modes (degrees d s : R) (a a1 : app) :
  apply_transform degrees d s a = Some a1 ->
  app_mode a1 = app_mode a /\ trans_mode a1 = trans_mode a /\
  axis_mode a1 = axis_mode a /\ current_node a = current_node a1 /\
  current_model a1 = current_model a /\ disk a1 = disk a.
Proof.
  unfold apply_transform. destruct (current_node a) as [n|] eqn:Hn; [|by intros [= <-]].
  destruct (trans_mode a) eqn:Ht;
    [|destruct (rotate_node _ _ _ _)|destruct (translate_node _ _ _ _)
     |destruct (scale_node _ _ _ _)];
    cbn [mbind option_bind]; try done; intros [= <-]; cbn; by rewrite ?Hn, ?Ht.
Qed.

(** X15: in modelling mode with the translation transform, a [+] key
    followed by a [-] key, or the other way round, leaves the whole state
    of the editor as it was, in every state in which the first key is
    handled (floats read as real numbers). *)
Theorem plus_then_minus_restores_translation (fmt : R -> string) (a a1 : app) (k k' : key) :
  app_mode a = MODE_MODELLING -> trans_mode a = TM_TRANS ->
  (k = KEY_EQUAL \/ k = KEY_KP_ADD) /\ (k' = KEY_MINUS \/ k' = KEY_KP_SUBTRACT) \/
  (k = KEY_MINUS \/ k = KEY_KP_SUBTRACT) /\ (k' = KEY_EQUAL \/ k' = KEY_KP_ADD) ->
  handle_key fmt k PRESS a = Some a1 ->
  handle_key fmt k' PRESS a1 = Some a.
Proof.
  intros Hm Ht Hk H1.
  destruct (plus_key_modelling fmt a Hm) as (Ep & Epk & Em & Emk).
  assert (Htwice : forall d1 d2 r1 r2 s1 s2,
            apply_transform r1 d1 s1 a = Some a1 -> (d1 + d2 = 0)%R ->
            apply_transform r2 d2 s2 a1 = Some a).
  { intros d1 d2 r1 r2 s1 s2 H Hd.
    destruct (apply_transform_keeps_modes _ _ _ _ _ H) as (_ & Ht1 & Hax & Hcur & _).
    rewrite Ht in Ht1. rewrite apply_transform_trans in H |- * by done.
    rewrite <- Hcur, Hax. destruct (current_node a) as [n|]; [|by injection H as <-].
    destruct (translate_node d1 _ _ _) as [σ1|] eqn:E1; cbn [mbind option_bind] in H; [|done].
    injection H as <-. cbn [heap set_heap].
    rewrite (translate_node_twice _ _ _ _ _ _ E1), Hd.
    rewrite (translate_node_zero d1) by (rewrite E1; eauto).
    cbn [mbind option_bind]. by rewrite set_heap_twice, set_heap_heap. }
  assert (Hm1 : app_mode a1 = MODE_MODELLING).
  { destruct Hk as [[[-> | ->] _]|[[-> | ->] _]]; rewrite ?Ep, ?Epk, ?Em, ?Emk in H1;
      destruct (apply_transform_keeps_modes _ _ _ _ _ H1) as (-> & _); done. }
  destruct (plus_key_modelling fmt a1 Hm1) as (Ep1 & Epk1 & Em1 & Emk1).
  destruct Hk as [[[-> | ->] [-> | ->]]|[[-> | ->] [-> | ->]]];
    rewrite ?Ep, ?Epk, ?Em, ?Emk in H1; rewrite ?Ep1, ?Epk1, ?Em1, ?Emk1;
    (eapply Htwice; [exact H1|lra]).
Qed.




(** * Rotating the whole model *)

(** ** A change of the root's rotation *)

Lemma collect_rec_same_children (h h' : gmap loc model_node) :
  (forall y, children <$> h' !! y = children <$> h !! y) ->
  forall fuel n out, collect_rec fuel h' n out = collect_rec fuel h n out.
Proof.
  intros Hch. induction fuel as [|fuel IH]; intros n out; [done|].
  simpl. pose proof (Hch n) as Hn.
  destruct (h' !! n) as [nd'|], (h !! n) as [nd|]; simpl in Hn; try done.
  injection Hn as Hn. cbn [mbind option_bind]. rewrite Hn. clear Hn.
  generalize (Some (out ++ [n])). generalize (children nd). intros cs.
  induction cs as [|c cs IHcs]; intros acc; [done|].
  simpl. rewrite <- IHcs. f_equal. destruct acc as [acc|]; [|done]. simpl. apply IH.
Qed.

Local Open Scope R_scope.

Lemma mat4_mul_vec4_assoc (a b : mat4) (v : vec4) :
  mat4_mul_vec4 (mat4_mul a b) v = mat4_mul_vec4 a (mat4_mul_vec4 b v).
Proof.
  destruct a as [[] [] [] []], b as [[] [] [] []], v. mat_norm. f_equal; ring.
Qed.

Lemma affine_mul (a b : mat4) : affine a -> affine b -> affine (mat4_mul a b).
Proof.
  destruct a as [[] [] [] []], b as [[] [] [] []]. unfold affine. cbn [col0 col1 col2 col3 vw].
  intros (-> & -> & -> & ->) (-> & -> & -> & ->). mat_norm. split_and!; ring.
Qed.

Lemma affine_identity : affine mat4_identity.
Proof. unfold affine. simpl. done. Qed.

(** An affine matrix maps a point to a point. *)
Lemma affine_point (w : mat4) (c : vec3) :
  affine w -> vw (mat4_mul_vec4 w (vec4_of_vec3 c 1)) = 1.
Proof.
  destruct w as [[] [] [] []], c. unfold affine. cbn [col0 col1 col2 col3 vw].
  intros (-> & -> & -> & ->). unfold vec4_of_vec3. mat_norm. ring.
Qed.

Local Close Scope R_scope.

Lemma local_matrix_affine (nd : model_node) :
  affine (translation nd) -> affine (rotation nd) -> affine (scale nd) ->
  affine (local_matrix nd).
Proof. intros. unfold local_matrix. by repeat apply affine_mul. Qed.

Lemma world_matrix_affine (h : gmap loc model_node) :
  (forall n nd, h !! n = Some nd ->
     affine (translation nd) /\ affine (rotation nd) /\ affine (scale nd)) ->
  forall fuel n w, get_world_matrix_rec fuel h n = Some w -> affine w.
Proof.
  intros Ha. induction fuel as [|fuel IH]; intros n w; [done|].
  simpl. destruct (h !! n) as [nd|] eqn:Hn; [|done]. cbn [mbind option_bind].
  destruct (Ha n nd Hn) as (? & ? & ?).
  destruct (parent nd) as [p|].
  - destruct (get_world_matrix_rec fuel h p) as [wp|] eqn:Hp; [|done]. cbn [mbind option_bind].
    intros [= <-]. apply affine_mul; [by eapply IH|by apply local_matrix_affine].
  - intros [= <-]. by apply local_matrix_affine.
Qed.

Section RootRotation.
Context (m : model_t) (σ : store) (rd : model_node) (P : mat4).
Context (W : wf m σ) (Hroot : nodes σ !! root m = Some rd).
Context (Htr : translation rd = mat4_identity).

Local Abbreviation σ' := (rotate_root P m rd σ).

Lemma root_rotation_links y :
    links <$> nodes σ' !! y = links <$> nodes σ !! y.
  Proof.
    unfold rotate_root. cbn [nodes set_nodes]. destruct (decide (root m = y)) as [<-|Hne].
    - by rewrite lookup_insert_eq, Hroot.
    - by rewrite lookup_insert_ne.
  Qed.

Lemma root_rotation_wf : wf m σ'.
  Proof. apply (wf_same_links m σ); [done..|apply root_rotation_links]. Qed.

Lemma root_rotation_collect out :
    collect σ' (root m) out = collect σ (root m) out.
  Proof.
    unfold collect. change (next_loc σ') with (next_loc σ).
    apply collect_rec_same_children. intros y. pose proof (root_rotation_links y) as H.
    unfold links in H. destruct (nodes σ' !! y), (nodes σ !! y); simpl in *; congruence.
  Qed.

Lemma root_rotation_lookup_root :
    nodes σ' !! root m = Some (set_rotation (mat4_mul P (rotation rd)) rd).
  Proof. unfold rotate_root. cbn [nodes set_nodes]. by rewrite lookup_insert_eq. Qed.

Lemma root_rotation_lookup_other n : n <> root m -> nodes σ' !! n = nodes σ !! n.
  Proof. intros Hne. unfold rotate_root. cbn [nodes set_nodes]. by rewrite lookup_insert_ne. Qed.

(** Every world matrix is multiplied on the left by [P]. *)
Lemma root_rotation_world fuel : forall n w,
    get_world_matrix_rec fuel (nodes σ) n = Some w ->
    get_world_matrix_rec fuel (nodes σ') n = Some (mat4_mul P w).
  Proof.
    induction fuel as [|fuel IH]; intros n w; [done|].
    cbn [get_world_matrix_rec].
    destruct (nodes σ !! n) as [nd|] eqn:Hn; [|done]. cbn [mbind option_bind].
    destruct (decide (n = root m)) as [->|Hne].
    - rewrite root_rotation_lookup_root. cbn [mbind option_bind].
      rewrite Hroot in Hn. injection Hn as <-.
      destruct (wf_root _ _ W) as (rd' & Hr' & Hp). rewrite Hroot in Hr'. injection Hr' as <-.
      cbn [parent set_rotation]. rewrite Hp. intros [= <-]. f_equal.
      unfold local_matrix. cbn [translation rotation scale set_rotation].
      rewrite Htr, !mat4_mul_identity_l. apply mat4_mul_assoc.
    - rewrite root_rotation_lookup_other, Hn by done.
      cbn [mbind option_bind].
      destruct (wf_parent _ _ W _ _ Hn Hne) as (p & pd & Hp & _). rewrite Hp.
      destruct (get_world_matrix_rec fuel (nodes σ) p) as [wp|] eqn:Ewp; [|done].
      cbn [mbind option_bind]. intros [= <-].
      rewrite (IH p wp Ewp). cbn [mbind option_bind]. by rewrite mat4_mul_assoc.
  Qed.

Lemma root_rotation_centroid n :
    compute_shape_centroid σ' (Some n) = compute_shape_centroid σ (Some n).
  Proof.
    unfold compute_shape_centroid. pose proof (root_rotation_links n) as H.
    change (shapes σ') with (shapes σ).
    unfold links in H.
    destruct (nodes σ' !! n) as [nd'|], (nodes σ !! n) as [nd|]; simpl in H; try done.
    injection H as Hs _ _. cbn [mbind option_bind]. by rewrite Hs.
  Qed.
End RootRotation.

(** ** The centroid of the model under a rotation of the root *)

Local Open Scope R_scope.

Lemma apply_point_zero (P : mat4) : apply_point P vec3_zero 0 = vec3_zero.
Proof.
  destruct P as [[] [] [] []]. unfold apply_point, vec3_zero, vec4_of_vec3, vec3_of_vec4.
  cbn [INR]. mat_norm. f_equal; ring.
Qed.

Lemma apply_point_step (P : mat4) (s : vec3) (k : nat) (u : vec4) :
  vw u = 1 ->
  vec3_add (apply_point P s k) (vec3_of_vec4 (mat4_mul_vec4 P u))
  = apply_point P (vec3_add s (vec3_of_vec4 u)) (S k).
Proof.
  destruct P as [[] [] [] []], s, u. cbn [vw]. intros ->.
  unfold apply_point, vec3_add, vec4_of_vec3, vec3_of_vec4. rewrite S_INR.
  mat_norm. f_equal; ring.
Qed.

(** A rotation about a pivot leaves the pivot where it is: the mean of
    [k] points whose sum is [s], rotated about itself. *)
Lemma pivot_rotation_fixes_mean (s : vec3) (k : nat) (ang : R) (axis : Z) (v : vec3) :
  axis_vector axis = Some v -> INR k <> 0 ->
  vec3_div (apply_point (pivot_rotation (vec3_div s (INR k)) ang v) s k) (INR k)
  = vec3_div s (INR k).
Proof.
  intros [[_ ->]|[[_ ->]|[_ ->]]]%axis_vector_cases Hk.
  - rewrite pivot_rotation_x. destruct s as [sx sy sz].
    unfold apply_point, vec3_div, vec4_of_vec3, vec3_of_vec4. mat_norm. f_equal; field; done.
  - rewrite pivot_rotation_y. destruct s as [sx sy sz].
    unfold apply_point, vec3_div, vec4_of_vec3, vec3_of_vec4. mat_norm. f_equal; field; done.
  - rewrite pivot_rotation_z. destruct s as [sx sy sz].
    unfold apply_point, vec3_div, vec4_of_vec3, vec3_of_vec4. mat_norm. f_equal; field; done.
Qed.

Lemma pivot_rotation_affine (c : vec3) (ang : R) (axis : Z) (v : vec3) :
  axis_vector axis = Some v -> affine (pivot_rotation c ang v).
Proof.
  intros [[_ ->]|[[_ ->]|[_ ->]]]%axis_vector_cases;
    rewrite ?pivot_rotation_x, ?pivot_rotation_y, ?pivot_rotation_z; by unfold affine.
Qed.

Local Close Scope R_scope.

Lemma centroid_fold_none (σ : store) (l : list loc) :
  foldl (model_centroid_step σ) None l = None.
Proof. by induction l. Qed.

(** The count never decreases, and the sum moves only when it grows. *)
Lemma centroid_fold_count (σ : store) (l : list loc) : forall s k s1 k1,
  foldl (model_centroid_step σ) (Some (s, k)) l = Some (s1, k1) ->
  k <= k1 /\ (k1 = k -> s1 = s).
Proof.
  induction l as [|n l IH]; intros s k s1 k1 E.
  - injection E as <- <-. done.
  - cbn [foldl] in E.
    destruct (model_centroid_step σ (Some (s, k)) n) as [[s2 k2]|] eqn:E2;
      [|by rewrite centroid_fold_none in E].
    destruct (IH _ _ _ _ E) as [Hle Heq].
    assert (k <= k2 /\ (k2 = k -> s2 = s)) as [Hle2 Heq2].
    { unfold model_centroid_step in E2. cbn [mbind option_bind] in E2.
      destruct (nodes σ !! n) as [nd|]; cbn [mbind option_bind] in E2; [|done].
      destruct (shape nd) as [sl|]; [|by injection E2 as <- <-].
      destruct (shapes σ !! sl) as [sh|]; cbn [mbind option_bind] in E2; [|done].
      destruct (vertices sh); [by injection E2 as <- <-|].
      destruct (compute_shape_centroid σ (Some n)); cbn [mbind option_bind] in E2; [|done].
      destruct (get_world_matrix σ n); cbn [mbind option_bind] in E2; [|done].
      injection E2 as <- <-. split; lia. }
    split; [lia|]. intros ->. assert (k2 = k) as -> by lia. rewrite Heq by done. by apply Heq2.
Qed.

Section ModelCentroid.
Context (m : model_t) (σ : store) (rd : model_node) (P : mat4).
Context (W : wf m σ) (Hroot : nodes σ !! root m = Some rd).
Context (Htr : translation rd = mat4_identity) (Ha : affine_nodes σ).

Local Abbreviation σ' := (rotate_root P m rd σ).

Lemma centroid_step_rotated n s k s2 k2 :
    model_centroid_step σ (Some (s, k)) n = Some (s2, k2) ->
    model_centroid_step σ' (Some (apply_point P s k, k)) n = Some (apply_point P s2 k2, k2).
  Proof.
    unfold model_centroid_step. cbn [mbind option_bind].
    pose proof (root_rotation_links m σ rd P Hroot n) as Hl. unfold links in Hl.
    destruct (nodes σ !! n) as [nd|] eqn:Hn; cbn [mbind option_bind]; [|done].
    destruct (nodes σ' !! n) as [nd'|] eqn:Hn'; simpl in Hl; [|done].
    injection Hl as Hs _ _. cbn [mbind option_bind]. rewrite Hs.
    destruct (shape nd) as [sl|]; [|by intros [= <- <-]].
    change (shapes σ') with (shapes σ).
    destruct (shapes σ !! sl) as [sh|]; cbn [mbind option_bind]; [|done].
    destruct (vertices sh) as [|v0 vs]; [by intros [= <- <-]|].
    rewrite (root_rotation_centroid m σ rd P Hroot n).
    destruct (compute_shape_centroid σ (Some n)) as [c|]; cbn [mbind option_bind]; [|done].
    unfold get_world_matrix. change (next_loc σ') with (next_loc σ).
    destruct (get_world_matrix_rec (next_loc σ) (nodes σ) n) as [w|] eqn:Ew;
      cbn [mbind option_bind]; [|done].
    rewrite (root_rotation_world m σ rd P W Hroot Htr _ _ _ Ew). cbn [mbind option_bind].
    intros [= <- <-]. f_equal. f_equal.
    rewrite mat4_mul_vec4_assoc. apply apply_point_step, affine_point.
    by eapply world_matrix_affine.
  Qed.

Lemma centroid_fold_rotated l : forall s k s1 k1,
    foldl (model_centroid_step σ) (Some (s, k)) l = Some (s1, k1) ->
    foldl (model_centroid_step σ') (Some (apply_point P s k, k)) l
    = Some (apply_point P s1 k1, k1).
  Proof.
    induction l as [|n l IH]; intros s k s1 k1 E.
    - by injection E as <- <-.
    - cbn [foldl] in *.
      destruct (model_centroid_step σ (Some (s, k)) n) as [[s2 k2]|] eqn:E2;
        [|by rewrite centroid_fold_none in E].
      rewrite (centroid_step_rotated _ _ _ _ _ E2). by apply IH.
  Qed.
End ModelCentroid.

(** The centroid of the model does not move when the root is rotated
    about it. *)
Lemma model_centroid_rotated m σ rd mc ang axis v :
  wf m σ -> nodes σ !! root m = Some rd -> translation rd = mat4_identity ->
  affine_nodes σ -> axis_vector axis = Some v ->
  compute_model_centroid σ (Some m) = Some mc ->
  compute_model_centroid (rotate_root (pivot_rotation mc ang v) m rd σ) (Some m) = Some mc.
Proof.
  intros W Hroot Htr Ha Hv. unfold compute_model_centroid.
  rewrite (root_rotation_collect m σ rd _ Hroot).
  destruct (collect σ (root m) []) as [l|]; cbn [mbind option_bind]; [|done].
  destruct (foldl (model_centroid_step σ) (Some (vec3_zero, 0)) l) as [[s k]|] eqn:E;
    cbn [mbind option_bind]; [|done].
  intros [= <-].
  pose proof (centroid_fold_rotated m σ rd
                (pivot_rotation (if 0 <? k then vec3_div s (INR k) else s) ang v)
                W Hroot Htr Ha l _ _ _ _ E) as E'.
  rewrite apply_point_zero in E'. rewrite E'. cbn [mbind option_bind]. f_equal.
  destruct (Nat.ltb_spec 0 k) as [Hk|Hk].
  - apply (pivot_rotation_fixes_mean s k ang axis v Hv). apply not_0_INR. lia.
  - destruct (centroid_fold_count _ _ _ _ _ _ E) as [_ Heq].
    assert (k = 0) as -> by lia. rewrite Heq by done. apply apply_point_zero.
Qed.

(** ** The rotation keys of inspection mode *)

(** What [rotate_model] does when the editor has a model. *)
Lemma rotate_model_Some (d : R) (a a' : app) (m : model_t) :
  current_model a = Some m ->
  rotate_model d a = Some a' <->
  exists mc rd,
    compute_model_centroid (heap a) (Some m) = Some mc /\
    nodes (heap a) !! root m = Some rd /\
    a' = match axis_vector (axis_mode a) with
         | Some v => set_heap (rotate_root (pivot_rotation mc (radians d) v) m rd (heap a)) a
         | None => a
         end.
Proof.
  intros Hm. unfold rotate_model. rewrite Hm.
  destruct (compute_model_centroid (heap a) (Some m)) as [mc|]; cbn [mbind option_bind];
    [|split; [done|by intros (? & ? & ? & _)]].
  destruct (nodes (heap a) !! root m) as [rd|]; cbn [mbind option_bind];
    [|split; [done|by intros (? & ? & _ & ? & _)]].
  split.
  - intros H. exists mc, rd. split_and!; [done..|].
    destruct (axis_vector (axis_mode a)); injection H as <-; reflexivity.
  - intros (mc' & rd' & [= <-] & [= <-] & ->). by destruct (axis_vector (axis_mode a)).
Qed.

Lemma rotate_root_twice (P Q : mat4) (m : model_t) (rd : model_node) (σ : store) :
  rotate_root Q m (set_rotation (mat4_mul P (rotation rd)) rd) (rotate_root P m rd σ)
  = rotate_root (mat4_mul Q P) m rd σ.
Proof.
  unfold rotate_root. cbn [nodes set_nodes]. rewrite set_nodes_twice.
  unfold set_rotation. cbn [rotation shape translation scale color parent children].
  by rewrite mat4_mul_assoc.
Qed.

Lemma rotate_root_identity (m : model_t) (rd : model_node) (σ : store) :
  nodes σ !! root m = Some rd -> rotate_root mat4_identity m rd σ = σ.
Proof.
  intros Hr. unfold rotate_root. rewrite mat4_mul_identity_l.
  replace (set_rotation (rotation rd) rd) with rd by (by destruct rd).
  by apply set_nodes_id.
Qed.

(** One rotation of the model after another is one rotation by the sum of
    the angles, about the same centroid. *)
Lemma rotate_model_twice (d1 d2 : R) (a a1 : app) (m : model_t) :
  current_model a = Some m -> wf m (heap a) -> affine_nodes (heap a) ->
  (forall rd, nodes (heap a) !! root m = Some rd -> translation rd = mat4_identity) ->
  rotate_model d1 a = Some a1 ->
  rotate_model d2 a1 = rotate_model (d1 + d2) a.
Proof.
  intros Hm W Ha Htr H1.
  apply (rotate_model_Some d1 a a1 m Hm) in H1 as (mc & rd & Hmc & Hrd & ->).
  destruct (axis_vector (axis_mode a)) as [v|] eqn:Hv.
  - unfold rotate_model. cbn [current_model set_heap heap axis_mode]. rewrite Hm.
    rewrite (model_centroid_rotated m (heap a) rd mc _ (axis_mode a) v W Hrd (Htr rd Hrd) Ha Hv Hmc).
    rewrite Hmc. cbn [mbind option_bind].
    rewrite (root_rotation_lookup_root m (heap a) rd), Hrd. cbn [mbind option_bind].
    rewrite Hv. f_equal. unfold set_heap. cbn [app_mode trans_mode axis_mode current_model
      current_node disk]. f_equal.
    change (set_nodes _ (rotate_root ?P m rd (heap a)))
      with (rotate_root (pivot_rotation mc (radians d2) v) m
              (set_rotation (mat4_mul P (rotation rd)) rd) (rotate_root P m rd (heap a))).
    rewrite rotate_root_twice, (pivot_rotation_add mc _ _ (axis_mode a) v Hv), radians_add.
    reflexivity.
  - unfold rotate_model. rewrite Hm, Hmc, Hrd. cbn [mbind option_bind]. by rewrite Hv.
Qed.

Lemma rotate_model_zero (d : R) (a a1 : app) (m : model_t) :
  current_model a = Some m -> rotate_model d a = Some a1 -> rotate_model 0 a = Some a.
Proof.
  intros Hm H1. apply (rotate_model_Some d a a1 m Hm) in H1 as (mc & rd & Hmc & Hrd & _).
  apply (rotate_model_Some 0 a a m Hm). exists mc, rd. split_and!; [done..|].
  destruct (axis_vector (axis_mode a)) as [v|] eqn:Hv; [|done].
  rewrite (pivot_rotation_turn mc (radians 0) (axis_mode a) v Hv).
  - by rewrite rotate_root_identity, set_heap_heap.
  - unfold radians. rewrite Rmult_0_l. apply cos_0.
  - unfold radians. rewrite Rmult_0_l. apply sin_0.
Qed.

Lemma plus_key_inspection (fmt : R -> string) (a : app) :
  app_mode a = MODE_INSPECTION -> trans_mode a = TM_ROT ->
  handle_key fmt KEY_EQUAL PRESS a = rotate_model 10 a /\
  handle_key fmt KEY_KP_ADD PRESS a = rotate_model 10 a /\
  handle_key fmt KEY_MINUS PRESS a = rotate_model (-10) a /\
  handle_key fmt KEY_KP_SUBTRACT PRESS a = rotate_model (-10) a.
Proof. intros Hm Ht. unfold handle_key. by rewrite Hm, Ht. Qed.

(** X17: the rotation of inspection mode, about the axis X, Y or Z, changes
    only the rotation of the root, and thereby turns the whole model: when
    the root is not translated, the world matrix of every registered node
    becomes translate(mc) * rotate(angle, axis) * translate(-mc) times the
    world matrix it had, [mc] being the centroid of the model. *)
Theorem model_rotation_moves_every_node (d : R) (a a' : app) (m : model_t) (v : vec3) :
  current_model a = Some m -> wf m (heap a) ->
  (forall rd, nodes (heap a) !! root m = Some rd -> translation rd = mat4_identity) ->
  axis_vector (axis_mode a) = Some v ->
  rotate_model d a = Some a' ->
  exists mc,
    compute_model_centroid (heap a) (Some m) = Some mc /\
    current_model a' = Some m /\ wf m (heap a') /\
    forall n, n ∈ all_nodes m ->
      exists w, get_world_matrix (heap a) n = Some w /\
                get_world_matrix (heap a') n
                = Some (mat4_mul (pivot_rotation mc (radians d) v) w).
Proof.
  intros Hm W Htr Hv H1.
  apply (rotate_model_Some d a a' m Hm) in H1 as (mc & rd & Hmc & Hrd & ->).
  rewrite Hv. exists mc. split_and!; [done|done|by apply root_rotation_wf|].
  intros n Hn.
  destruct (wf_chain _ _ W n Hn) as (l & Hl & _ & Hlen).
  destruct (world_matrix_chain _ _ _ Hl) as (w & _ & Hfuel).
  assert (Hnext : n < next_loc (heap a)).
  { apply (wf_next _ _ W), (wf_live _ _ W), Hn. }
  exists w. unfold get_world_matrix. split; [apply Hfuel; lia|].
  cbn [heap set_heap]. change (next_loc (rotate_root _ m rd (heap a))) with (next_loc (heap a)).
  apply (root_rotation_world m (heap a) rd _ W Hrd (Htr rd Hrd)). apply Hfuel. lia.
Qed.

(** X18: in inspection mode with the rotation transform, on a well-formed
    model with affine transforms whose root is not translated, a [+] key
    followed by a [-] key, or the other way round, leaves the whole state
    of the editor as it was: the second key finds the centroid the first
    one turned about (floats read as real numbers). *)
Theorem model_plus_then_minus_restores (fmt : R -> string) (a a1 : app) (m : model_t)
    (k k' : key) :
  app_mode a = MODE_INSPECTION -> trans_mode a = TM_ROT ->
  current_model a = Some m -> wf m (heap a) -> affine_nodes (heap a) ->
  (forall rd, nodes (heap a) !! root m = Some rd -> translation rd = mat4_identity) ->
  (k = KEY_EQUAL \/ k = KEY_KP_ADD) /\ (k' = KEY_MINUS \/ k' = KEY_KP_SUBTRACT) \/
  (k = KEY_MINUS \/ k = KEY_KP_SUBTRACT) /\ (k' = KEY_EQUAL \/ k' = KEY_KP_ADD) ->
  handle_key fmt k PRESS a = Some a1 ->
  handle_key fmt k' PRESS a1 = Some a.
Proof.
  intros Hmode Ht Hm W Ha Htr Hk H1.
  destruct (plus_key_inspection fmt a Hmode Ht) as (Ep & Epk & Em & Emk).
  assert (Hmodes : forall d, rotate_model d a = Some a1 ->
            app_mode a1 = MODE_INSPECTION /\ trans_mode a1 = TM_ROT).
  { intros d H. apply (rotate_model_Some d a a1 m Hm) in H as (mc & rd & _ & _ & ->).
    by destruct (axis_vector (axis_mode a)). }
  assert (Hundo : forall d1 d2, (d1 + d2 = 0)%R -> rotate_model d1 a = Some a1 ->
            rotate_model d2 a1 = Some a).
  { intros d1 d2 Hd H. rewrite (rotate_model_twice d1 d2 a a1 m Hm W Ha Htr H), Hd.
    by eapply rotate_model_zero. }
  assert (Hm1 : app_mode a1 = MODE_INSPECTION /\ trans_mode a1 = TM_ROT).
  { destruct Hk as [[[-> | ->] _]|[[-> | ->] _]]; rewrite ?Ep, ?Epk, ?Em, ?Emk in H1; eauto. }
  destruct Hm1 as [Hm1 Ht1].
  destruct (plus_key_inspection fmt a1 Hm1 Ht1) as (Ep1 & Epk1 & Em1 & Emk1).
  destruct Hk as [[[-> | ->] [-> | ->]]|[[-> | ->] [-> | ->]]];
    rewrite ?Ep, ?Epk, ?Em, ?Emk in H1; rewrite ?Ep1, ?Epk1, ?Em1, ?Emk1;
    (eapply Hundo; [|exact H1]; lra).
Qed.

(** * The editor never follows a dangling pointer *)

(** ** Affine transforms *)

Lemma affine_translate (m : mat4) (v : vec3) : affine m -> affine (glm.translate m v).
Proof.
  destruct m as [[] [] [] []], v. unfold affine. cbn [col0 col1 col2 col3 vw].
  intros (-> & -> & -> & ->). mat_norm. split_and!; ring.
Qed.

Lemma affine_scale (m : mat4) (v : vec3) : affine m -> affine (glm.scale m v).
Proof.
  destruct m as [[] [] [] []], v. unfold affine. cbn [col0 col1 col2 col3 vw].
  intros (-> & -> & -> & ->). mat_norm. split_and!; ring.
Qed.

Lemma fresh_node_affine s p :
  affine (translation (fresh_node s p)) /\ affine (rotation (fresh_node s p)) /\
  affine (scale (fresh_node s p)).
Proof. split_and!; apply affine_identity. Qed.

Lemma record_node_affine r s p :
  affine (translation (record_node r s p)) /\ affine (rotation (record_node r s p)) /\
  affine (scale (record_node r s p)).
Proof.
  cbn [record_node translation rotation scale]. split_and!.
  - apply affine_translate, affine_identity.
  - apply affine_identity.
  - apply affine_scale, affine_identity.
Qed.

Lemma root_store_affine n : affine_nodes (root_store n).
Proof.
  intros x xd Hx. cbn [root_store nodes] in Hx. apply lookup_singleton_Some in Hx as [_ <-].
  apply fresh_node_affine.
Qed.

Lemma attach_affine s p pd σ :
  affine_nodes σ -> nodes σ !! p = Some pd -> affine_nodes (attach s p pd σ).
Proof.
  intros Ha Hp x xd. rewrite attach_lookup. repeat case_decide.
  - intros [= <-]. apply fresh_node_affine.
  - intros [= <-]. exact (Ha p pd Hp).
  - apply Ha.
Qed.

(** ** Registries in the order of allocation *)

Lemma ascending_snoc (l : list loc) (x : loc) :
  ascending l -> (forall y, y ∈ l -> y < x) -> ascending (l ++ [x]).
Proof.
  intros Hl Hx. apply StronglySorted_app. split_and!; [|done|repeat constructor].
  intros y z Hy ->%list_elem_of_singleton. by apply Hx.
Qed.

Lemma ascending_erase_all (c : loc) (l : list loc) : ascending l -> ascending (erase_all c l).
Proof.
  unfold ascending. induction l as [|x l IH]; [done|].
  intros [Hx Hl]%StronglySorted_cons. simpl. destruct (negb (x =? c)); [|by apply IH].
  apply StronglySorted_cons. split; [|by apply IH].
  apply Forall_forall. intros y [Hy _]%erase_all_elem. by eapply Forall_forall in Hx.
Qed.

Lemma ascending_lookup (l : list loc) (i j x y : loc) :
  ascending l -> l !! i = Some x -> l !! j = Some y -> i < j -> x < y.
Proof.
  unfold ascending. intros Hl. revert i j.
  induction Hl as [|a l _ IH Ha]; intros i j Hi Hj Hlt; [done|].
  destruct j as [|j]; [lia|]. destruct i as [|i].
  - injection Hi as <-. eapply Forall_forall in Ha; [done|]. by eapply list_elem_of_lookup_2.
  - eapply IH; [done..|lia].
Qed.

Lemma remove_node_ascending node m σ m' σ' :
  remove_node node m σ = Some (m', σ') -> ascending (all_nodes m) -> ascending (all_nodes m').
Proof.
  unfold remove_node. destruct node as [n|]; [|by intros [= <- <-]].
  destruct (n =? root m); [by intros [= <- <-]|].
  destruct (nodes σ !! n) as [nd|]; [|done]. cbn [mbind option_bind].
  destruct (match parent nd with Some p => remove_child p n σ | None => Some σ end)
    as [σ1|]; [|done]. cbn [mbind option_bind].
  destruct (collect σ1 n []) as [to_remove|]; [|done]. cbn [mbind option_bind].
  destruct (delete_node n σ1) as [σ2|]; [|done]. cbn [mbind option_bind].
  intros [= <- <-] Hasc. cbn [all_nodes].
  assert (Hfold : forall l acc, ascending acc ->
            ascending (foldl (fun acc x => if x =? n then acc else erase_all x acc) acc l)).
  { induction l as [|x l IH]; intros acc Hacc; [done|]. simpl. apply IH.
    destruct (x =? n); [done|by apply ascending_erase_all]. }
  by apply Hfold, ascending_erase_all.
Qed.

(** ** Key 5: the node before the selected one *)

(** The loop of key 5 finds the position of the selected node. *)
Lemma last_index_of_spec (n : loc) (l : list loc) :
  n ∈ l -> exists i, last_index_of n l = Z.of_nat i /\ l !! i = Some n.
Proof.
  unfold last_index_of.
  assert (Hgen : forall (l : list loc) (g : nat -> nat) (acc : Z),
            let r := foldl (fun idx '(i, x) => if x =? n then Z.of_nat i else idx) acc
                           (imap (fun i x => (g i, x)) l) in
            ((n ∉ l) /\ r = acc) \/ exists i, r = Z.of_nat (g i) /\ l !! i = Some n).
  { clear l. induction l as [|x l IH]; intros g acc; cbv zeta.
    - left. split; [apply not_elem_of_nil|done].
    - cbn [imap foldl].
      destruct (IH (g ∘ S) (if x =? n then Z.of_nat (g 0) else acc)) as [[Hnin E]|(i & E & Hi)].
      + cbv zeta in E. unfold compose in E.
        change (imap ((fun i x => (g i, x)) ∘ S) l) with (imap (fun i x => (g (S i), x)) l).
        rewrite E. destruct (Nat.eqb_spec x n) as [->|Hne].
        * right. exists 0. done.
        * left. split; [|done]. by intros [?|?]%elem_of_cons.
      + cbv zeta in E. unfold compose in E.
        change (imap ((fun i x => (g i, x)) ∘ S) l) with (imap (fun i x => (g (S i), x)) l).
        right. exists (S i). done. }
  intros Hin. destruct (Hgen l (fun i => i) (-1)%Z) as [[Hnin _]|(i & E & Hi)]; [done|].
  exists i. split; [exact E|done].
Qed.

(** ** The branches of the key handler *)

Lemma app_ok_model (a : app) (m : model_t) :
  current_model a = Some m ->
  app_ok a <-> wf m (heap a) /\ ascending (all_nodes m) /\
               valid_pointer m (current_node a) /\ affine_nodes (heap a).
Proof. intros Hm. unfold app_ok. by rewrite Hm. Qed.

Lemma create_shape_ok sh p m σ :
  wf m σ -> ascending (all_nodes m) -> affine_nodes σ -> valid_pointer m p ->
  exists node m' σ',
    create_shape sh p m σ = Some (node, m', σ') /\
    wf m' σ' /\ ascending (all_nodes m') /\ affine_nodes σ' /\ node ∈ all_nodes m'.
Proof.
  intros W Hasc Ha Hp.
  destruct (create_shape_spec sh p m σ W Hp) as (node & m' & σ' & E & W' & _ & Hall & _).
  destruct (create_shape_eq sh p m σ W Hp) as (qd & Hqd & E').
  rewrite E' in E. injection E as <- <- <-.
  eexists _, _, _. split; [exact E'|]. split_and!; [done| | |].
  - cbn [all_nodes]. apply ascending_snoc; [done|].
    intros y Hy%(wf_live _ _ W)%(wf_next _ _ W). lia.
  - apply attach_affine; [|done]. exact Ha.
  - cbn [all_nodes]. apply elem_of_app. right. by left.
Qed.

Lemma ensure_model_ok (a : app) :
  app_ok a ->
  exists a1 m, ensure_model a = Some a1 /\ app_ok a1 /\ current_model a1 = Some m /\
               app_mode a1 = app_mode a /\ trans_mode a1 = trans_mode a /\
               axis_mode a1 = axis_mode a /\ disk a1 = disk a.
Proof.
  intros Hok. unfold ensure_model. destruct (current_model a) as [m|] eqn:Hm.
  - exists a, m. by split_and!.
  - unfold app_ok in Hok. rewrite Hm in Hok. destruct Hok as (Hcur & Hn & Hs).
    assert (Hheap : heap a = mk_store ∅ ∅ (next_loc (heap a))).
    { destruct (heap a); simpl in *; by subst. }
    rewrite Hheap, new_model_eq. cbn [mbind option_bind].
    eexists _, _. split; [reflexivity|]. split_and!; try done.
    unfold app_ok. cbn [current_model heap current_node].
    split_and!; [apply root_wf|repeat constructor|done|apply root_store_affine].
Qed.

Lemma add_shape_ok (sh : shape_t) (a : app)
    (create : option loc -> model_t -> store -> option (loc * model_t * store)) :
  (forall p m σ, create p m σ = create_shape sh p m σ) ->
  app_ok a -> exists a', add_shape create a = Some a' /\ app_ok a'.
Proof.
  intros Hcreate Hok. unfold add_shape.
  destruct (ensure_model_ok a Hok) as (a1 & m & -> & Hok1 & Hm & _).
  cbn [mbind option_bind]. rewrite Hm. cbn [mbind option_bind].
  apply (app_ok_model a1 m Hm) in Hok1 as (W & Hasc & _ & Ha).
  destruct (create_shape_ok sh (Some (root m)) m (heap a1) W Hasc Ha)
    as (node & m' & σ' & E & W' & Hasc' & Ha' & Hin); [by apply (root_in_registry m (heap a1))|].
  rewrite Hcreate, E. cbn [mbind option_bind].
  eexists. split; [reflexivity|].
  unfold app_ok, set_current. cbn [current_model heap current_node]. by split_and!.
Qed.

Lemma remove_current_ok (a : app) :
  app_ok a -> exists a', remove_current a = Some a' /\ app_ok a'.
Proof.
  intros Hok. unfold remove_current.
  destruct (current_node a) as [cur|] eqn:Hcur; [|by eauto].
  destruct (current_model a) as [m|] eqn:Hm; [|by eauto].
  destruct (Nat.eqb_spec cur (root m)) as [Heq|Hne]; [by eauto|].
  pose proof Hok as Hok'. apply (app_ok_model a m Hm) in Hok' as (W & Hasc & Hv & Ha).
  rewrite Hcur in Hv. cbn [valid_pointer] in Hv.
  destruct (remove_node_spec m (heap a) cur W Hv Hne)
    as (nd & p & pd & l & m' & σ' & Hn & Hp & Hpd & Hc & E & W' & _ & _ & _ & _ &
        Nl & Ml & Hall & _ & Hp' & Hsame & Hnone).
  rewrite E. cbn [mbind option_bind]. eexists. split; [reflexivity|].
  unfold app_ok, set_current. cbn [current_model heap current_node].
  split_and!; [done|by eapply remove_node_ascending| |].
  - destruct (last_index_of_spec cur (all_nodes m) Hv) as (i & -> & Hi).
    destruct (Z.ltb_spec 1 (Z.of_nat i)) as [Hlt|_]; [|done].
    replace (Z.to_nat (Z.of_nat i - 1)) with (i - 1) by lia.
    destruct (all_nodes m !! (i - 1)) as [y|] eqn:Hy; [|done].
    cbn [valid_pointer]. apply Hall. split; [by eapply list_elem_of_lookup_2|].
    intros Hr%(reach_le _ _ (wf_tree _ _ W)).
    pose proof (ascending_lookup _ _ _ _ _ Hasc Hy Hi). lia.
  - intros x xd Hx. destruct (decide (x = p)) as [->|Hxp].
    + rewrite Hp' in Hx. injection Hx as <-. exact (Ha p pd Hpd).
    + destruct (decide (x ∈ cur :: l)) as [Hin|Hnin].
      * apply Ml in Hin. rewrite (Hnone x Hin) in Hx. done.
      * rewrite Hsame in Hx; [by eapply Ha|done|by rewrite <- Ml].
Qed.

(** The pivot of a registered node is defined. *)
Lemma compute_shape_centroid_wf m σ n :
  wf m σ -> n ∈ all_nodes m -> is_Some (compute_shape_centroid σ (Some n)).
Proof.
  intros W [nd Hn]%(wf_live _ _ W). unfold compute_shape_centroid. rewrite Hn.
  cbn [mbind option_bind]. destruct (shape nd) as [sl|] eqn:Hs; [|by eauto].
  destruct (wf_node_shape _ _ W _ _ _ Hn Hs) as [sh ->]. cbn [mbind option_bind].
  destruct (vertices sh); eauto.
Qed.

(** Overwriting the transform or colour of a registered node. *)
Lemma update_node_ok (a : app) (m : model_t) (n : loc) (nd nd' : model_node) :
  current_model a = Some m -> app_ok a -> nodes (heap a) !! n = Some nd ->
  links nd' = links nd ->
  affine (translation nd') -> affine (rotation nd') -> affine (scale nd') ->
  app_ok (set_heap (set_nodes (<[n := nd']> (nodes (heap a))) (heap a)) a).
Proof.
  intros Hm Hok Hn Hl Ht Hr Hs.
  apply (app_ok_model a m Hm) in Hok as (W & Hasc & Hv & Ha).
  unfold app_ok, set_heap. cbn [current_model heap current_node]. rewrite Hm.
  split_and!; [by eapply wf_update|done|done|].
  intros x xd. cbn [nodes set_nodes]. destruct (decide (n = x)) as [<-|Hne].
  - rewrite lookup_insert_eq. by intros [= <-].
  - rewrite lookup_insert_ne by done. apply Ha.
Qed.

Lemma apply_transform_ok (degrees d s : R) (a : app) :
  app_ok a -> exists a', apply_transform degrees d s a = Some a' /\ app_ok a'.
Proof.
  intros Hok. unfold apply_transform.
  destruct (current_node a) as [n|] eqn:Hcur; [|by eauto].
  destruct (current_model a) as [m|] eqn:Hm.
  2: { unfold app_ok in Hok. rewrite Hm, Hcur in Hok. by destruct Hok. }
  pose proof Hok as Hok'. apply (app_ok_model a m Hm) in Hok' as (W & Hasc & Hv & Ha).
  rewrite Hcur in Hv. cbn [valid_pointer] in Hv.
  destruct (compute_shape_centroid_wf m (heap a) n W Hv) as [c Hc].
  destruct (proj1 (wf_live _ _ W n) Hv) as [nd Hn].
  destruct (Ha n nd Hn) as (At & Ar & As).
  destruct (trans_mode a); [by eauto|..].
  - unfold rotate_node. rewrite Hc, Hn. cbn [mbind option_bind].
    destruct (axis_vector (axis_mode a)) as [v|] eqn:Hv'; cbn [mbind option_bind].
    + eexists. split; [reflexivity|]. apply (update_node_ok a m n nd); try done.
      cbn [rotation set_rotation]. apply affine_mul; [|done].
      by apply (pivot_rotation_affine c _ (axis_mode a)).
    + rewrite set_heap_heap. by eauto.
  - unfold translate_node. rewrite Hn. cbn [mbind option_bind].
    destruct (axis_mode a =? 1)%Z; [|destruct (axis_mode a =? 2)%Z;
      [|destruct (axis_mode a =? 3)%Z]]; cbn [mbind option_bind];
      [| | |rewrite set_heap_heap; by eauto];
      (eexists; split; [reflexivity|]; apply (update_node_ok a m n nd); try done;
       cbn [translation set_translation]; by apply affine_translate).
  - unfold scale_node. rewrite Hc, Hn. cbn [mbind option_bind].
    eexists. split; [reflexivity|]. apply (update_node_ok a m n nd); try done.
    cbn [scale set_scale]. apply affine_mul; [|done].
    repeat apply affine_mul.
    + apply affine_translate, affine_identity.
    + apply affine_scale, affine_identity.
    + apply affine_translate, affine_identity.
Qed.

Lemma change_color_ok (rgb : option (R * R * R)) (a : app) :
  app_ok a -> exists a', change_color rgb a = Some a' /\ app_ok a'.
Proof.
  intros Hok. unfold change_color.
  destruct (current_node a) as [n|] eqn:Hcur; [|by eauto].
  destruct rgb as [[[r g] b]|]; [|by eauto].
  destruct (current_model a) as [m|] eqn:Hm.
  2: { unfold app_ok in Hok. rewrite Hm, Hcur in Hok. by destruct Hok. }
  pose proof Hok as Hok'. apply (app_ok_model a m Hm) in Hok' as (W & Hasc & Hv & Ha).
  rewrite Hcur in Hv. cbn [valid_pointer] in Hv.
  destruct (proj1 (wf_live _ _ W n) Hv) as [nd Hn]. rewrite Hn. cbn [mbind option_bind].
  destruct (Ha n nd Hn) as (At & Ar & As).
  eexists. split; [reflexivity|]. by apply (update_node_ok a m n nd).
Qed.

Lemma get_world_matrix_wf m σ n :
  wf m σ -> n ∈ all_nodes m -> is_Some (get_world_matrix σ n).
Proof.
  intros W Hn. destruct (wf_chain _ _ W n Hn) as (l & Hl & _ & Hlen).
  destruct (world_matrix_chain _ _ _ Hl) as (w & _ & Hfuel).
  assert (n < next_loc σ) by (apply (wf_next _ _ W), (wf_live _ _ W), Hn).
  exists w. apply Hfuel. lia.
Qed.

(** The centroid of a well-formed model is defined. *)
Lemma compute_model_centroid_wf m σ :
  wf m σ -> is_Some (compute_model_centroid σ (Some m)).
Proof.
  intros W. unfold compute_model_centroid.
  destruct (collect_root m σ W) as (l & -> & _ & Ml & _). cbn [mbind option_bind].
  assert (Hfold : forall l' acc, (forall x, x ∈ l' -> x ∈ all_nodes m) ->
            is_Some (foldl (model_centroid_step σ) (Some acc) l')).
  { induction l' as [|n l' IH]; intros acc Hl'; [by eauto|]. cbn [foldl].
    assert (Hstep : is_Some (model_centroid_step σ (Some acc) n)).
    { destruct acc as [s k]. unfold model_centroid_step. cbn [mbind option_bind].
      assert (Hn : n ∈ all_nodes m) by (apply Hl'; by left).
      destruct (proj1 (wf_live _ _ W n) Hn) as [nd Hnd]. rewrite Hnd. cbn [mbind option_bind].
      destruct (shape nd) as [sl|] eqn:Hs; [|by eauto].
      destruct (wf_node_shape _ _ W _ _ _ Hnd Hs) as [sh ->]. cbn [mbind option_bind].
      destruct (vertices sh); [by eauto|].
      destruct (compute_shape_centroid_wf m σ n W Hn) as [c ->]. cbn [mbind option_bind].
      destruct (get_world_matrix_wf m σ n W Hn) as [w ->]. cbn [mbind option_bind]. by eauto. }
    destruct Hstep as [acc' ->]. apply IH. intros x Hx. apply Hl'. by right. }
  destruct (Hfold (root m :: l) (vec3_zero, 0)) as [[s k] ->]; [by intros x ?%Ml|].
  cbn [mbind option_bind]. by eauto.
Qed.

Lemma rotate_model_ok (d : R) (a : app) :
  app_ok a -> exists a', rotate_model d a = Some a' /\ app_ok a'.
Proof.
  intros Hok. unfold rotate_model. destruct (current_model a) as [m|] eqn:Hm; [|by eauto].
  pose proof Hok as Hok'. apply (app_ok_model a m Hm) in Hok' as (W & Hasc & Hv & Ha).
  destruct (compute_model_centroid_wf m (heap a) W) as [mc ->]. cbn [mbind option_bind].
  destruct (wf_root _ _ W) as (rd & Hrd & _). rewrite Hrd. cbn [mbind option_bind].
  destruct (Ha _ rd Hrd) as (At & Ar & As).
  destruct (axis_vector (axis_mode a)) as [v|] eqn:Hv'; [|by eauto].
  eexists. split; [reflexivity|]. apply (update_node_ok a m (root m) rd); try done.
  cbn [rotation set_rotation]. apply affine_mul; [|done].
  by apply (pivot_rotation_affine mc _ (axis_mode a)).
Qed.

Lemma save_model_ok (fmt : R -> string) (fname : string) (a : app) :
  app_ok a -> exists a', save_model fmt fname a = Some a' /\ app_ok a'.
Proof.
  intros Hok. unfold save_model. destruct (current_model a) as [m|] eqn:Hm; [|by eauto].
  pose proof Hok as Hok'. apply (app_ok_model a m Hm) in Hok' as (W & Hasc & Hv & Ha).
  assert (exists ok fs, save_to_file fmt (with_extension fname) m (heap a) (disk a)
                        = Some (ok, fs)) as (ok & fs & ->).
  { destruct (writable (disk a) (with_extension fname)) eqn:Hw.
    - destruct (save_to_file_wf fmt _ m (heap a) (disk a) W Hw)
        as (l & lines & _ & _ & _ & _ & E & _). eauto.
    - unfold save_to_file. rewrite Hw. eauto. }
  cbn [mbind option_bind]. eexists. split; [reflexivity|].
  unfold app_ok. cbn [current_model heap current_node]. done.
Qed.

Lemma load_lines_ascending lines : forall m σ m' σ' l',
  wf m σ -> ascending (all_nodes m) ->
  load_lines lines (m, σ, all_nodes m) = Some (m', σ', l') -> ascending (all_nodes m').
Proof.
  unfold load_lines. induction lines as [|line lines IH]; intros m σ m' σ' l' W Hasc E.
  - by injection E as <- _ _.
  - simpl in E. unfold load_line at 2 in E. destruct (extract_line line) as [r|].
    + destruct (load_record_spec m σ r W)
        as (m1 & σ1 & node & s & pd & E1 & W1 & _ & Hall & _ & _ & _ & _ & _ & _ & _ & _ & Hge & _).
      cbv zeta in *. rewrite E1 in E. refine (IH _ _ _ _ _ W1 _ E).
      rewrite Hall. apply ascending_snoc; [done|].
      intros y Hy%(wf_live _ _ W)%(wf_next _ _ W). lia.
    + exact (IH _ _ _ _ _ W Hasc E).
Qed.

Lemma load_from_file_ok filename m σ fs lines :
  wf m σ -> files fs !! filename = Some lines ->
  exists m' σ', load_from_file filename m σ fs = Some (true, m', σ') /\
    wf m' σ' /\ ascending (all_nodes m') /\ affine_nodes σ' /\ all_nodes m' <> [].
Proof.
  intros W Hf. pose proof (load_from_file_wf filename m σ fs W) as H. rewrite Hf in H.
  destruct H as (m' & σ' & E & W' & El & _). exists m', σ'. split_and!; [done..| | |].
  - eapply (load_lines_ascending lines (root_model (next_loc σ))); [apply root_wf| |exact El].
    repeat constructor.
  - intros n nd. revert n nd.
    refine (load_lines_nodes_inv
              (fun nd => affine (translation nd) /\ affine (rotation nd) /\ affine (scale nd))
              _ _ lines (root_model (next_loc σ)) (root_store (next_loc σ)) m' σ' (all_nodes m')
              (root_wf _) _ El).
    + intros nd cs H. exact H.
    + intros r s p. apply record_node_affine.
    + apply root_store_affine.
  - intros Hnil. pose proof (root_in_registry m' σ' W') as Hin. rewrite Hnil in Hin.
    by apply elem_of_nil in Hin.
Qed.

Lemma load_model_ok (fname : string) (a : app) :
  app_ok a -> exists a', load_model fname a = Some a' /\ app_ok a'.
Proof.
  intros Hok. unfold load_model.
  assert (exists n0,
            match current_model a with
            | Some m => σ ← delete_model m (heap a); Some (None, σ)
            | None => Some (current_node a, heap a)
            end = Some (None, mk_store ∅ ∅ n0)) as (n0 & ->).
  { unfold app_ok in Hok. destruct (current_model a) as [m|].
    - destruct Hok as (W & _). rewrite (delete_model_wf _ _ W). by eauto.
    - destruct Hok as (-> & Hn & Hs). exists (next_loc (heap a)).
      destruct (heap a); simpl in *; by subst. }
  cbn [mbind option_bind]. rewrite new_model_eq. cbn [mbind option_bind].
  destruct (files (disk a) !! with_extension fname) as [lines|] eqn:Hf.
  - destruct (load_from_file_ok _ _ _ _ lines (root_wf n0) Hf)
      as (m' & σ' & -> & W' & Hasc' & Ha' & Hne).
    cbn [mbind option_bind]. eexists. split; [reflexivity|].
    unfold app_ok. cbn [current_model heap current_node]. split_and!; [done..| |done].
    destruct (last (all_nodes m')) as [n|] eqn:Hlast; [|done].
    cbn [valid_pointer]. apply last_Some in Hlast as [l' ->]. apply elem_of_app. right. by left.
  - pose proof (load_from_file_wf (with_extension fname) (root_model n0) (root_store n0)
                  (disk a) (root_wf n0)) as H.
    rewrite Hf in H. rewrite H. cbn [mbind option_bind].
    rewrite (delete_model_wf _ _ (root_wf n0)). cbn [mbind option_bind].
    eexists. split; [reflexivity|]. unfold app_ok. cbn [current_model heap current_node].
    done.
Qed.

(** One key event keeps the editor in a safe state. *)
Lemma handle_key_ok (fmt : R -> string) (k : key) (act : key_action) (a : app) :
  app_ok a -> exists a', handle_key fmt k act a = Some a' /\ app_ok a'.
Proof.
  intros Hok.
  assert (Hmode : forall md, app_ok (set_app_mode md a)) by (intros md; exact Hok).
  assert (Htm : forall tm, app_ok (set_trans_mode tm a)) by (intros tm; exact Hok).
  assert (Hax : forall ax, app_ok (set_axis_mode ax a)) by (intros ax; exact Hok).
  unfold handle_key. destruct act; [| |by eauto].
  - destruct k; try (by eauto); destruct (app_mode a); try (by eauto);
      try (by apply (add_shape_ok (sphere_t 1)));
      try (by apply (add_shape_ok (cylinder_t 1)));
      try (by apply (add_shape_ok (box_t 0)));
      try (by apply (add_shape_ok (cone_t 1)));
      try (by apply remove_current_ok); try (by apply apply_transform_ok);
      try (by apply change_color_ok); try (by apply save_model_ok);
      try (by apply load_model_ok);
      destruct (trans_mode a); try (by eauto); by apply rotate_model_ok.
  - destruct k; try (by eauto); destruct (app_mode a); try (by eauto);
      try (by apply (add_shape_ok (sphere_t 1)));
      try (by apply (add_shape_ok (cylinder_t 1)));
      try (by apply (add_shape_ok (box_t 0)));
      try (by apply (add_shape_ok (cone_t 1)));
      try (by apply remove_current_ok); try (by apply apply_transform_ok);
      try (by apply change_color_ok); try (by apply save_model_ok);
      try (by apply load_model_ok);
      destruct (trans_mode a); try (by eauto); by apply rotate_model_ok.
Qed.

(** ** Sequences of events, and what is shown after them *)

Lemma handle_events_ok (fmt : R -> string) (evs : list (key * key_action)) : forall a,
  app_ok a -> exists a', handle_events fmt evs a = Some a' /\ app_ok a'.
Proof.
  unfold handle_events. induction evs as [|[k act] evs IH]; intros a Hok; [by eauto|].
  cbn [foldl mbind option_bind].
  destruct (handle_key_ok fmt k act a Hok) as (a1 & -> & Hok1). by apply IH.
Qed.

Lemma initial_app_ok (fs : filesystem) :
  exists a0, initial_app fs = Some a0 /\ app_ok a0.
Proof.
  unfold initial_app. change empty_store with (mk_store ∅ ∅ 0). rewrite new_model_eq.
  cbn [mbind option_bind]. eexists. split; [reflexivity|].
  unfold app_ok. cbn [current_model heap current_node].
  split_and!; [apply root_wf|repeat constructor|done|apply root_store_affine].
Qed.

Lemma draw_scene_ok (shader_program : Z) (proj view : mat4) (a : app) :
  app_ok a -> is_Some (draw_scene shader_program proj view a).
Proof.
  intros Hok. unfold draw_scene. destruct (current_model a) as [m|] eqn:Hm; [|by eauto].
  destruct (shader_program =? 0)%Z; [by eauto|].
  destruct (proj1 (app_ok_model a m Hm) Hok) as (W & _).
  destruct (collect_root m (heap a) W) as (l & -> & _ & Ml & _). cbn [mbind option_bind].
  assert (Hcalls : is_Some (mapM (draw_node proj view (heap a)) (root m :: l))).
  { apply mapM_is_Some, Forall_forall. intros n Hn%Ml. unfold compose, draw_node.
    destruct (proj1 (wf_live _ _ W n) Hn) as [nd Hnd]. rewrite Hnd. cbn [mbind option_bind].
    destruct (shape nd) as [sl|] eqn:Hs; [|by eauto].
    destruct (get_world_matrix_wf m (heap a) n W Hn) as [w ->]. cbn [mbind option_bind].
    destruct (wf_node_shape _ _ W _ _ _ Hnd Hs) as [sh ->]. by eauto. }
  destruct Hcalls as [calls ->]. by eauto.
Qed.

Lemma debug_print_ok (m : model_t) (σ : store) :
  wf m σ -> exists out, debug_print m σ = Some out /\ length out = length (all_nodes m).
Proof.
  intros W. unfold debug_print.
  destruct (collect_root m σ W) as (l & E & Nl & Ml & _). rewrite E. cbn [mbind option_bind].
  assert (Hout : is_Some (mapM (debug_line σ) (root m :: l))).
  { apply mapM_is_Some, Forall_forall. intros n Hn%Ml. unfold compose, debug_line.
    destruct (proj1 (wf_live _ _ W n) Hn) as [nd Hnd]. rewrite Hnd. cbn [mbind option_bind].
    destruct (shape nd) as [sl|] eqn:Hs; [|by eauto].
    destruct (wf_node_shape _ _ W _ _ _ Hnd Hs) as [sh ->]. by eauto. }
  destruct Hout as [out Hout]. exists out. split; [done|].
  apply mapM_Some, Forall2_length in Hout. rewrite <- Hout.
  apply Permutation_length, NoDup_Permutation; [done|apply W|done].
Qed.

(** X19: whatever keys are pressed, released or repeated after start-up,
    and whatever the files contain, the editor never follows a null or
    dangling pointer: every key handler returns, in a state where the
    model is well formed and the selected node is null or a live
    registered node, and in that state [draw_scene] and [debug_print]
    return as well. *)
Theorem editor_never_dangles (fmt : R -> string) (fs : filesystem)
    (evs : list (key * key_action)) :
  exists a0 a,
    initial_app fs = Some a0 /\ handle_events fmt evs a0 = Some a /\ app_ok a /\
    (forall k act, is_Some (handle_key fmt k act a)) /\
    (forall shader_program proj view, is_Some (draw_scene shader_program proj view a)) /\
    (forall m, current_model a = Some m -> is_Some (debug_print m (heap a))).
Proof.
  destruct (initial_app_ok fs) as (a0 & E0 & Hok0).
  destruct (handle_events_ok fmt evs a0 Hok0) as (a & E & Hok).
  exists a0, a. split_and!; [done..| | |].
  - intros k act. destruct (handle_key_ok fmt k act a Hok) as (a' & -> & _). by eauto.
  - intros sp proj view. by apply draw_scene_ok.
  - intros m Hm. destruct (proj1 (app_ok_model a m Hm) Hok) as (W & _).
    destruct (debug_print_ok m (heap a) W) as (out & -> & _). by eauto.
Qed.

(** X20: the [L] key of inspection mode.  If the named file (with [.mod]
    appended when the name lacks it) does not exist, the editor is left
    without model and without selection, and everything is freed.  If it
    exists, the old model is replaced by one with a root and one node for
    every line from which the fifteen values can be extracted, each in
    the range of its type, and the last of these nodes is selected.  The
    disk is not touched. *)
Theorem load_key_outcome (fmt : R -> string) (fname : string) (a : app) :
  app_ok a -> app_mode a = MODE_INSPECTION ->
  exists a',
    handle_key fmt (KEY_L fname) PRESS a = Some a' /\ app_ok a' /\ disk a' = disk a /\
    match files (disk a) !! with_extension fname with
    | None =>
        current_model a' = None /\ current_node a' = None /\
        nodes (heap a') = ∅ /\ shapes (heap a') = ∅
    | Some lines =>
        exists m', current_model a' = Some m' /\
                   length (all_nodes m') = S (length (List.filter extractable lines)) /\
                   current_node a' = last (all_nodes m') /\ is_Some (current_node a')
    end.
Proof.
  intros Hok Hmode. destruct (load_model_ok fname a Hok) as (a' & E & Hok').
  exists a'. unfold handle_key. rewrite Hmode. split_and!; [done|done| |].
  - unfold load_model in E.
    destruct (match current_model a with Some m => _ | None => _ end) as [[cur σ0]|];
      cbn [mbind option_bind] in E; [|done].
    destruct (new_model σ0) as [[m1 σ1]|]; cbn [mbind option_bind] in E; [|done].
    destruct (load_from_file _ m1 σ1 (disk a)) as [[[ok m2] σ2]|];
      cbn [mbind option_bind] in E; [|done].
    destruct ok; [by injection E as <-|].
    destruct (delete_model m2 σ2); cbn [mbind option_bind] in E; [|done]. by injection E as <-.
  - unfold load_model in E.
    assert (exists n0,
            match current_model a with
            | Some m => σ ← delete_model m (heap a); Some (None, σ)
            | None => Some (current_node a, heap a)
            end = Some (None, mk_store ∅ ∅ n0)) as (n0 & E0).
    { unfold app_ok in Hok. destruct (current_model a) as [m|].
      - destruct Hok as (W & _). rewrite (delete_model_wf _ _ W). by eauto.
      - destruct Hok as (-> & Hn & Hs). exists (next_loc (heap a)).
        destruct (heap a); simpl in *; by subst. }
    rewrite E0 in E. cbn [mbind option_bind] in E. rewrite new_model_eq in E.
    cbn [mbind option_bind] in E.
    pose proof (load_from_file_wf (with_extension fname) (root_model n0) (root_store n0)
                  (disk a) (root_wf n0)) as H.
    destruct (files (disk a) !! with_extension fname) as [lines|] eqn:Hf.
    + destruct H as (m' & σ' & El & W' & Elines & _). rewrite El in E.
      cbn [mbind option_bind] in E. injection E as <-. cbn [current_model current_node].
      exists m'. split_and!; [done| | |].
      * by rewrite (load_lines_count lines _ _ _ _ _ (root_wf _) Elines).
      * by destruct (last (all_nodes m')).
      * destruct (last (all_nodes m')) as [n|] eqn:Hlast; [by eauto|].
        apply last_None in Hlast. pose proof (root_in_registry m' σ' W') as Hin.
        rewrite Hlast in Hin. by apply elem_of_nil in Hin.
    + rewrite H in E. cbn [mbind option_bind] in E.
      rewrite (delete_model_wf _ _ (root_wf n0)) in E. cbn [mbind option_bind] in E.
      injection E as <-. done.
Qed.

(** * File names *)

Lemma substring_after (f s : string) :
  String.substring (String.length f) (String.length s) (f ++ s) = s.
Proof.
  induction f as [|c f IH].
  - change (String.append "" s) with s. cbn [String.length].
    induction s as [|c s IH]; [done|]. cbn [String.length String.substring]. by rewrite IH.
  - change (String.append (String c f) s) with (String c (String.append f s)).
    cbn [String.length String.substring]. exact IH.
Qed.

Lemma index_append (f : string) : String.index 0 ".mod" (f ++ ".mod") <> None.
Proof.
  intros H.
  apply (String.index_correct3 0 (String.length f)) in H; [| done | lia].
  apply H. exact (substring_after f ".mod").
Qed.

(** X21: the file name the [S] and [L] keys use always contains [.mod];
    the extension is appended once at most, and not at all when [.mod]
    occurs anywhere in the name: [scene] becomes [scene.mod], while
    [scene.mod] and [a.models] are taken as they are. *)
Theorem with_extension_adds_once (fname : string) :
  (exists i, String.index 0 ".mod" (with_extension fname) = Some i) /\
  with_extension (with_extension fname) = with_extension fname /\
  (with_extension fname = fname \/ with_extension fname = (fname ++ ".mod")%string) /\
  with_extension "scene" = "scene.mod" /\ with_extension "scene.mod" = "scene.mod" /\
  with_extension "a.models" = "a.models".
Proof.
  assert (H1 : exists i, String.index 0 ".mod" (with_extension fname) = Some i).
  { unfold with_extension. destruct (String.index 0 ".mod" fname) as [i|] eqn:E; [by eauto|].
    destruct (String.index 0 ".mod" (fname ++ ".mod")) as [i|] eqn:E'; [by eauto|].
    by apply index_append in E'. }
  split_and!; [done| | |done..].
  - destruct H1 as [i Hi]. unfold with_extension at 1. by rewrite Hi.
  - unfold with_extension. destruct (String.index 0 ".mod" fname); eauto.
Qed.

(** * World matrices under changes of the graph *)

Lemma world_matrix_fuel (h : gmap loc model_node) (fuel : nat) : forall fuel' x w,
  get_world_matrix_rec fuel h x = Some w -> fuel <= fuel' ->
  get_world_matrix_rec fuel' h x = Some w.
Proof.
  induction fuel as [|fuel IH]; intros fuel' x w E Hle; [done|].
  destruct fuel' as [|fuel']; [lia|]. simpl in *.
  destruct (h !! x) as [nd|]; [|done]. cbn [mbind option_bind] in *.
  destruct (parent nd) as [p|]; [|done].
  destruct (get_world_matrix_rec fuel h p) as [wp|] eqn:Ep; [|done].
  rewrite (IH fuel' p wp Ep) by lia. done.
Qed.

(** The world matrix of a node depends on the parent links and the local
    matrices along its chain only. *)
Lemma world_matrix_agree (h h' : gmap loc model_node) (S : loc -> Prop) :
  (forall x nd, S x -> h !! x = Some nd ->
     exists nd', h' !! x = Some nd' /\ parent nd' = parent nd /\
                 local_matrix nd' = local_matrix nd /\
                 forall p, parent nd = Some p -> S p) ->
  forall fuel x w, S x -> get_world_matrix_rec fuel h x = Some w ->
                   get_world_matrix_rec fuel h' x = Some w.
Proof.
  intros Hag. induction fuel as [|fuel IH]; intros x w Hx E; [done|].
  simpl in *. destruct (h !! x) as [nd|] eqn:Hnd; [|done]. cbn [mbind option_bind] in E.
  destruct (Hag x nd Hx Hnd) as (nd' & -> & Hp & Hl & HS). cbn [mbind option_bind].
  rewrite Hp, Hl. destruct (parent nd) as [p|]; [|done].
  destruct (get_world_matrix_rec fuel h p) as [wp|] eqn:Ep; [|done].
  by rewrite (IH p wp (HS p eq_refl) Ep).
Qed.

Lemma get_world_matrix_rec_S (fuel : nat) (h : gmap loc model_node) (x : loc) :
  get_world_matrix_rec (S fuel) h x =
  (nd ← h !! x;
   match parent nd with
   | Some p => w ← get_world_matrix_rec fuel h p; Some (mat4_mul w (local_matrix nd))
   | None => Some (local_matrix nd)
   end).
Proof. reflexivity. Qed.

Lemma local_matrix_fresh s p : local_matrix (fresh_node s p) = mat4_identity.
Proof.
  unfold local_matrix. cbn [fresh_node translation rotation scale].
  by rewrite !mat4_mul_identity_l.
Qed.

(** X22: a node created under a registered parent starts in the parent's
    frame: its world matrix is the parent's world matrix (the root's when
    the parent is null), and the world matrix of no other node changes. *)
Theorem create_places_node_in_parent_frame (sh : shape_t) (p : option loc) (m : model_t)
    (σ : store) :
  wf m σ -> valid_pointer m p ->
  exists node m' σ' w,
    create_shape sh p m σ = Some (node, m', σ') /\
    get_world_matrix σ (default (root m) p) = Some w /\
    get_world_matrix σ' node = Some w /\
    forall x, x ∈ all_nodes m -> get_world_matrix σ' x = get_world_matrix σ x.
Proof.
  intros W Hp. pose proof (wf_tree _ _ W) as T.
  destruct (create_shape_eq sh p m σ W Hp) as (qd & Hqd & E).
  set (q := default (root m) p) in *.
  assert (Hq : q ∈ all_nodes m) by (apply (wf_live _ _ W); eauto).
  set (σ0 := mk_store (nodes σ) (<[next_loc σ := sh]> (shapes σ)) (S (next_loc σ))) in *.
  set (σ' := attach (Some (next_loc σ)) q qd σ0) in *.
  assert (Hold : forall fuel x w, x ∈ all_nodes m ->
            get_world_matrix_rec fuel (nodes σ) x = Some w ->
            get_world_matrix_rec fuel (nodes σ') x = Some w).
  { apply (world_matrix_agree _ _ (fun x => x ∈ all_nodes m)).
    intros x nd Hx Hnd.
    assert (Hxn : x <> next_loc σ0).
    { apply (wf_live _ _ W), (wf_next _ _ W) in Hx. simpl. lia. }
    unfold σ'. rewrite attach_lookup, decide_False by done.
    assert (HS : forall y, parent nd = Some y -> y ∈ all_nodes m).
    { intros y Hy. destruct (decide (x = root m)) as [->|Hne].
      - destruct (wf_root _ _ W) as (rd & Hrd & Hnone). congruence.
      - destruct (wf_parent _ _ W _ _ Hnd Hne) as (y' & yd & Hy' & Hyd & _).
        apply (wf_live _ _ W). assert (y = y') as -> by congruence. eauto. }
    destruct (decide (x = q)) as [->|Hxq].
    - change (nodes σ0) with (nodes σ) in *. rewrite Hqd in Hnd. injection Hnd as <-.
      eexists. split_and!; [done|done|done|done].
    - exists nd. by split_and!. }
  destruct (get_world_matrix_wf m σ q W Hq) as [w Hw].
  eexists (S (next_loc σ)), _, σ', w. split_and!; [exact E|exact Hw| |].
  - assert (Hnode : nodes σ' !! S (next_loc σ)
                   = Some (fresh_node (Some (next_loc σ)) (Some q))).
    { unfold σ'. rewrite attach_lookup. change (next_loc σ0) with (S (next_loc σ)).
      by rewrite decide_True. }
    unfold get_world_matrix. change (next_loc σ') with (S (S (next_loc σ))).
    rewrite get_world_matrix_rec_S, Hnode.
    cbn [mbind option_bind]. change (parent (fresh_node _ (Some q))) with (Some q).
    cbv beta iota.
    rewrite (Hold (S (next_loc σ)) q w Hq).
    + cbn [mbind option_bind]. by rewrite local_matrix_fresh, mat4_mul_identity_r.
    + eapply world_matrix_fuel; [exact Hw|lia].
  - intros x Hx. destruct (get_world_matrix_wf m σ x W Hx) as [wx Hwx]. rewrite Hwx.
    unfold get_world_matrix. change (next_loc σ') with (S (S (next_loc σ))).
    apply (world_matrix_fuel _ (next_loc σ)); [|lia]. by apply Hold.
Qed.

(** X23: removing a registered node other than the root leaves the world
    matrix of every node that stays registered as it was. *)
Theorem remove_node_keeps_other_frames (m : model_t) (σ : store) (n : loc) :
  wf m σ -> n ∈ all_nodes m -> n <> root m ->
  exists m' σ',
    remove_node (Some n) m σ = Some (m', σ') /\
    forall x, x ∈ all_nodes m' ->
      x ∈ all_nodes m /\ is_Some (get_world_matrix σ x) /\
      get_world_matrix σ' x = get_world_matrix σ x.
Proof.
  intros W Hn Hne.
  destruct (remove_node_spec m σ n W Hn Hne)
    as (nd & p & pd & l & m' & σ' & Hnd & Hp & Hpd & Hc & E & W' & Hroot & _ & _ & Hnext &
        Nl & Ml & Hall & _ & Hp' & Hsame & Hnone).
  exists m', σ'. split; [exact E|]. intros x Hx.
  assert (Hxm : x ∈ all_nodes m) by (by apply Hall in Hx as [? _]).
  destruct (get_world_matrix_wf m σ x W Hxm) as [w Hw].
  split_and!; [done|by eauto|]. rewrite Hw.
  unfold get_world_matrix in *. rewrite Hnext.
  refine (world_matrix_agree (nodes σ) (nodes σ') (fun x => x ∈ all_nodes m') _ _ x w Hx Hw).
  intros y yd Hy Hyd.
  assert (exists yd', nodes σ' !! y = Some yd' /\ parent yd' = parent yd /\
                      local_matrix yd' = local_matrix yd) as (yd' & Hyd' & Hpar & Hloc).
  { destruct (decide (y = p)) as [->|Hyp].
    - rewrite Hpd in Hyd. injection Hyd as <-. rewrite Hp'. eexists. by split_and!.
    - rewrite Hsame; [by eauto|done|]. by apply Hall in Hy as [_ ?]. }
  exists yd'. split_and!; [done..|]. intros q Hq.
  destruct (decide (y = root m')) as [->|Hyr].
  - destruct (wf_root _ _ W') as (rd & Hrd & Hrnone). congruence.
  - destruct (wf_parent _ _ W' _ _ Hyd' Hyr) as (q' & qd & Hq' & Hqd & _).
    apply (wf_live _ _ W'). assert (q = q') as -> by congruence. eauto.
Qed.

(** * The keys that add and remove shapes *)

(** The root is the first node of a registry in the order of allocation. *)
Lemma registry_head (m : model_t) (σ : store) :
  wf m σ -> ascending (all_nodes m) -> all_nodes m !! 0 = Some (root m).
Proof.
  intros W Hasc.
  destruct (proj1 (list_elem_of_lookup _ _) (root_in_registry m σ W)) as [j Hj].
  destruct j as [|j]; [done|].
  destruct (all_nodes m !! 0) as [x|] eqn:Hx.
  - pose proof (ascending_lookup _ 0 (S j) x (root m) Hasc Hx Hj ltac:(lia)) as Hlt.
    assert (Hin : x ∈ all_nodes m) by (by eapply list_elem_of_lookup_2).
    apply (wf_reach m σ x W) in Hin. apply (reach_le _ _ (wf_tree _ _ W)) in Hin. lia.
  - apply lookup_ge_None in Hx. apply lookup_lt_Some in Hj. lia.
Qed.

(** X24: the [5] key of modelling mode, on a selected node other than the
    root: the node leaves the registry, and the selection moves to the
    node registered just before it, which is still registered after the
    removal and is never the root; when the removed node is the first
    one after the root nothing is selected any more, even if other
    shapes remain. *)
Theorem remove_key_selects_previous (fmt : R -> string) (a : app) (m : model_t) (cur : loc) :
  app_ok a -> app_mode a = MODE_MODELLING ->
  current_model a = Some m -> current_node a = Some cur -> cur <> root m ->
  exists a' m' i,
    handle_key fmt KEY_5 PRESS a = Some a' /\
    current_model a' = Some m' /\
    remove_node (Some cur) m (heap a) = Some (m', heap a') /\
    all_nodes m !! i = Some cur /\ 1 <= i /\
    current_node a' = (if decide (i = 1) then None else all_nodes m !! (i - 1)) /\
    (cur ∉ all_nodes m') /\
    valid_pointer m' (current_node a') /\
    current_node a' <> Some (root m').
Proof.
  intros Hok Hmode Hm Hcur Hne.
  destruct (handle_key_ok fmt KEY_5 PRESS a Hok) as (a' & E & Hok').
  pose proof Hok as Hok0. apply (app_ok_model a m Hm) in Hok0 as (W & Hasc & Hv & _).
  rewrite Hcur in Hv. cbn [valid_pointer] in Hv.
  pose proof E as E0. unfold handle_key in E0. rewrite Hmode in E0.
  unfold remove_current in E0. rewrite Hcur, Hm in E0.
  rewrite (proj2 (Nat.eqb_neq cur (root m)) Hne) in E0.
  destruct (remove_node_spec m (heap a) cur W Hv Hne)
    as (nd & p & pd & l & m' & σ' & _ & _ & _ & _ & Er & _ & Hroot & _ & _ & _ &
        _ & _ & Hall & _).
  rewrite Er in E0. cbn [mbind option_bind] in E0.
  destruct (last_index_of_spec cur (all_nodes m) Hv) as (i & Hidx & Hi).
  rewrite Hidx in E0. injection E0 as <-.
  pose proof (registry_head m (heap a) W Hasc) as Hhead.
  assert (Hi1 : 1 <= i).
  { destruct i as [|i]; [|lia]. rewrite Hhead in Hi. by injection Hi as <-. }
  assert (Hnew : (if (1 <? Z.of_nat i)%Z then all_nodes m !! Z.to_nat (Z.of_nat i - 1)
                  else None)
                 = if decide (i = 1) then None else all_nodes m !! (i - 1)).
  { destruct (decide (i = 1)) as [->|Hi2]; [done|].
    rewrite (proj2 (Z.ltb_lt 1 (Z.of_nat i))) by lia.
    by replace (Z.to_nat (Z.of_nat i - 1)) with (i - 1) by lia. }
  exists (set_current m' (if (1 <? Z.of_nat i)%Z
                          then all_nodes m !! Z.to_nat (Z.of_nat i - 1) else None) σ' a), m', i.
  split; [exact E|]. cbn [set_current current_model current_node heap].
  split_and!; [done|done|done|done|exact Hnew| | |].
  - intros Hin%Hall. destruct Hin as [_ Hnr]. apply Hnr. constructor.
  - unfold app_ok in Hok'. cbn [set_current current_model current_node heap] in Hok'.
    destruct Hok' as (_ & _ & Hv' & _). exact Hv'.
  - rewrite Hnew, Hroot. destruct (decide (i = 1)) as [|Hi2]; [done|].
    intros Hprev.
    pose proof (ascending_lookup _ 0 (i - 1) _ _ Hasc Hhead Hprev ltac:(lia)). lia.
Qed.

(** X25: the keys [1] to [4] of modelling mode add a sphere, a cylinder
    or a cone of level 1 or a box, always as a child of the root,
    whatever node is selected, with identity transforms and no children;
    the new node is appended to the registry and becomes the selected
    node.  Without a model the key first makes one, whose registry is
    then the root and the new node. *)
Theorem shape_keys_add_under_root (fmt : R -> string) (a : app) (k : key) (sh : shape_t) :
  app_ok a -> app_mode a = MODE_MODELLING ->
  (k, sh) ∈ [(KEY_1, sphere_t 1); (KEY_2, cylinder_t 1); (KEY_3, box_t 0); (KEY_4, cone_t 1)] ->
  exists a' m' node nd sl,
    handle_key fmt k PRESS a = Some a' /\
    current_model a' = Some m' /\ current_node a' = Some node /\
    nodes (heap a') !! node = Some nd /\
    parent nd = Some (root m') /\ children nd = [] /\
    shape nd = Some sl /\ shapes (heap a') !! sl = Some sh /\
    translation nd = mat4_identity /\ rotation nd = mat4_identity /\
    scale nd = mat4_identity /\
    match current_model a with
    | Some m => root m' = root m /\ all_nodes m' = all_nodes m ++ [node] /\
                (node ∉ all_nodes m)
    | None => all_nodes m' = [root m'; node]
    end.
Proof.
  intros Hok Hmode Hk.
  assert (E : handle_key fmt k PRESS a = add_shape (create_shape sh) a).
  { unfold handle_key. rewrite Hmode.
    repeat (apply elem_of_cons in Hk as [[= -> ->]|Hk]); [done..|by apply elem_of_nil in Hk]. }
  rewrite E. clear E Hk. unfold add_shape.
  destruct (ensure_model_ok a Hok) as (a1 & m1 & E1 & Hok1 & Hm1 & _).
  rewrite E1. cbn [mbind option_bind]. rewrite Hm1. cbn [mbind option_bind].
  pose proof Hok1 as Hok1'. apply (app_ok_model a1 m1 Hm1) in Hok1' as (W & _).
  destruct (create_shape_spec sh (Some (root m1)) m1 (heap a1) W)
    as (node & m' & σ' & Ec & _ & Hroot & Hall & Hnin & _ & Hsh & Hnode);
    [by apply (root_in_registry m1 (heap a1))|].
  rewrite Ec. cbn [mbind option_bind].
  eexists _, m', node, _, (next_loc (heap a1)). split; [reflexivity|].
  cbn [set_current current_model current_node heap].
  split_and!; [done|done|exact Hnode|by rewrite Hroot|done|done| |done|done|done|].
  - by rewrite Hsh, lookup_insert_eq.
  - unfold ensure_model in E1. destruct (current_model a) as [m|] eqn:Hm.
    + injection E1 as <-. rewrite Hm in Hm1. injection Hm1 as <-. done.
    + unfold app_ok in Hok. rewrite Hm in Hok. destruct Hok as (_ & Hn & Hs).
      assert (Hheap : heap a = mk_store ∅ ∅ (next_loc (heap a))).
      { destruct (heap a); simpl in *; by subst. }
      rewrite Hheap, new_model_eq in E1. cbn [mbind option_bind] in E1.
      injection E1 as <-. cbn [current_model] in Hm1. injection Hm1 as <-.
      rewrite Hall, Hroot. reflexivity.
Qed.

(** * The further theorems at work on the example scenes *)

Lemma fmt_bit_readable : readable fmt_bit.
Proof. intros x. unfold fmt_bit. by destruct (Req_dec_T x 0). Qed.

Lemma two_boxes_affine : affine_nodes two_boxes_store.
Proof.
  destruct two_boxes_facts as (_ & H0 & H2 & H4 & _).
  intros n nd Hn.
  assert (Hin : n ∈ all_nodes two_boxes_model)
    by (apply (wf_live _ _ two_boxes_wf); eauto).
  cbn [all_nodes two_boxes_model] in Hin.
  repeat (apply elem_of_cons in Hin as [->|Hin]);
    [rewrite H0 in Hn|rewrite H2 in Hn|rewrite H4 in Hn|by apply elem_of_nil in Hin];
    injection Hn as <-; cbn [translation rotation scale set_children fresh_node];
    (split_and!; apply affine_identity).
Qed.

Lemma two_boxes_root_translation rd :
  nodes two_boxes_store !! root two_boxes_model = Some rd -> translation rd = mat4_identity.
Proof.
  destruct two_boxes_facts as (_ & H0 & _). cbn [root two_boxes_model]. rewrite H0.
  by intros [= <-].
Qed.

Lemma two_boxes_app_ok md tm axis cur :
  valid_pointer two_boxes_model cur -> app_ok (two_boxes_app md tm axis cur).
Proof.
  intros Hv. unfold app_ok, two_boxes_app. cbn [current_model heap current_node].
  split_and!; [exact two_boxes_wf| |exact Hv|exact two_boxes_affine].
  cbn [all_nodes two_boxes_model]. repeat constructor; lia.
Qed.

Lemma two_boxes_selected n : n ∈ [0; 2; 4] -> valid_pointer two_boxes_model (Some n).
Proof. done. Qed.

Lemma after_key_eq k a :
  app_ok a -> handle_key fmt_bit k PRESS a = Some (after_key k a).
Proof.
  intros Hok. unfold after_key.
  by destruct (handle_key_ok fmt_bit k PRESS a Hok) as (a' & -> & _).
Qed.

Lemma after_rotate_model_eq d a :
  app_ok a -> rotate_model d a = Some (default a (rotate_model d a)).
Proof. intros Hok. by destruct (rotate_model_ok d a Hok) as (a' & -> & _). Qed.

Lemma add_then_remove_child_witness :
  exists σ1 σ2 pd1,
    add_child 0 4 two_boxes_store = Some σ1 /\
    nodes σ1 !! 0 = Some pd1 /\ children pd1 = [2] ++ [4] /\
    remove_child 0 4 σ1 = Some σ2 /\
    nodes σ2 !! 0 = Some (set_children [2] (fresh_node None None)) /\
    nodes σ2 !! 4 = Some (set_parent (Some 0) (fresh_node (Some 3) (Some 2))) /\
    (forall x, x <> 4 -> nodes σ2 !! x = nodes two_boxes_store !! x) /\
    shapes σ2 = shapes two_boxes_store /\ next_loc σ2 = next_loc two_boxes_store.
Proof.
  destruct two_boxes_facts as (_ & H0 & _ & H4 & _).
  apply (add_then_remove_child two_boxes_store 0 4 _ _ H0 H4).
  - lia.
  - cbn [children set_children]. intros [E|H]%elem_of_cons; [lia|by apply elem_of_nil in H].
Defined.

Lemma collect_lists_registry_parents_first_witness :
  exists l,
    collect two_boxes_store (root two_boxes_model) [] = Some (root two_boxes_model :: l) /\
    root two_boxes_model :: l ≡ₚ all_nodes two_boxes_model /\
    forall i n, (root two_boxes_model :: l) !! S i = Some n ->
      exists nd p j, nodes two_boxes_store !! n = Some nd /\ parent nd = Some p /\
                     j <= i /\ (root two_boxes_model :: l) !! j = Some p.
Proof.
  exact (collect_lists_registry_parents_first two_boxes_model two_boxes_store two_boxes_wf).
Defined.

Lemma create_then_remove_witness :
  exists node m1 σ1 m2 σ2,
    create_shape (box_t 0) (Some 2) two_boxes_model two_boxes_store = Some (node, m1, σ1) /\
    remove_node (Some node) m1 σ1 = Some (m2, σ2) /\
    root m2 = root two_boxes_model /\ all_nodes m2 = all_nodes two_boxes_model /\
    nodes σ2 = nodes two_boxes_store /\
    owned_shapes m2 = owned_shapes two_boxes_model ++ [next_loc two_boxes_store] /\
    shapes σ2 = <[next_loc two_boxes_store := box_t 0]> (shapes two_boxes_store) /\
    (next_loc two_boxes_store ∉ owned_shapes two_boxes_model) /\
    next_loc σ2 = S (S (next_loc two_boxes_store)).
Proof.
  apply (create_then_remove (box_t 0) (Some 2) two_boxes_model two_boxes_store two_boxes_wf).
  apply two_boxes_selected. apply elem_of_cons. right. by left.
Defined.

Lemma save_to_file_outcome_witness :
  exists ok fs',
    save_to_file fmt_bit "a.mod" two_boxes_model two_boxes_store open_disk = Some (ok, fs') /\
    ok = writable open_disk "a.mod" /\
    (ok = false -> fs' = open_disk) /\
    (ok = true ->
       exists lines, files fs' !! "a.mod" = Some lines /\
                     length lines = length (all_nodes two_boxes_model) /\
                     (forall other, other <> "a.mod" ->
                                    files fs' !! other = files open_disk !! other) /\
                     writable fs' = writable open_disk).
Proof.
  exact (save_to_file_outcome fmt_bit "a.mod" two_boxes_model two_boxes_store open_disk
           two_boxes_wf).
Defined.

Lemma saved_lines_read_back_witness :
  exists l lines,
    collect two_boxes_store (root two_boxes_model) [] = Some l /\
    save_to_file fmt_bit "a.mod" two_boxes_model two_boxes_store open_disk
    = Some (true, with_file "a.mod" lines open_disk) /\
    length lines = length l /\
    forall i n nd, l !! i = Some n -> nodes two_boxes_store !! n = Some nd ->
      exists line r,
        lines !! i = Some line /\ extract_line line = Some r /\
        type_number two_boxes_store nd = Some (r_type r) /\
        (r_rx r, r_ry r, r_rz r, r_rw r) = (0%R, 0%R, 0%R, 1%R) /\
        match parent nd with
        | None => i = 0 /\ r_parentIdx r = (-1)%Z
        | Some p => (0 <= r_parentIdx r < Z.of_nat i)%Z /\
                    l !! Z.to_nat (r_parentIdx r) = Some p
        end.
Proof.
  apply (saved_lines_read_back fmt_bit "a.mod" two_boxes_model two_boxes_store open_disk
           two_boxes_wf).
  - reflexivity.
  - exact fmt_bit_readable.
  - cbn [all_nodes two_boxes_model length]. lia.
Defined.

Lemma save_then_load_adds_a_node_witness :
  exists lines fs' m' σ',
    save_to_file fmt_bit "a.mod" two_boxes_model two_boxes_store open_disk
    = Some (true, fs') /\
    files fs' !! "a.mod" = Some lines /\
    Forall (fun line => extractable line = true) lines /\
    save_then_load fmt_bit "a.mod" two_boxes_model two_boxes_store open_disk
    = Some (true, m', σ') /\
    wf m' σ' /\
    length (all_nodes m') = S (length (all_nodes two_boxes_model)).
Proof.
  apply (save_then_load_adds_a_node fmt_bit "a.mod" two_boxes_model two_boxes_store open_disk
           two_boxes_wf).
  - reflexivity.
  - intros n nd x _ _ _. apply fmt_bit_readable.
  - cbn [all_nodes two_boxes_model length]. lia.
Defined.

Lemma load_resets_rotations_witness :
  exists m' σ',
    load_from_file "scene.mod" two_boxes_model two_boxes_store noisy_disk
    = Some (true, m', σ') /\
    forall n nd, nodes σ' !! n = Some nd ->
      rotation nd = mat4_identity /\
      (exists t, translation nd = glm.translate mat4_identity t) /\
      (exists s, scale nd = glm.scale mat4_identity s) /\
      vw (color nd) = 1%R.
Proof.
  apply (load_resets_rotations "scene.mod" two_boxes_model two_boxes_store noisy_disk
           noisy_file two_boxes_wf).
  reflexivity.
Defined.

Lemma load_resets_tessellation_witness :
  exists m' σ',
    load_from_file "scene.mod" (root_model 0) (root_store 0) noisy_disk
    = Some (true, m', σ') /\
    forall sl sh, shapes σ' !! sl = Some sh ->
      (sh = sphere_t 1 \/ sh = cylinder_t 1 \/ sh = box_t 0 \/ sh = cone_t 1) /\
      (level sh <= 1)%Z.
Proof.
  apply (load_resets_tessellation "scene.mod" (root_model 0) (root_store 0) noisy_disk
           noisy_file (root_wf 0)).
  reflexivity.
Defined.

Lemma load_key_outcome_witness :
  exists a',
    handle_key fmt_bit (KEY_L "scene") PRESS
      (mk_app MODE_INSPECTION TM_NONE 0 (Some two_boxes_model) (Some 4) two_boxes_store
              noisy_disk) = Some a' /\
    app_ok a' /\ disk a' = noisy_disk /\
    exists m', current_model a' = Some m' /\
               length (all_nodes m') = S (length (List.filter extractable noisy_file)) /\
               current_node a' = last (all_nodes m') /\ is_Some (current_node a').
Proof.
  refine (load_key_outcome fmt_bit "scene"
            (mk_app MODE_INSPECTION TM_NONE 0 (Some two_boxes_model) (Some 4) two_boxes_store
                    noisy_disk) _ eq_refl).
  unfold app_ok. cbn [current_model heap current_node].
  split_and!; [exact two_boxes_wf| | |exact two_boxes_affine].
  - cbn [all_nodes two_boxes_model]. repeat constructor; lia.
  - apply two_boxes_selected. do 2 (apply elem_of_cons; right). by left.
Defined.

Lemma plus_then_minus_restores_rotation_witness :
  handle_key fmt_bit KEY_MINUS PRESS
    (after_key KEY_EQUAL (two_boxes_app MODE_MODELLING TM_ROT 2 (Some 2)))
  = Some (two_boxes_app MODE_MODELLING TM_ROT 2 (Some 2)).
Proof.
  apply (plus_then_minus_restores_rotation fmt_bit
           (two_boxes_app MODE_MODELLING TM_ROT 2 (Some 2)) _ KEY_EQUAL KEY_MINUS
           eq_refl eq_refl).
  - left. split; by left.
  - apply after_key_eq, two_boxes_app_ok, two_boxes_selected.
    apply elem_of_cons. right. by left.
Defined.

Lemma full_turn_restores_witness :
  (forall k, press_keys fmt_bit (replicate k KEY_EQUAL)
               (two_boxes_app MODE_MODELLING TM_ROT 2 (Some 2))
             = apply_transform (INR k * 10) 0.1 1.1
                 (two_boxes_app MODE_MODELLING TM_ROT 2 (Some 2))) /\
  press_keys fmt_bit (replicate 36 KEY_EQUAL) (two_boxes_app MODE_MODELLING TM_ROT 2 (Some 2))
  = Some (two_boxes_app MODE_MODELLING TM_ROT 2 (Some 2)).
Proof.
  apply (full_turn_restores fmt_bit (two_boxes_app MODE_MODELLING TM_ROT 2 (Some 2))
           eq_refl eq_refl).
  rewrite after_key_eq; [by eexists|].
  apply two_boxes_app_ok, two_boxes_selected. apply elem_of_cons. right. by left.
Defined.

Lemma plus_then_minus_restores_translation_witness :
  handle_key fmt_bit KEY_KP_ADD PRESS
    (after_key KEY_KP_SUBTRACT (two_boxes_app MODE_MODELLING TM_TRANS 1 (Some 4)))
  = Some (two_boxes_app MODE_MODELLING TM_TRANS 1 (Some 4)).
Proof.
  apply (plus_then_minus_restores_translation fmt_bit
           (two_boxes_app MODE_MODELLING TM_TRANS 1 (Some 4)) _ KEY_KP_SUBTRACT KEY_KP_ADD
           eq_refl eq_refl).
  - right. split; by right.
  - apply after_key_eq, two_boxes_app_ok, two_boxes_selected.
    do 2 (apply elem_of_cons; right). by left.
Defined.


Lemma model_rotation_moves_every_node_witness :
  exists mc,
    compute_model_centroid two_boxes_store (Some two_boxes_model) = Some mc /\
    current_model (default (two_boxes_app MODE_INSPECTION TM_ROT 2 None)
                     (rotate_model 10 (two_boxes_app MODE_INSPECTION TM_ROT 2 None)))
    = Some two_boxes_model /\
    wf two_boxes_model
       (heap (default (two_boxes_app MODE_INSPECTION TM_ROT 2 None)
                (rotate_model 10 (two_boxes_app MODE_INSPECTION TM_ROT 2 None)))) /\
    forall n, n ∈ all_nodes two_boxes_model ->
      exists w, get_world_matrix two_boxes_store n = Some w /\
                get_world_matrix
                  (heap (default (two_boxes_app MODE_INSPECTION TM_ROT 2 None)
                           (rotate_model 10 (two_boxes_app MODE_INSPECTION TM_ROT 2 None)))) n
                = Some (mat4_mul (pivot_rotation mc (radians 10) (mk_vec3 0 1 0)) w).
Proof.
  apply (model_rotation_moves_every_node 10 (two_boxes_app MODE_INSPECTION TM_ROT 2 None) _
           two_boxes_model (mk_vec3 0 1 0) eq_refl two_boxes_wf two_boxes_root_translation
           eq_refl).
  by apply after_rotate_model_eq, two_boxes_app_ok.
Defined.

Lemma model_plus_then_minus_restores_witness :
  handle_key fmt_bit KEY_MINUS PRESS
    (after_key KEY_EQUAL (two_boxes_app MODE_INSPECTION TM_ROT 2 None))
  = Some (two_boxes_app MODE_INSPECTION TM_ROT 2 None).
Proof.
  apply (model_plus_then_minus_restores fmt_bit
           (two_boxes_app MODE_INSPECTION TM_ROT 2 None) _ two_boxes_model KEY_EQUAL KEY_MINUS
           eq_refl eq_refl eq_refl two_boxes_wf two_boxes_affine two_boxes_root_translation).
  - left. split; by left.
  - by apply after_key_eq, two_boxes_app_ok.
Defined.

Lemma create_places_node_in_parent_frame_witness :
  exists node m' σ' w,
    create_shape (cone_t 1) (Some 4) two_boxes_model two_boxes_store = Some (node, m', σ') /\
    get_world_matrix two_boxes_store 4 = Some w /\
    get_world_matrix σ' node = Some w /\
    forall x, x ∈ all_nodes two_boxes_model ->
              get_world_matrix σ' x = get_world_matrix two_boxes_store x.
Proof.
  apply (create_places_node_in_parent_frame (cone_t 1) (Some 4) two_boxes_model
           two_boxes_store two_boxes_wf).
  apply two_boxes_selected. do 2 (apply elem_of_cons; right). by left.
Defined.

Lemma remove_node_keeps_other_frames_witness :
  exists m' σ',
    remove_node (Some 2) two_boxes_model two_boxes_store = Some (m', σ') /\
    forall x, x ∈ all_nodes m' ->
      x ∈ all_nodes two_boxes_model /\ is_Some (get_world_matrix two_boxes_store x) /\
      get_world_matrix σ' x = get_world_matrix two_boxes_store x.
Proof.
  apply (remove_node_keeps_other_frames two_boxes_model two_boxes_store 2 two_boxes_wf).
  - cbn [all_nodes two_boxes_model]. apply elem_of_cons. right. by left.
  - cbn [root two_boxes_model]. lia.
Defined.

Lemma remove_key_selects_previous_witness :
  exists a' m' i,
    handle_key fmt_bit KEY_5 PRESS (two_boxes_app MODE_MODELLING TM_NONE 0 (Some 4))
    = Some a' /\
    current_model a' = Some m' /\
    remove_node (Some 4) two_boxes_model two_boxes_store = Some (m', heap a') /\
    all_nodes two_boxes_model !! i = Some 4 /\ 1 <= i /\
    current_node a'
    = (if decide (i = 1) then None else all_nodes two_boxes_model !! (i - 1)) /\
    (4 ∉ all_nodes m') /\
    valid_pointer m' (current_node a') /\
    current_node a' <> Some (root m').
Proof.
  apply (remove_key_selects_previous fmt_bit
           (two_boxes_app MODE_MODELLING TM_NONE 0 (Some 4)) two_boxes_model 4).
  - apply two_boxes_app_ok, two_boxes_selected. do 2 (apply elem_of_cons; right). by left.
  - reflexivity.
  - reflexivity.
  - reflexivity.
  - cbn [root two_boxes_model]. lia.
Defined.

Lemma shape_keys_add_under_root_witness :
  exists a' m' node nd sl,
    handle_key fmt_bit KEY_4 PRESS (two_boxes_app MODE_MODELLING TM_NONE 0 (Some 4))
    = Some a' /\
    current_model a' = Some m' /\ current_node a' = Some node /\
    nodes (heap a') !! node = Some nd /\
    parent nd = Some (root m') /\ children nd = [] /\
    shape nd = Some sl /\ shapes (heap a') !! sl = Some (cone_t 1) /\
    translation nd = mat4_identity /\ rotation nd = mat4_identity /\
    scale nd = mat4_identity /\
    root m' = root two_boxes_model /\
    all_nodes m' = all_nodes two_boxes_model ++ [node] /\
    (node ∉ all_nodes two_boxes_model).
Proof.
  apply (shape_keys_add_under_root fmt_bit
           (two_boxes_app MODE_MODELLING TM_NONE 0 (Some 4)) KEY_4 (cone_t 1)).
  - apply two_boxes_app_ok, two_boxes_selected. do 2 (apply elem_of_cons; right). by left.
  - reflexivity.
  - do 3 (apply elem_of_cons; right). by left.
Defined.
